(** * ruin.py: risk premiums with a proportional chance of ruin

    A shallow embedding of [src/ruin.py].  Exchanges and traders are Python
    objects that point at each other, so both live in a store ([World]) and
    refer to each other by position in it.  Floats are idealised: balances,
    payoffs and the constants are rationals ([Q]), and only the result of the
    fractional power in [Exchange.__init__] is a real number ([R]).  The
    process-wide random source of numpy is an explicit state ([Random]) that
    reads its outcomes from two tapes, so that every sequence of draws is the
    behaviour of some tape.  What numpy refuses is an error of the model: a
    uniform range that is empty or does not fit 64 bits, and a negative
    standard deviation.  Statements that depend on an exact float result
    (which sums are exact, which integers convert exactly) carry the bound
    under which binary64 computes what the rationals do. *)

From Stdlib Require Import ZArith QArith Qreals Reals Lra Lqa Lia.
From stdpp Require Import base option list gmap.

Close Scope R_scope.
Close Scope Q_scope.
Close Scope Z_scope.
Open Scope nat_scope.

(** ** Module-level constants *)

(** The constants at the top of the file, gathered so that statements can
    range over them.  [BET_SIZE] is derived, as in the source. *)
Record Params := mkParams {
  NEGATIVE_INFINITY : Q;
  NUM_EXCHANGES : nat;
  BETS_PER_TRADER : nat;
  MAX_RISK : Z;
  RUIN_DECAY : nat;
  PREMIUM_DECAY : Q;
  MAX_PREMIUM : Q;
  RETURN_MEAN : Q;
  RETURN_STD : Q
}.

(** [BET_SIZE = 1.0 / BETS_PER_TRADER].  With no bets per trader the source
    raises [ZeroDivisionError] while it is loaded; the quotient is 0 here. *)
Definition BET_SIZE (p : Params) : Q :=
  (1 / inject_Z (Z.of_nat (BETS_PER_TRADER p)))%Q.

(** The values the source assigns. *)
Definition source_params : Params :=
  {| NEGATIVE_INFINITY := (-10000)%Q;
     NUM_EXCHANGES := 8;
     BETS_PER_TRADER := 2;
     MAX_RISK := 30%Z;
     RUIN_DECAY := 2;
     PREMIUM_DECAY := 2.6%Q;
     MAX_PREMIUM := 0.0009%Q;
     RETURN_MEAN := 0%Q;
     RETURN_STD := 0.007%Q |}.

(** ** The random source *)

(** [np.random] as a state: two tapes of outcomes and how far each was read. *)
Record Random := mkRandom {
  uniform_tape : nat → Z;
  normal_tape : nat → Q;
  uniform_read : nat;
  normal_read : nat
}.

(** [np.random.randint(low, high)]: an integer in [[low, high)], drawn in
    numpy's default integer type, which has 64 bits.  numpy raises
    [ValueError] when [low] is below −2^63, when [high] is above 2^63 and
    when the range is empty. *)
Definition randint (low high : Z) (g : Random) : option (Z * Random) :=
  if ((- 2 ^ 63 <=? low) && (high <=? 2 ^ 63) && (low <? high))%Z then
    Some ((low + uniform_tape g (uniform_read g) `mod` (high - low))%Z,
          mkRandom (uniform_tape g) (normal_tape g)
                   (S (uniform_read g)) (normal_read g))
  else None.

(** [np.random.normal(loc, scale)]; numpy raises [ValueError] when [scale]
    is negative.  The generator returns [loc] plus [scale] times a standard
    normal variate; the tape holds the float that comes out, and which
    floats can come out is not modelled.  A statement that holds for every
    tape holds for every outcome of the generator; an input that is to be
    one the generator can produce says how its variates lie to [loc] and
    [scale]. *)
Definition normal (loc : R) (scale : Q) (g : Random) : option (Q * Random) :=
  if Qlt_le_dec scale 0 then None
  else Some (normal_tape g (normal_read g),
             mkRandom (uniform_tape g) (normal_tape g)
                      (uniform_read g) (S (normal_read g))).

(** ** defaultdict *)

(** Reading [d[k]] of a [defaultdict] yields the default for a missing key
    and stores it. *)
Definition dd_get {V} (dflt : V) (d : gmap Z V) (k : Z) : V :=
  default dflt (d !! k).

Definition dd_touch {V} (dflt : V) (d : gmap Z V) (k : Z) : gmap Z V :=
  match d !! k with
  | Some _ => d
  | None => <[k := dflt]> d
  end.

(** ** class Exchange *)

(** [x ** y] on floats, over the reals.  A negative base with a fractional
    exponent has no float result (Python 2 raises [ValueError], Python 3
    gives a complex number that [np.random.normal] rejects), and neither has
    zero to a negative power. *)
Definition float_pow (x y : Q) : option R :=
  if Qlt_le_dec 0 x then Some (Rpower (Q2R x) (Q2R y))
  else if Qeq_dec x 0 then
    if Qlt_le_dec 0 y then Some 0%R
    else if Qeq_dec y 0 then Some 1%R
    else None
  else
    if (Z.pos (Qden (Qred y)) =? 1)%Z
    then Some (powerRZ (Q2R x) (Qnum (Qred y)))
    else None.

Module Exchange.

Record t := mk {
  z : Z;
  traders : list nat;
  is_dead : bool;
  premium : R
}.

(** [rank = (float(self.z) - MAX_RISK) / (NUM_EXCHANGES - 1)]; the division
    raises [ZeroDivisionError] when there is a single exchange.  The
    conversion [float(self.z)] is taken as the integer itself, which it is
    up to 2^53 in magnitude; a statement about when the constructor raises
    carries that bound ([exact_risks]). *)
Definition rank (p : Params) (zv : Z) : option Q :=
  let d := (Z.of_nat (NUM_EXCHANGES p) - 1)%Z in
  if (d =? 0)%Z then None
  else Some ((inject_Z zv - inject_Z (MAX_RISK p)) / inject_Z d)%Q.

(** [scale = (1 - rank) ** PREMIUM_DECAY]. *)
Definition scale (p : Params) (zv : Z) : option R :=
  r ← rank p zv; float_pow (1 - r)%Q (PREMIUM_DECAY p).

(** [Exchange.__init__(self, z)]. *)
Definition init (p : Params) (zv : Z) : option t :=
  s ← scale p zv;
  Some {| z := zv;
          traders := [];
          is_dead := false;
          premium := (s * Q2R (MAX_PREMIUM p))%R |}.

(** [register_trader(self, t)]: [self.traders.append(t)]. *)
Definition register_trader (tr : nat) (e : t) : t :=
  {| z := z e; traders := traders e ++ [tr];
     is_dead := is_dead e; premium := premium e |}.

Definition set_dead (b : bool) (e : t) : t :=
  {| z := z e; traders := traders e; is_dead := b; premium := premium e |}.

(** The first half of [tick]: the payoff of this step, the new value of
    [is_dead] and the random source after the draws. *)
Definition draw_payoff (p : Params) (e : t) (g : Random)
  : option (Q * bool * Random) :=
  if is_dead e then Some (0%Q, true, g)
  else
    '(r, g1) ← randint 0 (z e ^ Z.of_nat (RUIN_DECAY p)) g;
    if (r =? 0)%Z then Some (NEGATIVE_INFINITY p, true, g1)
    else
      '(x, g2) ← normal (Q2R (RETURN_MEAN p) + premium e) (RETURN_STD p) g1;
      Some (x, false, g2).

End Exchange.

(** ** class Trader *)

Module Trader.

Record t := mk {
  trader_id : nat;
  exchanges : list nat;
  account_balance : gmap Z Q;
  account_series : gmap Z (list Q);
  tick : Z
}.

(** [set([e.z for e in self.exchanges])], read through the references the
    trader holds.  The loop over it writes one key per element, so the
    order in which a Python set is walked does not matter. *)
Definition held (heap : list Exchange.t) (tr : t) : list Z :=
  remove_dups (omap (λ e, Exchange.z <$> heap !! e) (exchanges tr)).

(** The body of the loop of [record_balances] for one risk parameter. *)
Definition record_one (tr : t) (zv : Z) : t :=
  let bal :=
    if Qlt_le_dec (dd_get 0%Q (account_balance tr) zv) 0
    then <[zv := 0%Q]> (account_balance tr)
    else dd_touch 0%Q (account_balance tr) zv in
  {| trader_id := trader_id tr;
     exchanges := exchanges tr;
     account_balance := bal;
     account_series :=
       <[zv := dd_get [] (account_series tr) zv ++ [dd_get 0%Q bal zv]]>
         (account_series tr);
     tick := tick tr |}.

(** [record_balances(self, tick)]; the argument is unused in the source. *)
Definition record_balances (heap : list Exchange.t) (tr : t) : t :=
  foldl record_one tr (held heap tr).

Definition set_tick (tk : Z) (tr : t) : t :=
  {| trader_id := trader_id tr; exchanges := exchanges tr;
     account_balance := account_balance tr;
     account_series := account_series tr; tick := tk |}.

(** [self.account_balance[z] += payoff], one addition; the sum is the
    rationals' and is not rounded. *)
Definition add_balance (zv : Z) (payoff : Q) (tr : t) : t :=
  {| trader_id := trader_id tr; exchanges := exchanges tr;
     account_balance :=
       <[zv := (dd_get 0 (account_balance tr) zv + payoff)%Q]>
         (account_balance tr);
     account_series := account_series tr; tick := tick tr |}.

(** [receive_payoff(self, z, payoff, tick)]. *)
Definition receive_payoff (heap : list Exchange.t)
    (zv : Z) (payoff : Q) (tk : Z) (tr : t) : t :=
  let tr1 :=
    if (tick tr <? tk)%Z
    then set_tick tk (record_balances heap tr)
    else tr in
  add_balance zv payoff tr1.

End Trader.

(** ** The store *)

(** The objects of both classes, each known by its position.  A Python
    reference always points at an object; an update through a position that
    is not in the store changes nothing. *)
Record World := mkWorld {
  exchange_heap : list Exchange.t;
  trader_heap : list Trader.t
}.

(** The first loop of [Trader.__init__]:
    [self.account_balance[e.z] += BET_SIZE] for each entry of [exchanges],
    one addition after the other; the sums are the rationals' and are not
    rounded. *)
Definition initial_balance (p : Params) (heap : list Exchange.t)
    (exchanges : list nat) : gmap Z Q :=
  foldl (λ (m : gmap Z Q) e,
           match heap !! e with
           | Some ex =>
               <[Exchange.z ex :=
                   (dd_get 0 m (Exchange.z ex) + BET_SIZE p)%Q]> m
           | None => m
           end) ∅ exchanges.

(** The object [Trader.__init__] sets up.  Each series is seeded with its
    balance: numpy's [append] flattens the 0-d array [np.array(b)], so the
    seed is the first entry of the series. *)
Definition new_trader (p : Params) (heap : list Exchange.t) (tid : nat)
    (exchanges : list nat) : Trader.t :=
  let bal := initial_balance p heap exchanges in
  {| Trader.trader_id := tid;
     Trader.exchanges := exchanges;
     Trader.account_balance := bal;
     Trader.account_series := (λ b, [b]) <$> bal;
     Trader.tick := 0 |}.

(** The last loop of [Trader.__init__]: [e.register_trader(self)] once per
    entry of [exchanges]. *)
Definition register_all (self : nat) (heap : list Exchange.t)
    (exchanges : list nat) : list Exchange.t :=
  foldl (λ h e, alter (Exchange.register_trader self) e h) heap exchanges.

(** [Trader.__init__(self, trader_id, exchanges)]: the new object is placed
    in the store and its reference returned. *)
Definition Trader_init (p : Params) (w : World) (tid : nat)
    (exchanges : list nat) : World * nat :=
  let self := length (trader_heap w) in
  ({| exchange_heap := register_all self (exchange_heap w) exchanges;
      trader_heap :=
        trader_heap w ++ [new_trader p (exchange_heap w) tid exchanges] |},
   self).

(** One pass of the loop [for t in self.traders: t.receive_payoff(...)]. *)
Definition notify (zv : Z) (payoff : Q) (tk : Z) (w : World) (tr : nat)
    : World :=
  {| exchange_heap := exchange_heap w;
     trader_heap :=
       alter (Trader.receive_payoff (exchange_heap w) zv payoff tk) tr
             (trader_heap w) |}.

(** [Exchange.tick(self, tick_num)] on the exchange at reference [e]:
    [is_dead] is set before the traders are told. *)
Definition Exchange_tick (p : Params) (w : World) (e : nat) (tick_num : Z)
    (g : Random) : option (World * Random) :=
  match exchange_heap w !! e with
  | None => Some (w, g)
  | Some ex =>
      '(payoff, dead, g') ← Exchange.draw_payoff p ex g;
      let w1 :=
        {| exchange_heap :=
             <[e := Exchange.set_dead dead ex]> (exchange_heap w);
           trader_heap := trader_heap w |} in
      Some (foldl (notify (Exchange.z ex) payoff tick_num) w1
                  (Exchange.traders ex), g')
  end.

(** ** Module-level functions *)

(** [[l[i: i + n] for i in range(0, len(l) - (n - 1))]]: the range is empty
    when its bound is not positive, which the subtraction on [nat] gives. *)
Definition contiguous_sublists_size_n {A} (l : list A) (n : nat)
    : list (list A) :=
  (λ i, take n (drop i l)) <$> seq 0 (length l + 1 - n).

(** [generate_exchanges()]: the new exchanges are placed in the store and
    their references returned. *)
Definition generate_exchanges (p : Params) (w : World)
    : option (World * list nat) :=
  es ← mapM (λ k, Exchange.init p (Z.of_nat k + MAX_RISK p)%Z)
            (seq 0 (NUM_EXCHANGES p));
  Some ({| exchange_heap := exchange_heap w ++ es;
           trader_heap := trader_heap w |},
        seq (length (exchange_heap w)) (length es)).

(** The list [exchanges_perm] built by the two nested loops of
    [generate_traders]. *)
Definition exchanges_perm (p : Params) (exchanges : list nat) : list nat :=
  foldl (λ acc e, foldl (λ acc' _, acc' ++ [e]) acc
                        (seq 0 (BETS_PER_TRADER p)))
        [] exchanges.

(** The list comprehension of [generate_traders]: one [Trader(i, sets[i])]
    per index, each construction acting on the store. *)
Definition make_traders (p : Params) (sets : list (list nat))
    (s : World * list nat) (ids : list nat) : World * list nat :=
  foldl (λ '(w', ts) i,
           let '(w'', tr) := Trader_init p w' i (default [] (sets !! i)) in
           (w'', ts ++ [tr]))
        s ids.

(** [generate_traders(exchanges)]. *)
Definition generate_traders (p : Params) (w : World) (exchanges : list nat)
    : World * list nat :=
  let exchange_sets :=
    contiguous_sublists_size_n (exchanges_perm p exchanges)
                               (BETS_PER_TRADER p) in
  make_traders p exchange_sets (w, []) (seq 0 (length exchange_sets)).

(** A loop whose body may raise. *)
Fixpoint for_each {A S} (body : S → A → option S) (s : S) (l : list A)
    : option S :=
  match l with
  | [] => Some s
  | x :: l' => s' ← body s x; for_each body s' l'
  end.

(** [run_simulation(exchanges, steps)]. *)
Definition run_simulation (p : Params) (w : World) (exchanges : list nat)
    (steps : nat) (g : Random) : option (World * Random) :=
  for_each
    (λ s i, for_each (λ '(w', g') e, Exchange_tick p w' e (Z.of_nat i) g')
                     s exchanges)
    (w, g) (seq 0 steps).

Definition empty_world : World := mkWorld [] [].

(** The flattening the specification describes: the whole list of venues,
    repeated once per bet (venue0, venue1, ..., venue0, venue1, ...). *)
Definition round_robin_flatten {A} (venues : list A) (bets : nat) : list A :=
  concat (replicate bets venues).

(** ** Predicates used in the statements *)

(** What one exchange may become while the simulation runs: only [is_dead]
    changes, and only from false to true. *)
Definition same_but_deader (a b : Exchange.t) : Prop :=
  Exchange.z b = Exchange.z a
  ∧ Exchange.traders b = Exchange.traders a
  ∧ Exchange.premium b = Exchange.premium a
  ∧ (Exchange.is_dead a = true → Exchange.is_dead b = true).

Definition evolves (w w' : World) : Prop :=
  Forall2 same_but_deader (exchange_heap w) (exchange_heap w')
  ∧ length (trader_heap w') = length (trader_heap w).

(** Every recorded entry of every series of a trader is at least 0. *)
Definition series_nonneg (tr : Trader.t) : Prop :=
  ∀ zv l, Trader.account_series tr !! zv = Some l → Forall (Qle 0) l.

(** The value [record_balances] appends for a balance [b]. *)
Definition clamp (b : Q) : Q := if Qlt_le_dec b 0 then 0%Q else b.

(** All traders of the store satisfy [P], and the exchanges have the risk
    parameters [zs]. *)
Definition all_traders (P : Trader.t → Prop) (zs : list Z) (w : World)
    : Prop :=
  Exchange.z <$> exchange_heap w = zs ∧ Forall P (trader_heap w).

(** The trader has a series exactly for the risk parameters it holds, and
    each of them has [n] entries. *)
Definition recorded (heap : list Exchange.t) (n : nat) (tr : Trader.t)
    : Prop :=
  (∀ zv, zv ∈ Trader.held heap tr
         ↔ is_Some (Trader.account_series tr !! zv))
  ∧ (∀ zv l, Trader.account_series tr !! zv = Some l → length l = n).

(** The trader has [n] entries per series and its checkpoint [tick] is
    [n - 1]: the balances of step [n - 1] are the ones not yet recorded. *)
Definition at_step (heap : list Exchange.t) (n : nat) (tr : Trader.t)
    : Prop :=
  Trader.tick tr = (Z.of_nat n - 1)%Z ∧ recorded heap n tr.

(** Some exchange on the list [es] has the trader [t] on its notification
    list. *)
Definition notified_by (heap : list Exchange.t) (es : list nat) (t : nat)
    : Prop :=
  ∃ e ex, e ∈ es ∧ heap !! e = Some ex ∧ t ∈ Exchange.traders ex.

(** ** Concrete inputs *)

(** Two venues with risk parameters 30 and 31 and no trader yet. *)
Definition two_venues : World :=
  {| exchange_heap :=
       default [] (mapM (Exchange.init source_params) [30; 31]%Z);
     trader_heap := [] |}.

(** The eight exchanges of the source and the fifteen traders allocated to
    them. *)
Definition source_exchanges : World :=
  default empty_world (fst <$> generate_exchanges source_params empty_world).

Definition source_world : World :=
  (generate_traders source_params source_exchanges (seq 0 8)).1.

(** A random source under which every exchange survives, except that the
    ninth uniform draw (the riskiest exchange, at step 1) is a ruin, and
    every normal variate is 20000. *)
Definition windfall_then_ruin : Random :=
  {| uniform_tape := λ n, if Nat.eqb n 8 then 0%Z else 1%Z;
     normal_tape := λ _, 20000%Q;
     uniform_read := 0;
     normal_read := 0 |}.

(** The store and the random source after [n] steps of the simulation. *)
Definition after_steps (n : nat) : World * Random :=
  default (empty_world, windfall_then_ruin)
    (run_simulation source_params source_world (seq 0 8) n windfall_then_ruin).

(** One exchange with risk parameter 1 and no trader. *)
Definition risk_one_world : World :=
  {| exchange_heap := default [] (mapM (Exchange.init source_params) [1%Z]);
     trader_heap := [] |}.

(** A random source under which every uniform draw is a ruin. *)
Definition ruin_at_once : Random :=
  {| uniform_tape := λ _, 0%Z;
     normal_tape := λ _, 0%Q;
     uniform_read := 0;
     normal_read := 0 |}.

(** ** The rest of the module *)

(** [NUM_STEPS] and [NUM_TRADERS]; the latter is never used by the source. *)
Definition NUM_STEPS : nat := 2600.

Definition NUM_TRADERS (p : Params) : nat :=
  NUM_EXCHANGES p * BETS_PER_TRADER p.

(** [a + b] on numpy arrays of one dimension, with broadcasting: arrays of
    one length are added entry by entry, an array of one entry (or a scalar,
    or the 0-d array a series is seeded with) is added to every entry of the
    other, and any other pair of shapes raises [ValueError]. *)
Definition np_add (a b : list Q) : option (list Q) :=
  if decide (length a = length b) then Some (zip_with Qplus a b)
  else match a, b with
       | [x], _ => Some ((λ y, x + y)%Q <$> b)
       | _, [y] => Some ((λ x, x + y)%Q <$> a)
       | _, _ => None
       end.

(** [sum(arrays)]: the builtin starts from the integer 0 and adds from the
    left. *)
Definition np_sum (arrays : list (list Q)) : option (list Q) :=
  foldl (λ acc v, a ← acc; np_add a v) (Some [0%Q]) arrays.

(** The property [Trader.returns]:
    [sum([v for k, v in self.account_series.items()])].  The dictionary is
    walked in the order of the map. *)
Definition Trader_returns (tr : Trader.t) : option (list Q) :=
  np_sum (snd <$> map_to_list (Trader.account_series tr)).

(** [main()], without the drawing: [plot_all_returns] evaluates
    [t.returns] for every trader before it plots, and [main] returns the
    traders and the exchanges. *)
Definition main (p : Params) (g : Random)
    : option (list nat * list nat * World * Random) :=
  '(w0, exchanges) ← generate_exchanges p empty_world;
  let '(w1, traders) := generate_traders p w0 exchanges in
  '(w2, g') ← run_simulation p w1 exchanges NUM_STEPS g;
  _ ← mapM (λ t, tr ← trader_heap w2 !! t; Trader_returns tr) traders;
  Some (traders, exchanges, w2, g').

(** Every exchange of the store with risk parameter [zv] is dead. *)
Definition all_dead_at (zv : Z) (heap : list Exchange.t) : Prop :=
  ∀ e ex, heap !! e = Some ex → Exchange.z ex = zv →
          Exchange.is_dead ex = true.

(** How many times the window of trader [t] names the exchange [e], for the
    windows [rest] that belong to the traders from position [base] on. *)
Definition bets_at (rest : list (list nat)) (base t e : nat) : nat :=
  if decide (base ≤ t)
  then count_occ Nat.eq_dec (default [] (rest !! (t - base))) e
  else 0.

(** The balance at [zv] that the payoffs of step [tk] are added to: the
    first notification of a new step records, and so clamps, the balances
    the trader holds. *)
Definition opening_balance (heap : list Exchange.t) (tk : Z) (tr : Trader.t)
    (zv : Z) : Q :=
  let b := dd_get 0%Q (Trader.account_balance tr) zv in
  if (Trader.tick tr <? tk)%Z
  then (if decide (zv ∈ Trader.held heap tr) then clamp b else b)
  else b.

(** What a trader may become while the simulation runs: its identity and
    allocations stay, its checkpoint does not go back, and every series is
    only appended to. *)
Definition grows (a b : Trader.t) : Prop :=
  Trader.trader_id b = Trader.trader_id a
  ∧ Trader.exchanges b = Trader.exchanges a
  ∧ (Trader.tick a ≤ Trader.tick b)%Z
  ∧ ∀ zv, dd_get [] (Trader.account_series a) zv
          `prefix_of` dd_get [] (Trader.account_series b) zv.

(** A trader whose balance at [zv] is not positive keeps it so, and its
    series for [zv] is only extended by zeros. *)
Definition stays_ruined (zv : Z) (a b : Trader.t) : Prop :=
  (dd_get 0 (Trader.account_balance a) zv <= 0)%Q →
  (dd_get 0 (Trader.account_balance b) zv <= 0)%Q
  ∧ ∃ later, dd_get [] (Trader.account_series b) zv
             = dd_get [] (Trader.account_series a) zv ++ later
           ∧ Forall (Qeq 0) later.

(** The source's store after one step in which every exchange is ruined. *)
Definition all_ruined : World * Random :=
  default (empty_world, ruin_at_once)
    (run_simulation source_params source_world (seq 0 8) 1 ruin_at_once).

(** The sum of a list of numbers, and entry [j] of an array (0 when there is
    no such entry). *)
Definition Qsum (l : list Q) : Q := foldr Qplus 0%Q l.

Definition entry (j : nat) (a : list Q) : Q := default 0%Q (a !! j).

(** Some series of the trader has an entry. *)
Definition has_series (tr : Trader.t) : Prop :=
  ∃ zv, dd_get [] (Trader.account_series tr) zv ≠ [].

(** From a checkpoint of at least [bound] on, the trader records nothing:
    its series and its checkpoint are the ones it had. *)
Definition frozen_from (bound : Z) (a b : Trader.t) : Prop :=
  (bound <= Trader.tick a)%Z →
  Trader.account_series b = Trader.account_series a
  ∧ Trader.tick b = Trader.tick a.

(** The risk parameters that [generate_exchanges] passes on are integers
    that binary64 holds exactly, so that [float(self.z)] and its difference
    to MAX_RISK are the numbers the model computes with.  Beyond 2^53 the
    conversion rounds, and beyond the range of binary64 it raises. *)
Definition exact_risks (p : Params) : Prop :=
  (Z.abs (MAX_RISK p) + Z.of_nat (NUM_EXCHANGES p) <= 2 ^ 53)%Z.

(** The trader [tr'] is the trader [tr] after [n] notifications of [payoff]
    for the risk parameter [zv] at step [tk].  With no notification it is
    untouched.  Otherwise it keeps its identity and allocations; if the step
    is new to it, the balance of every risk parameter it holds was clamped
    and appended to the series of that parameter; its checkpoint is the
    later of its own and the step; and the payoff was added [n] times, one
    addition after the other, to the balance of [zv]. *)
Definition notified (heap : list Exchange.t) (zv : Z) (payoff : Q) (tk : Z)
    (n : nat) (tr tr' : Trader.t) : Prop :=
  match n with
  | 0 => tr' = tr
  | S _ =>
      Trader.trader_id tr' = Trader.trader_id tr
      ∧ Trader.exchanges tr' = Trader.exchanges tr
      ∧ Trader.tick tr' = Z.max (Trader.tick tr) tk
      ∧ (∀ k, Trader.account_series tr' !! k
              = if (Trader.tick tr <? tk)%Z
                   && bool_decide (k ∈ Trader.held heap tr)
                then Some (dd_get [] (Trader.account_series tr) k
                           ++ [clamp (dd_get 0%Q (Trader.account_balance tr)
                                             k)])
                else Trader.account_series tr !! k)
      ∧ ∀ k, dd_get 0%Q (Trader.account_balance tr') k
             = if decide (k = zv)
               then Nat.iter n (λ b, (b + payoff)%Q)
                             (opening_balance heap tk tr k)
               else opening_balance heap tk tr k
  end.

(** A [tick] at step [tk] of the exchange [ex] at [e] that settles a payoff
    of 0 and draws nothing: it returns with the random source and the
    exchanges as they were, it adds and removes no trader, and every trader
    was told the 0 once for each time it is on the list of [ex], so that a
    trader on the list has the checkpoint and the records of the step and
    the balances it opened the step with. *)
Definition ticks_zero (p : Params) (w : World) (e : nat) (ex : Exchange.t)
    (tk : Z) (g : Random) : Prop :=
  ∃ w', Exchange_tick p w e tk g = Some (w', g)
      ∧ exchange_heap w' = exchange_heap w
      ∧ length (trader_heap w') = length (trader_heap w)
      ∧ ∀ t tr, trader_heap w !! t = Some tr →
          ∃ tr', trader_heap w' !! t = Some tr'
               ∧ notified (exchange_heap w) (Exchange.z ex) 0 tk
                          (count_occ Nat.eq_dec (Exchange.traders ex) t)
                          tr tr'
               ∧ (t ∈ Exchange.traders ex →
                  ∀ k, dd_get 0%Q (Trader.account_balance tr') k
                       = opening_balance (exchange_heap w) tk tr k).

(** What the notifications of step [k] have made of a trader.  If its
    checkpoint is before [k], either none has reached it yet and it is as it
    was, or the first one has recorded its balances and set its checkpoint
    to [k]; the later ones leave the series and the checkpoint alone. *)
Definition records_step (heap : list Exchange.t) (k : Z) (a b : Trader.t)
    : Prop :=
  ((Trader.tick a < k)%Z →
   b = a
   ∨ (Trader.tick b = k
      ∧ Trader.account_series b
        = Trader.account_series (Trader.record_balances heap a)))
  ∧ frozen_from k a b.





(** * Properties *)

(** ** The model on the constants of the source *)

Example two_venues_z :
  Exchange.z <$> exchange_heap two_venues = [30; 31]%Z.
Proof. vm_compute. reflexivity. Qed.

Example risk_one_world_z :
  Exchange.z <$> exchange_heap risk_one_world = [1]%Z.
Proof. vm_compute. reflexivity. Qed.

(** The allocations [main] hands out: fifteen traders over eight
    exchanges. *)
Example source_world_allocations :
  Trader.exchanges <$> trader_heap source_world
  = [[0; 0]; [0; 1]; [1; 1]; [1; 2]; [2; 2]; [2; 3]; [3; 3]; [3; 4];
     [4; 4]; [4; 5]; [5; 5]; [5; 6]; [6; 6]; [6; 7]; [7; 7]].
Proof. vm_compute. reflexivity. Qed.

Example source_world_registrations :
  Exchange.traders <$> exchange_heap source_world
  = [[0; 0; 1]; [1; 2; 2; 3]; [3; 4; 4; 5]; [5; 6; 6; 7]; [7; 8; 8; 9];
     [9; 10; 10; 11]; [11; 12; 12; 13]; [13; 14; 14]].
Proof. vm_compute. reflexivity. Qed.

(** Under [windfall_then_ruin] the run does not raise, the riskiest exchange
    is ruined at step 1, and the first trader's series for risk parameter 30
    reads 1, 40001, 20001 after three steps. *)
Example windfall_run_returns :
  is_Some (run_simulation source_params source_world (seq 0 8) 3
                          windfall_then_ruin).
Proof. vm_compute. by eexists. Qed.

Example windfall_run_ruins_first_exchange :
  Exchange.is_dead <$> exchange_heap (after_steps 1).1
  = [false; false; false; false; false; false; false; false]
  ∧ Exchange.is_dead <$> exchange_heap (after_steps 2).1
    = [true; false; false; false; false; false; false; false].
Proof. split; vm_compute; reflexivity. Qed.

Example windfall_run_first_series :
  (λ tr, Qred <$> dd_get [] (Trader.account_series tr) 30)
    <$> trader_heap (after_steps 3).1 !! 0
  = Some [1; 40001; 20001]%Q.
Proof. vm_compute. reflexivity. Qed.

(** ** The allocation lists *)

Section Windows.
Context {A : Type}.
Implicit Types (l : list A) (n i : nat).

Lemma contiguous_sublists_length l n :
  length (contiguous_sublists_size_n l n) = length l + 1 - n.
Proof.
  unfold contiguous_sublists_size_n. by rewrite length_fmap, length_seq.
Qed.

Lemma contiguous_sublists_lookup l n i :
  i < length l + 1 - n →
  contiguous_sublists_size_n l n !! i = Some (take n (drop i l)).
Proof.
  intros Hi. unfold contiguous_sublists_size_n.
  rewrite list_lookup_fmap, lookup_seq_lt by done. done.
Qed.

Lemma contiguous_sublists_full l n i :
  i < length l + 1 - n → length (take n (drop i l)) = n.
Proof. intros Hi. rewrite length_take, length_drop. lia. Qed.

End Windows.

(** The inner loop appends [n] copies of [e]. *)
Lemma append_copies (e : nat) (ks : list nat) (acc : list nat) :
  foldl (λ acc' _, acc' ++ [e]) acc ks = acc ++ replicate (length ks) e.
Proof.
  revert acc. induction ks as [|k ks IH]; intros acc; simpl.
  - by rewrite app_nil_r.
  - rewrite IH, <- app_assoc. done.
Qed.

(** [exchanges_perm] lays the venues out in blocks: every venue is followed
    by its own copies before the next venue starts. *)
Lemma exchanges_perm_blocks p exchanges :
  exchanges_perm p exchanges = exchanges ≫= replicate (BETS_PER_TRADER p).
Proof.
  unfold exchanges_perm.
  enough (∀ acc, foldl (λ acc e, foldl (λ acc' _, acc' ++ [e]) acc
                                      (seq 0 (BETS_PER_TRADER p))) acc exchanges
                 = acc ++ (exchanges ≫= replicate (BETS_PER_TRADER p))) as H
    by apply (H []).
  induction exchanges as [|e es IH]; intros acc; simpl.
  - by rewrite app_nil_r.
  - rewrite IH, append_copies, length_seq, <- app_assoc. done.
Qed.

Lemma blocks_length (b : nat) (l : list nat) :
  length (l ≫= replicate b) = length l * b.
Proof.
  induction l as [|e l IH]; [done|].
  rewrite bind_cons, length_app, length_replicate, IH. done.
Qed.

Lemma exchanges_perm_length p exchanges :
  length (exchanges_perm p exchanges) = length exchanges * BETS_PER_TRADER p.
Proof. rewrite exchanges_perm_blocks. apply blocks_length. Qed.

(** A window that starts inside the first block ends in the second. *)
Lemma take_blocks_head (b i e : nat) (l : list nat) :
  i ≤ b → take i ((e :: l) ≫= replicate b) = replicate i e.
Proof.
  intros Hi. rewrite bind_cons, take_app_le by (rewrite length_replicate; lia).
  rewrite take_replicate. f_equal. lia.
Qed.

(** The first window is the first block. *)
Lemma first_window (b e : nat) (l : list nat) :
  take b (drop 0 ((e :: l) ≫= replicate b)) = replicate b e.
Proof. rewrite drop_0. by apply take_blocks_head. Qed.

(** Every window of the block layout lies across at most two blocks. *)
Lemma window_two_blocks (b : nat) (l : list nat) (i : nat) :
  i + b ≤ length l * b →
  1 ≤ length l →
  ∃ x y m, m ≤ b ∧ x ∈ l ∧ y ∈ l ∧
    take b (drop i (l ≫= replicate b)) = replicate (b - m) x ++ replicate m y.
Proof.
  revert i. induction l as [|e l IH]; intros i Hi Hl; [simpl in Hl; lia|].
  destruct l as [|e' l'].
  - assert (i = 0) as -> by (simpl in Hi; lia).
    exists e, e, 0. rewrite first_window. simpl. rewrite app_nil_r, Nat.sub_0_r.
    repeat split; [lia|apply list_elem_of_here..].
  - destruct (decide (i < b)) as [Hlt|Hge].
    + rewrite bind_cons, drop_app_le by (rewrite length_replicate; lia).
      rewrite drop_replicate.
      rewrite take_app_ge by (rewrite length_replicate; lia).
      rewrite length_replicate.
      replace (b - (b - i)) with i by lia.
      rewrite take_blocks_head by lia.
      exists e, e', i. repeat split; [lia|rewrite !elem_of_cons; auto..].
    + rewrite bind_cons, drop_app_ge by (rewrite length_replicate; lia).
      rewrite length_replicate.
      destruct (IH (i - b)) as (x & y & m & Hm & Hx & Hy & Heq).
      * simpl in Hi. simpl. lia.
      * simpl. lia.
      * exists x, y, m. rewrite Heq.
        repeat split; [done|by apply list_elem_of_further..].
Qed.

(** The last window is the last block. *)
Lemma last_window (b e : nat) (l : list nat) :
  take b (drop (length (l ++ [e]) * b - b) ((l ++ [e]) ≫= replicate b))
  = replicate b e.
Proof.
  rewrite bind_app, length_app.
  replace ((length l + length [e]) * b - b)
    with (length (l ≫= replicate b) + 0)
    by (rewrite blocks_length; simpl; lia).
  rewrite drop_app_add, drop_0, bind_cons. simpl. rewrite app_nil_r.
  rewrite take_replicate. f_equal. lia.
Qed.

(** A list drawn from two values has at most two distinct entries. *)
Lemma two_values_distinct `{EqDecision B} (x y : B) (l : list B) :
  (∀ e, e ∈ l → e = x ∨ e = y) → length (remove_dups l) ≤ 2.
Proof.
  intros H.
  change 2 with (length [x; y]).
  apply submseteq_length, NoDup_submseteq; [apply NoDup_remove_dups|].
  intros e He. apply elem_of_remove_dups, H in He.
  rewrite !elem_of_cons. tauto.
Qed.

(** ** Building the traders *)

(** A field that an update leaves alone is the same across the store. *)
Lemma alter_keeps_field {B} (f : Exchange.t → B) (upd : Exchange.t → Exchange.t)
    (e : nat) (heap : list Exchange.t) :
  (∀ x, f (upd x) = f x) → f <$> alter upd e heap = f <$> heap.
Proof.
  intros Hf. apply list_eq. intros i. rewrite !list_lookup_fmap.
  rewrite list_lookup_alter. destruct (decide (e = i)) as [->|]; [|done].
  destruct (heap !! i); simpl; [by rewrite Hf|done].
Qed.

Lemma register_all_z self heap exchanges :
  Exchange.z <$> register_all self heap exchanges = Exchange.z <$> heap.
Proof.
  unfold register_all. revert heap.
  induction exchanges as [|e es IH]; intros heap; simpl; [done|].
  rewrite IH. by apply alter_keeps_field.
Qed.

(** Registration only ever appends to the notification lists, and the new
    trader is on the list of every exchange it was given. *)
Lemma register_all_traders self heap exchanges e ex :
  heap !! e = Some ex →
  ∃ ex', register_all self heap exchanges !! e = Some ex'
       ∧ (∀ t, t ∈ Exchange.traders ex → t ∈ Exchange.traders ex')
       ∧ (e ∈ exchanges → self ∈ Exchange.traders ex').
Proof.
  unfold register_all. revert heap ex.
  induction exchanges as [|e0 es IH]; intros heap ex Hex; simpl.
  - exists ex. split; [done|]. split; [done|]. by intros ?%elem_of_nil.
  - destruct (decide (e0 = e)) as [->|Hne].
    + destruct (IH (alter (Exchange.register_trader self) e heap)
                   (Exchange.register_trader self ex)) as (ex' & H1 & H2 & H3).
      { by rewrite list_lookup_alter_eq, Hex. }
      exists ex'. split; [done|]. split.
      * intros t Ht. apply H2. simpl. apply elem_of_app. by left.
      * intros _. apply H2. simpl. apply elem_of_app. right.
        apply list_elem_of_here.
    + destruct (IH (alter (Exchange.register_trader self) e0 heap) ex)
        as (ex' & H1 & H2 & H3).
      { by rewrite list_lookup_alter_ne. }
      exists ex'. split; [done|]. split; [done|].
      intros [?|?]%elem_of_cons; [congruence|auto].
Qed.

(** What a trader reads of the exchanges is their risk parameter only. *)
Lemma initial_balance_ext p heap1 heap2 exchanges :
  Exchange.z <$> heap1 = Exchange.z <$> heap2 →
  initial_balance p heap1 exchanges = initial_balance p heap2 exchanges.
Proof.
  intros Hz. unfold initial_balance. generalize (∅ : gmap Z Q).
  induction exchanges as [|e es IH]; intros m; simpl; [done|].
  assert (Exchange.z <$> heap1 !! e = Exchange.z <$> heap2 !! e) as He
    by (by rewrite <- !list_lookup_fmap, Hz).
  destruct (heap1 !! e) as [x1|], (heap2 !! e) as [x2|]; simpl in He;
    try discriminate; [|done].
  injection He as ->. apply IH.
Qed.

Lemma new_trader_ext p heap1 heap2 tid exchanges :
  Exchange.z <$> heap1 = Exchange.z <$> heap2 →
  new_trader p heap1 tid exchanges = new_trader p heap2 tid exchanges.
Proof.
  intros Hz. unfold new_trader.
  by rewrite (initial_balance_ext p heap1 heap2 exchanges Hz).
Qed.

Lemma make_traders_cons p sets w ts i ids :
  make_traders p sets (w, ts) (i :: ids)
  = make_traders p sets
      ({| exchange_heap :=
            register_all (length (trader_heap w)) (exchange_heap w)
                         (default [] (sets !! i));
          trader_heap :=
            trader_heap w
            ++ [new_trader p (exchange_heap w) i (default [] (sets !! i))] |},
       ts ++ [length (trader_heap w)]) ids.
Proof. reflexivity. Qed.

Lemma make_traders_spec p sets rest :
  ∀ pre w ts, sets = pre ++ rest →
  ∃ w', make_traders p sets (w, ts) (seq (length pre) (length rest))
          = (w', ts ++ seq (length (trader_heap w)) (length rest))
      ∧ trader_heap w'
          = trader_heap w
            ++ imap (λ j s, new_trader p (exchange_heap w) (length pre + j) s)
                    rest
      ∧ Exchange.z <$> exchange_heap w' = Exchange.z <$> exchange_heap w
      ∧ (∀ e ex, exchange_heap w !! e = Some ex →
           ∃ ex', exchange_heap w' !! e = Some ex'
                ∧ (∀ t, t ∈ Exchange.traders ex → t ∈ Exchange.traders ex')
                ∧ (∀ j s, rest !! j = Some s → e ∈ s →
                     length (trader_heap w) + j ∈ Exchange.traders ex')).
Proof.
  induction rest as [|s rest IH]; intros pre w ts Hsets.
  - exists w. simpl. rewrite !app_nil_r. split; [done|]. split; [done|].
    split; [done|].
    intros e ex Hex. exists ex. split; [done|]. split; [done|].
    intros j s' Hj. by rewrite lookup_nil in Hj.
  - simpl length. rewrite <- cons_seq, make_traders_cons.
    assert (sets !! length pre = Some s) as ->
      by (rewrite Hsets; apply list_lookup_middle; done).
    simpl default.
    set (w1 := {| exchange_heap :=
                    register_all (length (trader_heap w)) (exchange_heap w) s;
                  trader_heap :=
                    trader_heap w
                    ++ [new_trader p (exchange_heap w) (length pre) s] |}).
    destruct (IH (pre ++ [s]) w1 (ts ++ [length (trader_heap w)]))
      as (w' & Hrun & Htr & Hz & Hreg).
    { by rewrite <- app_assoc. }
    assert (Exchange.z <$> exchange_heap w1 = Exchange.z <$> exchange_heap w)
      as Hz1 by apply register_all_z.
    exists w'. split; [|split; [|split]].
    + rewrite length_app in Hrun. simpl in Hrun.
      replace (length pre + 1) with (S (length pre)) in Hrun by lia.
      rewrite Hrun. f_equal.
      rewrite <- app_assoc. simpl. do 3 f_equal.
      rewrite length_app. simpl. lia.
    + rewrite Htr. subst w1. simpl. rewrite <- app_assoc. f_equal. simpl.
      f_equal; [f_equal; lia|].
      apply imap_ext. intros j s' _. simpl.
      rewrite length_app. simpl.
      replace (length pre + 1 + j) with (length pre + S j) by lia.
      by apply new_trader_ext.
    + by rewrite Hz.
    + intros e ex Hex.
      destruct (register_all_traders (length (trader_heap w))
                  (exchange_heap w) s e ex Hex) as (ex1 & Hex1 & Hold & Hnew).
      destruct (Hreg e ex1 Hex1) as (ex' & Hex' & Hold' & Hnew').
      exists ex'. split; [done|]. split; [by auto|].
      intros [|j] s' Hj He; simpl in Hj.
      * injection Hj as <-. rewrite Nat.add_0_r. by auto.
      * specialize (Hnew' j s' Hj He). subst w1. simpl in Hnew'.
        rewrite length_app in Hnew'. simpl in Hnew'.
        by replace (length (trader_heap w) + S j)
          with (length (trader_heap w) + 1 + j) by lia.
Qed.

(** [generate_traders] adds one trader per window, in order, and registers
    each with the exchanges of its window. *)
Lemma generate_traders_spec p w exchanges :
  let sets := contiguous_sublists_size_n (exchanges_perm p exchanges)
                                         (BETS_PER_TRADER p) in
  ∃ w', generate_traders p w exchanges
          = (w', seq (length (trader_heap w)) (length sets))
      ∧ trader_heap w'
          = trader_heap w ++ imap (new_trader p (exchange_heap w)) sets
      ∧ Exchange.z <$> exchange_heap w' = Exchange.z <$> exchange_heap w
      ∧ (∀ e ex, exchange_heap w !! e = Some ex →
           ∃ ex', exchange_heap w' !! e = Some ex'
                ∧ (∀ t, t ∈ Exchange.traders ex → t ∈ Exchange.traders ex')
                ∧ (∀ j s, sets !! j = Some s → e ∈ s →
                     length (trader_heap w) + j ∈ Exchange.traders ex')).
Proof.
  intros sets.
  destruct (make_traders_spec p sets sets [] w [] eq_refl)
    as (w' & Hrun & Htr & Hz & Hreg).
  exists w'. split; [exact Hrun|]. split; [exact Htr|]. split; [exact Hz|].
  exact Hreg.
Qed.

(** The number of windows, for at least one venue and one bet. *)
Lemma window_count p exchanges :
  1 ≤ length exchanges → 1 ≤ BETS_PER_TRADER p →
  length (contiguous_sublists_size_n (exchanges_perm p exchanges)
                                     (BETS_PER_TRADER p))
  = length exchanges * BETS_PER_TRADER p - BETS_PER_TRADER p + 1.
Proof.
  intros HN Hb. rewrite contiguous_sublists_length, exchanges_perm_length.
  assert (BETS_PER_TRADER p ≤ length exchanges * BETS_PER_TRADER p) by nia.
  lia.
Qed.

(** The trader built for window [i] sits [i] places after the traders that
    were already in the store. *)
Lemma generated_trader_lookup p w exchanges i :
  i < length (contiguous_sublists_size_n (exchanges_perm p exchanges)
                                         (BETS_PER_TRADER p)) →
  trader_heap (generate_traders p w exchanges).1
    !! (length (trader_heap w) + i)
  = Some (new_trader p (exchange_heap w) i
            (take (BETS_PER_TRADER p)
                  (drop i (exchanges_perm p exchanges)))).
Proof.
  intros Hi.
  destruct (generate_traders_spec p w exchanges) as (w' & Hg & Htr & _).
  rewrite Hg. simpl. rewrite Htr, lookup_app_r by lia.
  replace (length (trader_heap w) + i - length (trader_heap w)) with i by lia.
  rewrite list_lookup_imap, contiguous_sublists_lookup; [done|].
  by rewrite contiguous_sublists_length in Hi.
Qed.

Lemma remove_dups_replicate `{EqDecision B} (n : nat) (x : B) :
  1 ≤ n → remove_dups (replicate n x) = [x].
Proof.
  intros Hn. destruct n as [|n]; [lia|]. clear Hn.
  induction n as [|n IH]; [done|].
  change (remove_dups (replicate (S (S n)) x))
    with (if decide_rel (∈) x (replicate (S n) x)
          then remove_dups (replicate (S n) x)
          else x :: remove_dups (replicate (S n) x)).
  destruct (decide_rel (∈) x (replicate (S n) x)) as [_|Hn]; [exact IH|].
  destruct Hn. apply list_elem_of_here.
Qed.

(** ** Claims about the allocation *)

(** C3: for a venue list of length N ≥ 1 and b ≥ 1 bets per trader,
    [generate_traders] cuts the flattened list (of length N·b) into the
    windows of size b that start at positions 0, 1, 2, ...: it adds exactly
    N·b − b + 1 traders, the i-th of which is given the b consecutive entries
    that start at position i. *)
Theorem generate_traders_sliding_windows p w exchanges :
  1 ≤ length exchanges → 1 ≤ BETS_PER_TRADER p →
  let N := length exchanges in
  let b := BETS_PER_TRADER p in
  let w' := (generate_traders p w exchanges).1 in
  let ts := (generate_traders p w exchanges).2 in
  length (exchanges_perm p exchanges) = N * b
  ∧ length ts = N * b - b + 1
  ∧ length (trader_heap w') = length (trader_heap w) + (N * b - b + 1)
  ∧ ∀ i, i < N * b - b + 1 →
      ∃ tr, ts !! i = Some (length (trader_heap w) + i)
          ∧ trader_heap w' !! (length (trader_heap w) + i) = Some tr
          ∧ Trader.trader_id tr = i
          ∧ Trader.exchanges tr = take b (drop i (exchanges_perm p exchanges))
          ∧ length (Trader.exchanges tr) = b.
Proof.
  intros HN Hb. cbv zeta.
  pose proof (window_count p exchanges HN Hb) as Hcount.
  split; [apply exchanges_perm_length|].
  destruct (generate_traders_spec p w exchanges) as (w1 & Hg & Htr & _).
  rewrite Hg. simpl. rewrite Hcount in *.
  split; [by rewrite length_seq|].
  split; [by rewrite Htr, length_app, length_imap, Hcount|].
  intros i Hi.
  exists (new_trader p (exchange_heap w) i
            (take (BETS_PER_TRADER p) (drop i (exchanges_perm p exchanges)))).
  split; [by rewrite lookup_seq_lt|].
  split.
  { pose proof (generated_trader_lookup p w exchanges i) as Hl.
    rewrite Hg, Hcount in Hl. by apply Hl. }
  split; [done|]. split; [done|]. simpl.
  apply contiguous_sublists_full.
  rewrite exchanges_perm_length.
  assert (BETS_PER_TRADER p ≤ length exchanges * BETS_PER_TRADER p) by nia.
  lia.
Qed.

(** With the two venues 30 and 31 and two bets per trader there are three
    traders. *)
Lemma generate_traders_sliding_windows_witness :
  1 ≤ length [0; 1] ∧ 1 ≤ BETS_PER_TRADER source_params
  ∧ length (generate_traders source_params two_venues [0; 1]).2 = 3.
Proof.
  split; [simpl; lia|]. split; [simpl; lia|].
  apply (generate_traders_sliding_windows source_params two_venues [0; 1]);
    simpl; lia.
Defined.

(** C4 as the specification words it, refuted: for the venues 0 and 1 and two
    bets the flattened list is [0; 0; 1; 1], not the round-robin order
    [0; 1; 0; 1]. *)
Lemma flattening_not_round_robin :
  exchanges_perm source_params [0; 1] = [0; 0; 1; 1]
  ∧ round_robin_flatten [0; 1] (BETS_PER_TRADER source_params) = [0; 1; 0; 1]
  ∧ exchanges_perm source_params [0; 1]
    ≠ round_robin_flatten [0; 1] (BETS_PER_TRADER source_params).
Proof. split; [reflexivity|]. split; [reflexivity|]. discriminate. Qed.

(** C4, amended: the flattened list is laid out in blocks, each venue
    followed at once by its own b − 1 further copies (venue0 b times, then
    venue1 b times, ...), and the traders' windows are taken over that
    block order. *)
Theorem flattening_in_blocks p w exchanges i :
  i < length exchanges * BETS_PER_TRADER p - BETS_PER_TRADER p + 1 →
  1 ≤ length exchanges → 1 ≤ BETS_PER_TRADER p →
  exchanges_perm p exchanges = exchanges ≫= replicate (BETS_PER_TRADER p)
  ∧ ∃ tr, trader_heap (generate_traders p w exchanges).1
            !! (length (trader_heap w) + i) = Some tr
        ∧ Trader.exchanges tr
          = take (BETS_PER_TRADER p)
                 (drop i (exchanges ≫= replicate (BETS_PER_TRADER p))).
Proof.
  intros Hi HN Hb. split; [apply exchanges_perm_blocks|].
  eexists. split.
  - apply generated_trader_lookup. by rewrite window_count.
  - simpl. by rewrite exchanges_perm_blocks.
Qed.

Lemma flattening_in_blocks_witness :
  exchanges_perm source_params [0; 1] = [0; 0; 1; 1]
  ∧ ∃ tr, trader_heap (generate_traders source_params two_venues [0; 1]).1
            !! 1 = Some tr
        ∧ Trader.exchanges tr = [0; 1].
Proof.
  apply (flattening_in_blocks source_params two_venues [0; 1] 1);
    simpl; lia.
Defined.

(** C10: every trader that [generate_traders] builds holds at most two
    distinct venues, because its window of size b lies across at most two of
    the blocks of b equal entries; the first trader holds the first venue b
    times and the last trader the last venue b times, one distinct venue
    each. *)
Theorem traders_hold_at_most_two_venues p w exchanges :
  1 ≤ length exchanges → 1 ≤ BETS_PER_TRADER p →
  let b := BETS_PER_TRADER p in
  let count := length exchanges * b - b + 1 in
  let w' := (generate_traders p w exchanges).1 in
  let base := length (trader_heap w) in
  (∀ i, i < count →
     ∃ tr, trader_heap w' !! (base + i) = Some tr
         ∧ length (remove_dups (Trader.exchanges tr)) ≤ 2
         ∧ length (Trader.held (exchange_heap w') tr) ≤ 2)
  ∧ (∃ tr e, trader_heap w' !! base = Some tr
           ∧ head exchanges = Some e
           ∧ Trader.exchanges tr = replicate b e
           ∧ remove_dups (Trader.exchanges tr) = [e])
  ∧ (∃ tr e, trader_heap w' !! (base + (count - 1)) = Some tr
           ∧ last exchanges = Some e
           ∧ Trader.exchanges tr = replicate b e
           ∧ remove_dups (Trader.exchanges tr) = [e]).
Proof.
  intros HN Hb. cbv zeta.
  pose proof (window_count p exchanges HN Hb) as Hcount.
  assert (BETS_PER_TRADER p ≤ length exchanges * BETS_PER_TRADER p) by nia.
  split; [|split].
  - intros i Hi. eexists. split.
    { apply generated_trader_lookup. rewrite Hcount. exact Hi. }
    simpl Trader.exchanges. unfold Trader.held. simpl Trader.exchanges.
    rewrite exchanges_perm_blocks.
    destruct (window_two_blocks (BETS_PER_TRADER p) exchanges i)
      as (x & y & m & _ & _ & _ & ->); [lia|lia|].
    assert (∀ e, e ∈ replicate (BETS_PER_TRADER p - m) x ++ replicate m y
                 → e = x ∨ e = y) as Hxy.
    { intros e [He|He]%elem_of_app; apply elem_of_replicate in He; tauto. }
    split; [by apply (two_values_distinct x y)|].
    set (f := λ e, Exchange.z <$> exchange_heap _ !! e).
    transitivity (length (omap f [x; y])).
    + apply submseteq_length, NoDup_submseteq; [apply NoDup_remove_dups|].
      intros zv Hzv. apply elem_of_remove_dups, list_elem_of_omap in Hzv.
      destruct Hzv as (e & He & Hfe). apply list_elem_of_omap. exists e.
      split; [|done]. apply Hxy in He. rewrite !elem_of_cons. tauto.
    + simpl. destruct (f x), (f y); simpl; lia.
  - destruct exchanges as [|e es]; [simpl in HN; lia|].
    eexists _, e. split.
    { rewrite <- (Nat.add_0_r (length (trader_heap w))).
      apply generated_trader_lookup. rewrite Hcount. lia. }
    split; [done|]. simpl Trader.exchanges.
    rewrite exchanges_perm_blocks, first_window.
    split; [done|]. by apply remove_dups_replicate.
  - destruct exchanges as [|e0 es0 _] using rev_ind; [simpl in HN; lia|].
    eexists _, e0. split.
    { apply generated_trader_lookup. rewrite Hcount. lia. }
    split; [apply last_snoc|]. simpl Trader.exchanges.
    rewrite exchanges_perm_blocks.
    replace (length (es0 ++ [e0]) * BETS_PER_TRADER p - BETS_PER_TRADER p
             + 1 - 1)
      with (length (es0 ++ [e0]) * BETS_PER_TRADER p - BETS_PER_TRADER p)
      by lia.
    rewrite last_window.
    split; [done|]. by apply remove_dups_replicate.
Qed.

Lemma traders_hold_at_most_two_venues_witness :
  1 ≤ length [0; 1] ∧ 1 ≤ BETS_PER_TRADER source_params
  ∧ ∃ tr e,
      trader_heap (generate_traders source_params two_venues [0; 1]).1 !! 2
        = Some tr
      ∧ last [0; 1] = Some e
      ∧ Trader.exchanges tr = replicate 2 e
      ∧ remove_dups (Trader.exchanges tr) = [e].
Proof.
  split; [simpl; lia|]. split; [simpl; lia|].
  apply (traders_hold_at_most_two_venues source_params two_venues [0; 1]);
    simpl; lia.
Defined.

(** ** Rank and premium *)

(** Linear arithmetic over the rationals and over the reals. *)
Ltac lraQ := Lqa.lra.
Ltac lraR := Lra.lra.

(** The rank of the k-th generated venue is k / (NUM_EXCHANGES − 1). *)
Lemma rank_generated p (k : nat) :
  2 ≤ NUM_EXCHANGES p →
  ∃ r, Exchange.rank p (Z.of_nat k + MAX_RISK p) = Some r
     ∧ (r == inject_Z (Z.of_nat k)
             / inject_Z (Z.of_nat (NUM_EXCHANGES p) - 1))%Q.
Proof.
  intros HN. unfold Exchange.rank. simpl.
  destruct (Z.eqb_spec (Z.of_nat (NUM_EXCHANGES p) - 1) 0) as [H0|_]; [lia|].
  eexists. split; [reflexivity|].
  rewrite inject_Z_plus.
  apply Qmult_comp; [ring|reflexivity].
Qed.

Lemma inject_Z_pos (d : Z) : (0 < d)%Z → (0 < inject_Z d)%Q.
Proof. intros Hd. unfold Qlt. simpl. lia. Qed.

Lemma inject_Z_nonneg (d : Z) : (0 ≤ d)%Z → (0 <= inject_Z d)%Q.
Proof. intros Hd. unfold Qle. simpl. lia. Qed.

Lemma ratio_bounds (k d : Z) :
  (0 < d)%Z → (0 ≤ k ≤ d)%Z →
  (0 <= inject_Z k / inject_Z d ∧ inject_Z k / inject_Z d <= 1)%Q.
Proof.
  intros Hd Hk.
  assert (0 < inject_Z d)%Q as Hd' by (by apply inject_Z_pos).
  split.
  - apply Qle_shift_div_l; [done|]. rewrite Qmult_0_l.
    apply inject_Z_nonneg. lia.
  - apply Qle_shift_div_r; [done|]. rewrite Qmult_1_l.
    rewrite <- (Zle_Qle k d). lia.
Qed.

Lemma ratio_strict (k1 k2 d : Z) :
  (0 < d)%Z → (k1 < k2)%Z →
  (inject_Z k1 / inject_Z d < inject_Z k2 / inject_Z d)%Q.
Proof.
  intros Hd Hk.
  assert (0 < inject_Z d)%Q as Hd' by (by apply inject_Z_pos).
  apply Qlt_shift_div_l; [done|].
  unfold Qdiv. rewrite <- Qmult_assoc, (Qmult_comm (/ _)), Qmult_inv_r.
  - rewrite Qmult_1_r, <- (Zlt_Qlt k1 k2). done.
  - intros H0. unfold Qeq in H0. simpl in H0. lia.
Qed.

(** C8 as the specification words it, refuted: the safest of the eight
    venues, with risk parameter 37, has rank 1, which is neither −1 nor
    inside [−1, 0]. *)
Lemma safest_venue_has_rank_one :
  (Z.of_nat <$> seq 0 (NUM_EXCHANGES source_params))
    = [0; 1; 2; 3; 4; 5; 6; 7]%Z
  ∧ Exchange.rank source_params (7 + MAX_RISK source_params) = Some (7 # 7)%Q
  ∧ (7 # 7 == 1)%Q
  ∧ ¬ (-1 <= 7 # 7 ∧ 7 # 7 <= 0)%Q
  ∧ ¬ (7 # 7 == -1)%Q.
Proof.
  split; [reflexivity|]. split; [reflexivity|]. split; [reflexivity|].
  split; [intros [_ H]; by apply H|]. discriminate.
Qed.

(** C8, amended: for the venues of [generate_exchanges], whose risk
    parameters are MAX_RISK + k for k = 0 .. NUM_EXCHANGES − 1, the rank
    k / (NUM_EXCHANGES − 1) lies in [0, 1]; the riskiest venue (k = 0) has
    rank 0 and the least risky (k = NUM_EXCHANGES − 1) has rank 1. *)
Theorem rank_between_zero_and_one p (k : nat) :
  2 ≤ NUM_EXCHANGES p → k < NUM_EXCHANGES p →
  ∃ r, Exchange.rank p (Z.of_nat k + MAX_RISK p) = Some r
     ∧ (0 <= r)%Q ∧ (r <= 1)%Q
     ∧ (k = 0 → (r == 0)%Q)
     ∧ (k = NUM_EXCHANGES p - 1 → (r == 1)%Q).
Proof.
  intros HN Hk.
  destruct (rank_generated p k HN) as (r & Hr & Heq).
  exists r. split; [done|]. rewrite Heq.
  destruct (ratio_bounds (Z.of_nat k) (Z.of_nat (NUM_EXCHANGES p) - 1))
    as [H0 H1]; [lia|lia|].
  split; [done|]. split; [done|]. split.
  - intros ->. reflexivity.
  - intros ->.
    replace (Z.of_nat (NUM_EXCHANGES p - 1))
      with (Z.of_nat (NUM_EXCHANGES p) - 1)%Z by lia.
    apply Qmult_inv_r. intros H. unfold Qeq in H. simpl in H. lia.
Qed.

Lemma rank_between_zero_and_one_witness :
  2 ≤ NUM_EXCHANGES source_params ∧ 7 < NUM_EXCHANGES source_params
  ∧ ∃ r, Exchange.rank source_params (Z.of_nat 7 + MAX_RISK source_params)
           = Some r
       ∧ (0 <= r)%Q ∧ (r <= 1)%Q
       ∧ (7 = 0 → (r == 0)%Q)
       ∧ (7 = NUM_EXCHANGES source_params - 1 → (r == 1)%Q).
Proof.
  split; [simpl; lia|]. split; [simpl; lia|].
  apply (rank_between_zero_and_one source_params 7); simpl; lia.
Defined.

(** On a base that is not negative, a positive power is defined and strictly
    increasing in the base. *)
Lemma float_pow_defined (x y : Q) :
  (0 <= x)%Q → (0 < y)%Q → is_Some (float_pow x y).
Proof.
  intros Hx Hy. unfold float_pow.
  destruct (Qlt_le_dec 0 x); [by eexists|].
  destruct (Qeq_dec x 0) as [_|Hne]; [|destruct Hne; lraQ].
  destruct (Qlt_le_dec 0 y); [by eexists|lraQ].
Qed.

Lemma float_pow_strict (x1 x2 y : Q) (s1 s2 : R) :
  (0 <= x1)%Q → (x1 < x2)%Q → (0 < y)%Q →
  float_pow x1 y = Some s1 → float_pow x2 y = Some s2 → (s1 < s2)%R.
Proof.
  intros H1 H12 Hy. unfold float_pow.
  destruct (Qlt_le_dec 0 x2) as [Hx2|]; [|lraQ].
  intros Hs1 [= <-].
  apply Qlt_Rlt in Hx2, H12, Hy. rewrite RMicromega.Q2R_0 in Hx2, Hy.
  destruct (Qlt_le_dec 0 x1) as [Hx1|Hx1].
  - injection Hs1 as <-.
    apply Qlt_Rlt in Hx1. rewrite RMicromega.Q2R_0 in Hx1.
    apply Rlt_Rpower_l; [done|]. split; done.
  - destruct (Qeq_dec x1 0) as [_|Hne]; [|destruct Hne; lraQ].
    destruct (Qlt_le_dec 0 y) as [_|Hy']; [|apply Qle_Rle in Hy'; lraR].
    injection Hs1 as <-. unfold Rpower. apply exp_pos.
Qed.

(** The exchange [generate_exchanges] constructs for index [k]. *)
Lemma init_generated p (k : nat) :
  2 ≤ NUM_EXCHANGES p → k < NUM_EXCHANGES p → (0 < PREMIUM_DECAY p)%Q →
  ∃ r s,
    (r == inject_Z (Z.of_nat k) / inject_Z (Z.of_nat (NUM_EXCHANGES p) - 1))%Q
    ∧ float_pow (1 - r) (PREMIUM_DECAY p) = Some s
    ∧ Exchange.init p (Z.of_nat k + MAX_RISK p)
      = Some (Exchange.mk (Z.of_nat k + MAX_RISK p) [] false
                          (s * Q2R (MAX_PREMIUM p))).
Proof.
  intros HN Hk Hd.
  destruct (rank_generated p k HN) as (r & Hr & Heq).
  destruct (ratio_bounds (Z.of_nat k) (Z.of_nat (NUM_EXCHANGES p) - 1))
    as [H0 H1]; [lia|lia|].
  destruct (float_pow_defined (1 - r) (PREMIUM_DECAY p)) as [s Hs];
    [lraQ|done|].
  exists r, s. split; [done|]. split; [done|].
  unfold Exchange.init, Exchange.scale. rewrite Hr. simpl. by rewrite Hs.
Qed.

(** [generate_exchanges] succeeds for at least two exchanges and a positive
    decay, and appends the constructed exchanges to the store. *)
Lemma generate_exchanges_spec p w :
  2 ≤ NUM_EXCHANGES p → (0 < PREMIUM_DECAY p)%Q →
  ∃ exs,
    generate_exchanges p w
    = Some ({| exchange_heap := exchange_heap w ++ exs;
               trader_heap := trader_heap w |},
            seq (length (exchange_heap w)) (NUM_EXCHANGES p))
    ∧ length exs = NUM_EXCHANGES p
    ∧ ∀ k, k < NUM_EXCHANGES p →
        ∃ ex, exs !! k = Some ex
            ∧ Exchange.init p (Z.of_nat k + MAX_RISK p) = Some ex.
Proof.
  intros HN Hd. unfold generate_exchanges.
  destruct (mapM_is_Some_2
              (λ k, Exchange.init p (Z.of_nat k + MAX_RISK p))
              (seq 0 (NUM_EXCHANGES p))) as [exs Hexs].
  { apply Forall_seq. intros k Hk. simpl.
    destruct (init_generated p k) as (r & s & _ & _ & ->); [done|lia|done|].
    by eexists. }
  rewrite Hexs. simpl.
  pose proof (length_mapM _ _ _ Hexs) as Hlen. rewrite length_seq in Hlen.
  exists exs. rewrite <- Hlen. split; [done|]. split; [done|].
  intros k Hk. apply mapM_Some_1 in Hexs.
  destruct (Forall2_lookup_l _ _ _ k k Hexs) as (ex & Hex & Hinit).
  { by apply lookup_seq_lt. }
  by exists ex.
Qed.

Lemma generated_exchange_shape p w w' es r e :
  2 ≤ NUM_EXCHANGES p → (0 < PREMIUM_DECAY p)%Q →
  generate_exchanges p w = Some (w', es) →
  r ∈ es → exchange_heap w' !! r = Some e →
  ∃ (k : nat) q s,
    k < NUM_EXCHANGES p ∧ r = length (exchange_heap w) + k
    ∧ (q == inject_Z (Z.of_nat k) / inject_Z (Z.of_nat (NUM_EXCHANGES p) - 1))%Q
    ∧ float_pow (1 - q) (PREMIUM_DECAY p) = Some s
    ∧ e = Exchange.mk (Z.of_nat k + MAX_RISK p) [] false
                      (s * Q2R (MAX_PREMIUM p)).
Proof.
  intros HN Hd Hgen Hr He.
  destruct (generate_exchanges_spec p w HN Hd) as (exs & Hgen' & Hlen & Hexs).
  rewrite Hgen in Hgen'. injection Hgen' as -> ->.
  apply elem_of_seq in Hr. simpl in He.
  set (k := r - length (exchange_heap w)).
  assert (k < NUM_EXCHANGES p) as Hk by lia.
  destruct (Hexs k Hk) as (ex & Hex & Hinit).
  rewrite lookup_app_r in He by lia. fold k in He.
  rewrite Hex in He. injection He as ->.
  destruct (init_generated p k HN Hk Hd) as (q & s & Hq & Hs & Hinit').
  rewrite Hinit in Hinit'. injection Hinit' as ->.
  exists k, q, s. repeat split; try done. lia.
Qed.

(** C7: among the exchanges of [generate_exchanges], for a fixed positive
    decay exponent and premium cap, the premium is strictly decreasing in the
    risk parameter: of two generated exchanges the one with the higher risk
    parameter has the strictly lower premium, and the riskiest one (risk
    parameter MAX_RISK, the lowest) has the highest premium. *)
Theorem premium_strictly_decreasing p w :
  2 ≤ NUM_EXCHANGES p → (0 < PREMIUM_DECAY p)%Q → (0 < MAX_PREMIUM p)%Q →
  ∃ w' es,
    generate_exchanges p w = Some (w', es)
    ∧ length es = NUM_EXCHANGES p
    ∧ (∀ r1 r2 e1 e2,
         r1 ∈ es → r2 ∈ es →
         exchange_heap w' !! r1 = Some e1 →
         exchange_heap w' !! r2 = Some e2 →
         (Exchange.z e1 < Exchange.z e2)%Z →
         (Exchange.premium e2 < Exchange.premium e1)%R)
    ∧ (∃ r0 e0,
         head es = Some r0 ∧ exchange_heap w' !! r0 = Some e0
         ∧ Exchange.z e0 = MAX_RISK p
         ∧ ∀ r e, r ∈ es → exchange_heap w' !! r = Some e →
             (Exchange.z e0 ≤ Exchange.z e)%Z
             ∧ (Exchange.premium e <= Exchange.premium e0)%R).
Proof.
  intros HN Hd Hm.
  destruct (generate_exchanges_spec p w HN Hd) as (exs & Hgen & Hlen & Hexs).
  eexists _, _. split; [exact Hgen|].
  split; [by rewrite length_seq|].
  assert (∀ r1 r2 e1 e2,
            r1 ∈ seq (length (exchange_heap w)) (NUM_EXCHANGES p) →
            r2 ∈ seq (length (exchange_heap w)) (NUM_EXCHANGES p) →
            (exchange_heap w ++ exs) !! r1 = Some e1 →
            (exchange_heap w ++ exs) !! r2 = Some e2 →
            (Exchange.z e1 < Exchange.z e2)%Z →
            (Exchange.premium e2 < Exchange.premium e1)%R) as Hstrict.
  { intros r1 r2 e1 e2 Hr1 Hr2 He1 He2 Hz.
    destruct (generated_exchange_shape p w _ _ r1 e1 HN Hd Hgen Hr1 He1)
      as (k1 & q1 & s1 & Hk1 & _ & Hq1 & Hs1 & ->).
    destruct (generated_exchange_shape p w _ _ r2 e2 HN Hd Hgen Hr2 He2)
      as (k2 & q2 & s2 & Hk2 & _ & Hq2 & Hs2 & ->).
    simpl in *.
    assert (q1 < q2)%Q as Hq.
    { rewrite Hq1, Hq2. apply ratio_strict; lia. }
    destruct (ratio_bounds (Z.of_nat k2) (Z.of_nat (NUM_EXCHANGES p) - 1))
      as [_ Hle]; [lia|lia|]. rewrite <- Hq2 in Hle.
    assert (s2 < s1)%R as Hs.
    { apply (float_pow_strict (1 - q2) (1 - q1) (PREMIUM_DECAY p));
        [lraQ|lraQ|done..]. }
    apply Rmult_lt_compat_r; [|done].
    apply Qlt_Rlt in Hm. by rewrite RMicromega.Q2R_0 in Hm. }
  split; [exact Hstrict|].
  destruct (Hexs 0) as (e0 & He0 & Hinit0); [lia|].
  assert ((exchange_heap w ++ exs) !! length (exchange_heap w) = Some e0)
    as Hl0.
  { rewrite lookup_app_r by lia. by rewrite Nat.sub_diag. }
  assert (length (exchange_heap w)
          ∈ seq (length (exchange_heap w)) (NUM_EXCHANGES p)) as Hin0
    by (apply elem_of_seq; lia).
  exists (length (exchange_heap w)), e0.
  split; [destruct (NUM_EXCHANGES p); [lia|done]|].
  split; [exact Hl0|].
  destruct (generated_exchange_shape p w _ _ _ e0 HN Hd Hgen Hin0 Hl0)
    as (k0 & q0 & s0 & Hk0 & Hr0 & _ & _ & Heq0).
  assert (k0 = 0) as -> by lia.
  split; [by rewrite Heq0|].
  intros r e Hr He.
  destruct (generated_exchange_shape p w _ _ r e HN Hd Hgen Hr He)
    as (k & q & s & Hk & Hrk & _ & _ & Heq).
  split; [rewrite Heq0, Heq; simpl; lia|].
  destruct (decide (k = 0)) as [->|Hne].
  - assert (r = length (exchange_heap w)) as -> by lia.
    simpl in He. rewrite Hl0 in He. injection He as ->. apply Rle_refl.
  - apply Rlt_le. apply (Hstrict _ r e0 e Hin0 Hr Hl0 He).
    rewrite Heq0, Heq. simpl. lia.
Qed.

Lemma premium_strictly_decreasing_witness :
  2 ≤ NUM_EXCHANGES source_params
  ∧ (0 < PREMIUM_DECAY source_params)%Q
  ∧ (0 < MAX_PREMIUM source_params)%Q
  ∧ ∃ w' es,
      generate_exchanges source_params empty_world = Some (w', es)
      ∧ length es = NUM_EXCHANGES source_params
      ∧ (∀ r1 r2 e1 e2,
           r1 ∈ es → r2 ∈ es →
           exchange_heap w' !! r1 = Some e1 →
           exchange_heap w' !! r2 = Some e2 →
           (Exchange.z e1 < Exchange.z e2)%Z →
           (Exchange.premium e2 < Exchange.premium e1)%R)
      ∧ (∃ r0 e0,
           head es = Some r0 ∧ exchange_heap w' !! r0 = Some e0
           ∧ Exchange.z e0 = MAX_RISK source_params
           ∧ ∀ r e, r ∈ es → exchange_heap w' !! r = Some e →
               (Exchange.z e0 ≤ Exchange.z e)%Z
               ∧ (Exchange.premium e <= Exchange.premium e0)%R).
Proof.
  assert (2 ≤ NUM_EXCHANGES source_params) as H1 by (simpl; lia).
  assert (0 < PREMIUM_DECAY source_params)%Q as H2 by reflexivity.
  assert (0 < MAX_PREMIUM source_params)%Q as H3 by reflexivity.
  split; [exact H1|]. split; [exact H2|]. split; [exact H3|].
  exact (premium_strictly_decreasing source_params empty_world H1 H2 H3).
Defined.

(** ** The simulation loop *)

Lemma same_but_deader_refl a : same_but_deader a a.
Proof. by repeat split. Qed.

Lemma same_but_deader_trans a b c :
  same_but_deader a b → same_but_deader b c → same_but_deader a c.
Proof.
  intros (Hz & Ht & Hp & Hd) (Hz' & Ht' & Hp' & Hd').
  repeat split; [congruence..|auto].
Qed.

Lemma evolves_refl w : evolves w w.
Proof.
  split; [|done]. apply Forall2_same_length_lookup_2; [done|].
  intros i x y Hx Hy. rewrite Hx in Hy. injection Hy as <-.
  apply same_but_deader_refl.
Qed.

Lemma evolves_trans w1 w2 w3 : evolves w1 w2 → evolves w2 w3 → evolves w1 w3.
Proof.
  intros [H12 L12] [H23 L23]. split; [|congruence].
  eapply Forall2_trans; [|exact H12|exact H23].
  intros a b c. apply same_but_deader_trans.
Qed.

Lemma evolves_lookup w w' e ex :
  evolves w w' → exchange_heap w !! e = Some ex →
  ∃ ex', exchange_heap w' !! e = Some ex' ∧ same_but_deader ex ex'.
Proof. intros [H _] Hex. by eapply Forall2_lookup_l. Qed.

Lemma same_but_deader_z (h h' : list Exchange.t) :
  Forall2 same_but_deader h h' → Exchange.z <$> h' = Exchange.z <$> h.
Proof.
  intros H. induction H as [|a b l k (Hz & _) _ IH]; [done|].
  rewrite !fmap_cons. by f_equal.
Qed.

Lemma evolves_z w w' :
  evolves w w' →
  Exchange.z <$> exchange_heap w' = Exchange.z <$> exchange_heap w.
Proof. intros [H _]. by apply same_but_deader_z. Qed.

(** Notifying traders leaves the exchanges alone. *)
Lemma notify_all_exchanges zv payoff tk (l : list nat) w :
  exchange_heap (foldl (notify zv payoff tk) w l) = exchange_heap w.
Proof.
  revert w. induction l as [|t l IH]; intros w; simpl; [done|].
  by rewrite IH.
Qed.

(** The traders after the notification loop of one [tick]. *)
Lemma notify_all_traders zv payoff tk (l : list nat) w :
  trader_heap (foldl (notify zv payoff tk) w l)
  = foldl (λ ts t,
             alter (Trader.receive_payoff (exchange_heap w) zv payoff tk) t ts)
          (trader_heap w) l.
Proof.
  revert w. induction l as [|t l IH]; intros w; simpl; [done|].
  by rewrite IH.
Qed.

Lemma alter_all_length {X} (f : X → X) (l : list nat) (ts : list X) :
  length (foldl (λ ts t, alter f t ts) ts l) = length ts.
Proof.
  revert ts. induction l as [|t l IH]; intros ts; simpl; [done|].
  by rewrite IH, length_alter.
Qed.

(** The three ways [tick] settles its payoff. *)
Lemma draw_payoff_cases p ex g payoff dead g' :
  Exchange.draw_payoff p ex g = Some (payoff, dead, g') →
  (Exchange.is_dead ex = true ∧ payoff = 0%Q ∧ dead = true ∧ g' = g)
  ∨ (Exchange.is_dead ex = false ∧ payoff = NEGATIVE_INFINITY p
     ∧ dead = true)
  ∨ (Exchange.is_dead ex = false ∧ dead = false).
Proof.
  unfold Exchange.draw_payoff. destruct (Exchange.is_dead ex).
  - intros [= <- <- <-]. by left.
  - destruct (randint _ _ g) as [[r g1]|]; simpl; [|done].
    destruct (r =? 0)%Z.
    + intros [= <- <- <-]. right. by left.
    + destruct (normal _ _ g1) as [[x g2]|]; simpl; [|done].
      intros [= <- <- <-]. right. by right.
Qed.

(** [tick] unfolded: the exchange is updated, then the traders are told. *)
Lemma Exchange_tick_spec p w e tk g w' g' :
  Exchange_tick p w e tk g = Some (w', g') →
  (exchange_heap w !! e = None ∧ w' = w ∧ g' = g)
  ∨ ∃ ex payoff dead,
      exchange_heap w !! e = Some ex
      ∧ Exchange.draw_payoff p ex g = Some (payoff, dead, g')
      ∧ w' = foldl (notify (Exchange.z ex) payoff tk)
                   {| exchange_heap :=
                        <[e := Exchange.set_dead dead ex]> (exchange_heap w);
                      trader_heap := trader_heap w |}
                   (Exchange.traders ex).
Proof.
  unfold Exchange_tick. destruct (exchange_heap w !! e) as [ex|] eqn:Hex.
  - destruct (Exchange.draw_payoff p ex g) as [[[payoff dead] g1]|] eqn:Hd;
      simpl; [|done].
    intros [= <- <-]. right. by exists ex, payoff, dead.
  - intros [= <- <-]. by left.
Qed.

Lemma Exchange_tick_evolves p w e tk g w' g' :
  Exchange_tick p w e tk g = Some (w', g') → evolves w w'.
Proof.
  intros [(_ & -> & _)|(ex & payoff & dead & Hex & Hd & ->)]%Exchange_tick_spec;
    [apply evolves_refl|].
  split.
  - rewrite notify_all_exchanges. simpl.
    apply Forall2_same_length_lookup_2; [by rewrite length_insert|].
    intros i x y Hx Hy.
    destruct (decide (i = e)) as [->|Hne].
    + rewrite list_lookup_insert_eq in Hy by (by eapply lookup_lt_Some).
      rewrite Hex in Hx. injection Hx as <-. injection Hy as <-.
      repeat split. simpl. intros Hdead.
      apply draw_payoff_cases in Hd as [(_ & _ & -> & _)|[(H & _)|(H & _)]];
        [done|congruence..].
    + rewrite list_lookup_insert_ne in Hy by done.
      rewrite Hx in Hy. injection Hy as <-. apply same_but_deader_refl.
  - rewrite notify_all_traders. simpl. apply alter_all_length.
Qed.

(** A loop keeps every relation that its body keeps. *)
Lemma for_each_relates {X S} (R : S → S → Prop) (body : S → X → option S) :
  (∀ s, R s s) → (∀ s1 s2 s3, R s1 s2 → R s2 s3 → R s1 s3) →
  (∀ s x s', body s x = Some s' → R s s') →
  ∀ l s s', for_each body s l = Some s' → R s s'.
Proof.
  intros Hrefl Htrans Hbody l.
  induction l as [|x l IH]; intros s s'; simpl.
  - intros [= <-]. apply Hrefl.
  - destruct (body s x) as [s1|] eqn:Hs1; simpl; [|done].
    intros Hrest. eapply Htrans; [by eapply Hbody|by apply IH].
Qed.

(** A loop keeps every invariant that its body keeps. *)
Lemma for_each_keeps {X S} (I : S → Prop) (body : S → X → option S) :
  (∀ s x s', I s → body s x = Some s' → I s') →
  ∀ l s s', for_each body s l = Some s' → I s → I s'.
Proof.
  intros Hbody l. induction l as [|x l IH]; intros s s'; simpl.
  - by intros [= <-].
  - destruct (body s x) as [s1|] eqn:Hs1; simpl; [|done].
    intros Hrest Hs. eapply IH; [exact Hrest|]. by eapply Hbody.
Qed.

Lemma run_simulation_evolves p w exchanges steps g w' g' :
  run_simulation p w exchanges steps g = Some (w', g') → evolves w w'.
Proof.
  unfold run_simulation. intros Hrun.
  apply (for_each_relates (λ s s', evolves s.1 s'.1)) in Hrun; [done|..].
  - intros s. apply evolves_refl.
  - intros s1 s2 s3. apply evolves_trans.
  - intros s i s' Hstep.
    apply (for_each_relates (λ s s', evolves s.1 s'.1)) in Hstep; [done|..].
    + intros ?. apply evolves_refl.
    + intros ???. apply evolves_trans.
    + intros [w1 g1] e [w2 g2]. apply Exchange_tick_evolves.
Qed.

(** ** Claims about [tick] *)

Lemma set_dead_same ex :
  Exchange.set_dead (Exchange.is_dead ex) ex = ex.
Proof. by destruct ex. Qed.

(** A dead exchange draws nothing and tells its traders a payoff of 0. *)
Lemma dead_tick p w e ex tk g :
  exchange_heap w !! e = Some ex → Exchange.is_dead ex = true →
  Exchange_tick p w e tk g
  = Some (foldl (notify (Exchange.z ex) 0 tk) w (Exchange.traders ex), g).
Proof.
  intros Hex Hdead. unfold Exchange_tick, Exchange.draw_payoff.
  rewrite Hex, Hdead. simpl. rewrite <- Hdead, set_dead_same.
  rewrite list_insert_id by done. by destruct w.
Qed.

(** C9: an exchange with risk parameter 1 that is not dead takes the ruin
    branch at its first [tick], whatever the random source holds: the draw
    is from [[0, 1)], so it is 0, the payoff is NEGATIVE_INFINITY and
    [is_dead] becomes true. *)
Theorem risk_one_fails_at_once p w e ex tk g :
  exchange_heap w !! e = Some ex →
  Exchange.z ex = 1%Z → Exchange.is_dead ex = false →
  ∃ g1,
    randint 0 (Exchange.z ex ^ Z.of_nat (RUIN_DECAY p)) g = Some (0%Z, g1)
    ∧ Exchange.draw_payoff p ex g = Some (NEGATIVE_INFINITY p, true, g1)
    ∧ normal_read g1 = normal_read g
    ∧ ∃ w' ex',
        Exchange_tick p w e tk g = Some (w', g1)
        ∧ exchange_heap w' !! e = Some ex'
        ∧ Exchange.is_dead ex' = true.
Proof.
  intros Hex Hz Halive.
  assert (randint 0 (Exchange.z ex ^ Z.of_nat (RUIN_DECAY p)) g
          = Some (0%Z, mkRandom (uniform_tape g) (normal_tape g)
                                (S (uniform_read g)) (normal_read g)))
    as Hdraw.
  { rewrite Hz, Z.pow_1_l by lia. unfold randint.
    change (0 + uniform_tape g (uniform_read g) `mod` (1 - 0))%Z
      with (uniform_tape g (uniform_read g) `mod` 1)%Z.
    by rewrite Z.mod_1_r. }
  eexists. split; [exact Hdraw|].
  assert (Exchange.draw_payoff p ex g
          = Some (NEGATIVE_INFINITY p, true,
                  mkRandom (uniform_tape g) (normal_tape g)
                           (S (uniform_read g)) (normal_read g))) as Hpay.
  { unfold Exchange.draw_payoff. rewrite Halive, Hdraw. done. }
  split; [exact Hpay|]. split; [done|].
  eexists _, (Exchange.set_dead true ex).
  split; [unfold Exchange_tick; rewrite Hex, Hpay; reflexivity|].
  split; [|done].
  rewrite notify_all_exchanges. simpl.
  apply list_lookup_insert_eq. by eapply lookup_lt_Some.
Qed.

Lemma risk_one_fails_at_once_witness :
  ∃ ex, exchange_heap risk_one_world !! 0 = Some ex
      ∧ Exchange.z ex = 1%Z ∧ Exchange.is_dead ex = false
      ∧ ∃ g1,
          Exchange.draw_payoff source_params ex windfall_then_ruin
          = Some (NEGATIVE_INFINITY source_params, true, g1).
Proof.
  destruct (exchange_heap risk_one_world !! 0) as [ex|] eqn:Hex;
    [|vm_compute in Hex; discriminate].
  assert (Exchange.z ex = 1%Z ∧ Exchange.is_dead ex = false) as [Hz Ha].
  { assert ((λ x, (Exchange.z x, Exchange.is_dead x))
              <$> exchange_heap risk_one_world !! 0 = Some (1%Z, false)) as H
      by (vm_compute; reflexivity).
    rewrite Hex in H. by injection H. }
  exists ex. split; [reflexivity|]. split; [exact Hz|]. split; [exact Ha|].
  destruct (risk_one_fails_at_once source_params risk_one_world 0 ex 0
              windfall_then_ruin Hex Hz Ha) as (g1 & _ & Hpay & _).
  by exists g1.
Defined.

(** ** Recording balances *)

Lemma dd_get_insert {V} (dflt v : V) (d : gmap Z V) (k : Z) :
  dd_get dflt (<[k := v]> d) k = v.
Proof. unfold dd_get. by rewrite lookup_insert_eq. Qed.

Lemma dd_get_insert_ne {V} (dflt v : V) (d : gmap Z V) (k k' : Z) :
  k ≠ k' → dd_get dflt (<[k := v]> d) k' = dd_get dflt d k'.
Proof. intros Hne. unfold dd_get. by rewrite lookup_insert_ne. Qed.

Lemma dd_get_touch {V} (dflt : V) (d : gmap Z V) (k k' : Z) :
  dd_get dflt (dd_touch dflt d k) k' = dd_get dflt d k'.
Proof.
  unfold dd_get, dd_touch. destruct (d !! k) eqn:Hk; [done|].
  destruct (decide (k = k')) as [<-|Hne].
  - by rewrite lookup_insert_eq, Hk.
  - by rewrite lookup_insert_ne.
Qed.

(** One pass of the loop of [record_balances]: the balance is clamped and
    the clamped value appended. *)
Lemma record_one_balance tr zv zv' :
  dd_get 0%Q (Trader.account_balance (Trader.record_one tr zv)) zv'
  = if decide (zv = zv')
    then clamp (dd_get 0%Q (Trader.account_balance tr) zv)
    else dd_get 0%Q (Trader.account_balance tr) zv'.
Proof.
  unfold Trader.record_one, clamp. simpl.
  destruct (Qlt_le_dec _ 0) as [Hneg|Hpos].
  - destruct (decide (zv = zv')) as [<-|Hne].
    + by rewrite dd_get_insert.
    + by rewrite dd_get_insert_ne.
  - rewrite dd_get_touch. by destruct (decide (zv = zv')) as [<-|Hne].
Qed.

Lemma record_one_series tr zv :
  Trader.account_series (Trader.record_one tr zv)
  = <[zv := dd_get [] (Trader.account_series tr) zv
            ++ [clamp (dd_get 0%Q (Trader.account_balance tr) zv)]]>
      (Trader.account_series tr).
Proof.
  pose proof (record_one_balance tr zv zv) as H.
  rewrite decide_True in H by done.
  unfold Trader.record_one in *. simpl in *. by rewrite H.
Qed.

Lemma clamp_nonneg b : (0 <= clamp b)%Q.
Proof. unfold clamp. destruct (Qlt_le_dec b 0); [apply Qle_refl|done]. Qed.

Lemma record_one_nonneg tr zv :
  series_nonneg tr → series_nonneg (Trader.record_one tr zv).
Proof.
  intros Htr zv' l. rewrite record_one_series.
  destruct (decide (zv = zv')) as [<-|Hne].
  - rewrite lookup_insert_eq. intros [= <-].
    apply Forall_app. split; [|repeat constructor; apply clamp_nonneg].
    unfold dd_get. destruct (Trader.account_series tr !! zv) eqn:Hl; simpl.
    + by eapply Htr.
    + constructor.
  - rewrite lookup_insert_ne by done. apply Htr.
Qed.

Lemma record_balances_nonneg heap tr :
  series_nonneg tr → series_nonneg (Trader.record_balances heap tr).
Proof.
  unfold Trader.record_balances. generalize (Trader.held heap tr).
  intros zs. revert tr. induction zs as [|zv zs IH]; intros tr Htr; [done|].
  simpl. by apply IH, record_one_nonneg.
Qed.

Lemma receive_payoff_nonneg heap zv payoff tk tr :
  series_nonneg tr →
  series_nonneg (Trader.receive_payoff heap zv payoff tk tr).
Proof.
  intros Htr. unfold Trader.receive_payoff.
  destruct (Trader.tick tr <? tk)%Z; simpl; [|done].
  by apply record_balances_nonneg.
Qed.

(** The balances a new trader starts from are sums of bets. *)
Lemma BET_SIZE_nonneg p : (0 <= BET_SIZE p)%Q.
Proof.
  unfold BET_SIZE, Qdiv. rewrite Qmult_1_l.
  destruct (BETS_PER_TRADER p) as [|n]; [done|].
  apply Qlt_le_weak, Qinv_lt_0_compat, inject_Z_pos. lia.
Qed.

Lemma initial_balance_nonneg p heap exchanges zv b :
  initial_balance p heap exchanges !! zv = Some b → (0 <= b)%Q.
Proof.
  unfold initial_balance.
  enough (∀ m : gmap Z Q,
            map_Forall (λ _ x, 0 <= x)%Q m →
            map_Forall (λ _ x, 0 <= x)%Q
              (foldl (λ (m : gmap Z Q) e,
                        match heap !! e with
                        | Some ex =>
                            <[Exchange.z ex :=
                                (dd_get 0 m (Exchange.z ex) + BET_SIZE p)%Q]> m
                        | None => m
                        end) m exchanges)) as H.
  { intros Hb. eapply (H ∅); [apply map_Forall_empty|exact Hb]. }
  induction exchanges as [|e es IH]; intros m Hm; simpl; [done|].
  apply IH. destruct (heap !! e) as [ex|]; [|done].
  apply map_Forall_insert_2; [|done].
  pose proof (BET_SIZE_nonneg p) as Hbet.
  unfold dd_get. destruct (m !! Exchange.z ex) as [x|] eqn:Hx; simpl.
  - apply Hm in Hx. simpl in Hx. lraQ.
  - lraQ.
Qed.

Lemma new_trader_nonneg p heap tid exchanges :
  series_nonneg (new_trader p heap tid exchanges).
Proof.
  intros zv l. simpl. rewrite lookup_fmap.
  destruct (initial_balance p heap exchanges !! zv) as [b|] eqn:Hb;
    simpl; [|done].
  intros [= <-]. repeat constructor. by eapply initial_balance_nonneg.
Qed.

(** A property of traders that [receive_payoff] keeps, for exchanges with
    the risk parameters [zs], is kept by [tick] and by the simulation. *)
Section TraderInvariant.
Variable P : Trader.t → Prop.
Variable zs : list Z.
Hypothesis receive_keeps :
  ∀ heap zv payoff tk tr,
    Exchange.z <$> heap = zs → P tr →
    P (Trader.receive_payoff heap zv payoff tk tr).

Lemma notify_all_keeps zv payoff tk l w :
  all_traders P zs w → all_traders P zs (foldl (notify zv payoff tk) w l).
Proof.
  revert w. induction l as [|t l IH]; intros w [Hz HP]; [done|].
  simpl. apply IH. split; [done|]. simpl.
  apply Forall_alter; [done|]. intros tr _. by apply receive_keeps.
Qed.

Lemma Exchange_tick_keeps p w e tk g w' g' :
  all_traders P zs w → Exchange_tick p w e tk g = Some (w', g') →
  all_traders P zs w'.
Proof.
  intros [Hz HP] Htick.
  pose proof (Exchange_tick_evolves _ _ _ _ _ _ _ Htick) as Hev.
  apply Exchange_tick_spec in Htick
    as [(_ & -> & _)|(ex & payoff & dead & Hex & Hd & ->)]; [done|].
  apply notify_all_keeps. split; [|done].
  apply evolves_z in Hev. rewrite notify_all_exchanges in Hev.
  by rewrite Hev.
Qed.

Lemma run_simulation_keeps p w exchanges steps g w' g' :
  all_traders P zs w →
  run_simulation p w exchanges steps g = Some (w', g') →
  all_traders P zs w'.
Proof.
  intros Hw Hrun. unfold run_simulation in Hrun.
  apply (for_each_keeps (λ s, all_traders P zs s.1)) in Hrun; [done| |done].
  intros s i s' Hs Hstep.
  apply (for_each_keeps (λ s, all_traders P zs s.1)) in Hstep; [done| |done].
  intros [w1 g1] e [w2 g2] Hw1 Htick. by eapply Exchange_tick_keeps.
Qed.

End TraderInvariant.

Lemma generated_traders_nonneg p w exchanges :
  Forall series_nonneg (trader_heap w) →
  Forall series_nonneg (trader_heap (generate_traders p w exchanges).1).
Proof.
  intros Hw.
  destruct (generate_traders_spec p w exchanges) as (w1 & Hg & Htr & _).
  rewrite Hg. simpl. rewrite Htr. apply Forall_app. split; [done|].
  apply Forall_forall. intros tr (i & s & -> & _)%elem_of_lookup_imap_1.
  apply new_trader_nonneg.
Qed.

(** C2: every entry of every balance series is at least 0.  The entry a
    trader is created with is a sum of bets, every later entry is the
    balance clamped to 0 from below, and so the traders that
    [generate_traders] builds keep non-negative series through every [tick]
    and every run of the simulation. *)
Theorem balance_history_never_negative
    p w allocated exchanges steps g w' g' :
  Forall series_nonneg (trader_heap w) →
  run_simulation p (generate_traders p w allocated).1 exchanges steps g
  = Some (w', g') →
  Forall series_nonneg (trader_heap (generate_traders p w allocated).1)
  ∧ Forall series_nonneg (trader_heap w')
  ∧ (∀ e tk g1 w1 g2,
       Exchange_tick p w' e tk g1 = Some (w1, g2) →
       Forall series_nonneg (trader_heap w1))
  ∧ (∀ tr zv,
       Trader.account_series (Trader.record_one tr zv) !! zv
       = Some (dd_get [] (Trader.account_series tr) zv
               ++ [clamp (dd_get 0%Q (Trader.account_balance tr) zv)])
       ∧ (0 <= clamp (dd_get 0%Q (Trader.account_balance tr) zv))%Q).
Proof.
  intros Hw Hrun.
  pose proof (generated_traders_nonneg p w allocated Hw) as Hgen.
  assert (all_traders series_nonneg
            (Exchange.z <$> exchange_heap (generate_traders p w allocated).1)
            w') as [Hz Hw'].
  { eapply run_simulation_keeps; [|split; [reflexivity|exact Hgen]|exact Hrun].
    intros. by apply receive_payoff_nonneg. }
  split; [done|]. split; [done|]. split.
  - intros e tk g1 w1 g2 Htick.
    eapply (Exchange_tick_keeps series_nonneg);
      [|split; [exact Hz|exact Hw']|exact Htick].
    intros. by apply receive_payoff_nonneg.
  - intros tr zv. split; [|apply clamp_nonneg].
    by rewrite record_one_series, lookup_insert_eq.
Qed.

Lemma balance_history_never_negative_witness :
  Forall series_nonneg (trader_heap source_exchanges)
  ∧ Forall series_nonneg (trader_heap (after_steps 3).1).
Proof.
  assert (Forall series_nonneg (trader_heap source_exchanges)) as H0
    by (vm_compute; constructor).
  split; [exact H0|].
  unfold after_steps, source_world.
  destruct (run_simulation source_params
              (generate_traders source_params source_exchanges (seq 0 8)).1
              (seq 0 8) 3 windfall_then_ruin) as [[w' g']|] eqn:Hrun;
    [|vm_compute in Hrun; discriminate].
  apply (balance_history_never_negative source_params source_exchanges
           (seq 0 8) (seq 0 8) 3 windfall_then_ruin w' g' H0 Hrun).
Defined.

(** ** The effect of [record_balances] and of the notifications *)

Lemma record_fold_fields (zs : list Z) tr :
  Trader.exchanges (foldl Trader.record_one tr zs) = Trader.exchanges tr
  ∧ Trader.tick (foldl Trader.record_one tr zs) = Trader.tick tr
  ∧ Trader.trader_id (foldl Trader.record_one tr zs) = Trader.trader_id tr.
Proof.
  revert tr. induction zs as [|zv zs IH]; intros tr; [done|].
  simpl. destruct (IH (Trader.record_one tr zv)) as (-> & -> & ->). done.
Qed.

(** Over distinct risk parameters the loop clamps and appends once for each
    of them and leaves the others alone. *)
Lemma record_fold_effect (zs : list Z) tr zv :
  NoDup zs →
  dd_get 0%Q (Trader.account_balance (foldl Trader.record_one tr zs)) zv
  = (if decide (zv ∈ zs)
     then clamp (dd_get 0%Q (Trader.account_balance tr) zv)
     else dd_get 0%Q (Trader.account_balance tr) zv)
  ∧ Trader.account_series (foldl Trader.record_one tr zs) !! zv
    = (if decide (zv ∈ zs)
       then Some (dd_get [] (Trader.account_series tr) zv
                  ++ [clamp (dd_get 0%Q (Trader.account_balance tr) zv)])
       else Trader.account_series tr !! zv).
Proof.
  intros Hnd. revert tr.
  induction Hnd as [|z0 zs Hz0 Hnd IH]; intros tr; [done|].
  simpl foldl. destruct (IH (Trader.record_one tr z0)) as [Hb Hs].
  rewrite Hb, Hs. clear Hb Hs IH.
  destruct (decide (zv = z0)) as [->|Hne].
  - destruct (decide (z0 ∈ zs)) as [?|_]; [done|].
    destruct (decide (z0 ∈ z0 :: zs)) as [_|Hn];
      [|destruct Hn; apply list_elem_of_here].
    rewrite record_one_balance, decide_True by done.
    by rewrite record_one_series, lookup_insert_eq.
  - assert (dd_get 0%Q (Trader.account_balance (Trader.record_one tr z0)) zv
            = dd_get 0%Q (Trader.account_balance tr) zv) as Hb
      by (rewrite record_one_balance, decide_False; done).
    assert (Trader.account_series (Trader.record_one tr z0) !! zv
            = Trader.account_series tr !! zv) as Hs
      by (rewrite record_one_series, lookup_insert_ne; done).
    assert (dd_get [] (Trader.account_series (Trader.record_one tr z0)) zv
            = dd_get [] (Trader.account_series tr) zv) as Hs'
      by (unfold dd_get; by rewrite Hs).
    rewrite Hb, Hs, Hs'.
    destruct (decide (zv ∈ zs)) as [Hin|Hnin];
      destruct (decide (zv ∈ z0 :: zs)) as [Hin'|Hnin']; try done.
    + destruct Hnin'. by apply list_elem_of_further.
    + apply elem_of_cons in Hin' as [?|?]; done.
Qed.

Lemma record_balances_effect heap tr zv :
  dd_get 0%Q (Trader.account_balance (Trader.record_balances heap tr)) zv
  = (if decide (zv ∈ Trader.held heap tr)
     then clamp (dd_get 0%Q (Trader.account_balance tr) zv)
     else dd_get 0%Q (Trader.account_balance tr) zv)
  ∧ Trader.account_series (Trader.record_balances heap tr) !! zv
    = (if decide (zv ∈ Trader.held heap tr)
       then Some (dd_get [] (Trader.account_series tr) zv
                  ++ [clamp (dd_get 0%Q (Trader.account_balance tr) zv)])
       else Trader.account_series tr !! zv).
Proof. apply record_fold_effect, NoDup_remove_dups. Qed.

Lemma receive_payoff_exchanges heap zv payoff tk tr :
  Trader.exchanges (Trader.receive_payoff heap zv payoff tk tr)
  = Trader.exchanges tr.
Proof.
  unfold Trader.receive_payoff, Trader.record_balances.
  destruct (Trader.tick tr <? tk)%Z; simpl; [|done].
  apply record_fold_fields.
Qed.

(** The balance at [zv] after [receive_payoff] for that risk parameter. *)
Lemma receive_payoff_balance heap zv payoff tk tr :
  dd_get 0%Q
    (Trader.account_balance (Trader.receive_payoff heap zv payoff tk tr)) zv
  = ((if (Trader.tick tr <? tk)%Z
      then (if decide (zv ∈ Trader.held heap tr)
            then clamp (dd_get 0%Q (Trader.account_balance tr) zv)
            else dd_get 0%Q (Trader.account_balance tr) zv)
      else dd_get 0%Q (Trader.account_balance tr) zv) + payoff)%Q.
Proof.
  unfold Trader.receive_payoff.
  destruct (Trader.tick tr <? tk)%Z; simpl; rewrite dd_get_insert; [|done].
  by destruct (record_balances_effect heap tr zv) as [-> _].
Qed.

(** A trader that is notified once or more by one [tick] moves from [P] to
    [Q] at the first notification and stays in [Q]; a trader that is not
    notified is left as it was. *)
Lemma notified_in_two_phases (f : Trader.t → Trader.t)
    (P Q : Trader.t → Prop) :
  (∀ tr, P tr → Q (f tr)) → (∀ tr, Q tr → Q (f tr)) →
  ∀ (l : list nat) (ts : list Trader.t) t tr,
    ts !! t = Some tr →
    ∃ tr', foldl (λ ts t', alter f t' ts) ts l !! t = Some tr'
         ∧ (t ∉ l → tr' = tr)
         ∧ (t ∈ l → P tr ∨ Q tr → Q tr')
         ∧ (Q tr → Q tr').
Proof.
  intros HPQ HQQ l.
  induction l as [|t0 l IH]; intros ts t tr Htr.
  - exists tr. split; [done|]. split; [done|]. split; [|done].
    by intros ?%elem_of_nil.
  - simpl. destruct (decide (t0 = t)) as [->|Hne].
    + destruct (IH (alter f t ts) t (f tr)) as (tr' & Hl & Hnot & Hin & Hq).
      { by rewrite list_lookup_alter_eq, Htr. }
      exists tr'. split; [done|]. split.
      { intros Hn. destruct Hn. apply list_elem_of_here. }
      split; [intros _ [HP|HQ]; apply Hq; auto|].
      intros HQ. apply Hq. auto.
    + destruct (IH (alter f t0 ts) t tr) as (tr' & Hl & Hnot & Hin & Hq).
      { by rewrite list_lookup_alter_ne. }
      exists tr'. split; [done|]. split.
      { intros Hn. apply Hnot. intros ?. apply Hn.
        by apply list_elem_of_further. }
      split; [|done].
      intros [?|?]%elem_of_cons; [congruence|auto].
Qed.

(** ** The clamp *)

Lemma clamp_nonpos (b : Q) : (b <= 0)%Q → (clamp b == 0)%Q.
Proof.
  intros Hb. unfold clamp. destruct (Qlt_le_dec b 0); [reflexivity|].
  by apply Qle_antisym.
Qed.

(** ** The length of the series *)

Lemma held_ext heap1 heap2 tr :
  Exchange.z <$> heap1 = Exchange.z <$> heap2 →
  Trader.held heap1 tr = Trader.held heap2 tr.
Proof.
  intros Hz. unfold Trader.held. f_equal. apply list_omap_ext.
  apply Forall2_same_length_lookup_2; [done|].
  intros i e e' He He'. rewrite He in He'. injection He' as <-.
  by rewrite <- !list_lookup_fmap, Hz.
Qed.

Lemma receive_payoff_ext heap1 heap2 zv payoff tk tr :
  Exchange.z <$> heap1 = Exchange.z <$> heap2 →
  Trader.receive_payoff heap1 zv payoff tk tr
  = Trader.receive_payoff heap2 zv payoff tk tr.
Proof.
  intros Hz. unfold Trader.receive_payoff, Trader.record_balances.
  by rewrite (held_ext heap1 heap2 tr Hz).
Qed.

Lemma recorded_ext heap1 heap2 n tr :
  Exchange.z <$> heap1 = Exchange.z <$> heap2 →
  recorded heap1 n tr → recorded heap2 n tr.
Proof.
  intros Hz [Hdom Hlen]. split; [|done].
  intros zv. rewrite <- (held_ext heap1 heap2 tr Hz). apply Hdom.
Qed.

Lemma held_same_exchanges heap tr tr' :
  Trader.exchanges tr' = Trader.exchanges tr →
  Trader.held heap tr' = Trader.held heap tr.
Proof. intros H. unfold Trader.held. by rewrite H. Qed.

(** [record_balances] adds one entry to every series. *)
Lemma record_balances_recorded heap n tr :
  recorded heap n tr → recorded heap (S n) (Trader.record_balances heap tr).
Proof.
  intros [Hdom Hlen].
  assert (Trader.held heap (Trader.record_balances heap tr)
          = Trader.held heap tr) as Hheld
    by (apply held_same_exchanges, record_fold_fields).
  split.
  - intros zv. rewrite Hheld.
    destruct (record_balances_effect heap tr zv) as [_ ->].
    destruct (decide (zv ∈ Trader.held heap tr)) as [Hin|Hnin].
    + split; [by eexists|done].
    + apply Hdom.
  - intros zv l.
    destruct (record_balances_effect heap tr zv) as [_ ->].
    destruct (decide (zv ∈ Trader.held heap tr)) as [Hin|Hnin].
    + intros [= <-]. apply Hdom in Hin as [l0 Hl0].
      unfold dd_get. rewrite Hl0. simpl.
      rewrite length_app, (Hlen zv l0 Hl0). simpl. lia.
    + intros Hl. destruct Hnin. apply Hdom. by eexists.
Qed.

(** [receive_payoff] keeps the series aligned, whatever it is told. *)
Lemma receive_payoff_recorded heap zv payoff tk n tr :
  recorded heap n tr →
  recorded heap (if (Trader.tick tr <? tk)%Z then S n else n)
           (Trader.receive_payoff heap zv payoff tk tr).
Proof.
  intros Hrec. unfold Trader.receive_payoff.
  destruct (Trader.tick tr <? tk)%Z; [|done].
  by apply record_balances_recorded in Hrec.
Qed.

Lemma receive_payoff_tick heap zv payoff tk tr :
  Trader.tick (Trader.receive_payoff heap zv payoff tk tr)
  = if (Trader.tick tr <? tk)%Z then tk else Trader.tick tr.
Proof.
  unfold Trader.receive_payoff. by destruct (Trader.tick tr <? tk)%Z.
Qed.

(** The first notification of step [i] moves a trader from
    [max i 1] entries to [i + 1] entries; the later ones of the same step
    add none. *)
Lemma receive_payoff_first heap zv payoff (i : nat) tr :
  at_step heap (i `max` 1) tr →
  at_step heap (S i) (Trader.receive_payoff heap zv payoff (Z.of_nat i) tr).
Proof.
  intros [Htick Hrec].
  pose proof (receive_payoff_recorded heap zv payoff (Z.of_nat i) _ tr Hrec)
    as Hrec'.
  pose proof (receive_payoff_tick heap zv payoff (Z.of_nat i) tr) as Htick'.
  destruct (Z.ltb_spec (Trader.tick tr) (Z.of_nat i)) as [Hlt|Hge].
  - assert (i `max` 1 = i) as Hi by lia. rewrite Hi in Hrec'.
    split; [lia|done].
  - assert (i = 0) as -> by lia. split; [lia|done].
Qed.

Lemma receive_payoff_later heap zv payoff (i : nat) tr :
  at_step heap (S i) tr →
  at_step heap (S i) (Trader.receive_payoff heap zv payoff (Z.of_nat i) tr).
Proof.
  intros [Htick Hrec].
  pose proof (receive_payoff_recorded heap zv payoff (Z.of_nat i) _ tr Hrec)
    as Hrec'.
  pose proof (receive_payoff_tick heap zv payoff (Z.of_nat i) tr) as Htick'.
  destruct (Z.ltb_spec (Trader.tick tr) (Z.of_nat i)) as [Hlt|Hge]; [lia|].
  split; [lia|done].
Qed.

(** A loop whose body always succeeds succeeds, and an invariant that may
    mention the part of the list already walked holds at the end. *)
Lemma for_each_prefix_inv {X S} (body : S → X → option S)
    (I : list X → S → Prop) (l : list X) :
  (∀ pre x post s, l = pre ++ x :: post → I pre s →
     ∃ s', body s x = Some s' ∧ I (pre ++ [x]) s') →
  ∀ s, I [] s → ∃ s', for_each body s l = Some s' ∧ I l s'.
Proof.
  intros Hbody.
  enough (∀ l2 l1 s, l = l1 ++ l2 → I l1 s →
            ∃ s', for_each body s l2 = Some s' ∧ I l s') as H.
  { intros s Hs. by apply (H l []). }
  induction l2 as [|x l2 IH]; intros l1 s Hl Hs.
  - exists s. rewrite app_nil_r in Hl. by subst l1.
  - destruct (Hbody l1 x l2 s Hl Hs) as (s1 & Hs1 & HI1).
    destruct (IH (l1 ++ [x]) s1) as (s' & Hs' & HI').
    { by rewrite <- app_assoc. }
    { done. }
    exists s'. simpl. rewrite Hs1. done.
Qed.

(** The range of the uniform draw of an exchange is accepted by [randint]
    exactly when its bound is positive and at most 2^63. *)
Lemma randint_defined (high : Z) g :
  is_Some (randint 0 high g) ↔ (0 < high <= 2 ^ 63)%Z.
Proof.
  unfold randint.
  destruct ((- 2 ^ 63 <=? 0) && (high <=? 2 ^ 63) && (0 <? high))%Z eqn:E.
  - split; [|by eexists]. intros _.
    apply andb_prop in E as [E1 E3]. apply andb_prop in E1 as [_ E2].
    apply Z.leb_le in E2. apply Z.ltb_lt in E3. lia.
  - split; [by intros [? ?]|]. intros [H1 H2].
    rewrite (proj2 (Z.leb_le _ _) H2), (proj2 (Z.ltb_lt _ _) H1) in E.
    discriminate E.
Qed.

Lemma normal_defined loc scale g :
  is_Some (normal loc scale g) ↔ (0 <= scale)%Q.
Proof.
  unfold normal. destruct (Qlt_le_dec scale 0) as [Hneg|Hpos].
  - split; [by intros [? ?]|]. intros H.
    destruct (Qlt_not_le _ _ Hneg H).
  - split; [done|by eexists].
Qed.

(** [tick] returns when the range of the uniform draw is accepted and the
    standard deviation is not negative. *)
Lemma draw_payoff_total p ex g :
  (0 < Exchange.z ex ^ Z.of_nat (RUIN_DECAY p) <= 2 ^ 63)%Z →
  (0 <= RETURN_STD p)%Q →
  is_Some (Exchange.draw_payoff p ex g).
Proof.
  intros Hpos Hstd. unfold Exchange.draw_payoff.
  destruct (Exchange.is_dead ex); [by eexists|].
  destruct (proj2 (randint_defined _ g) Hpos) as [[r g1] ->]. simpl.
  destruct (r =? 0)%Z; [by eexists|].
  destruct (proj2 (normal_defined
                     (Q2R (RETURN_MEAN p) + Exchange.premium ex)
                     (RETURN_STD p) g1) Hstd) as [[x g2] ->].
  by eexists.
Qed.

Lemma notified_by_app heap es1 es2 t :
  notified_by heap (es1 ++ es2) t
  ↔ notified_by heap es1 t ∨ notified_by heap es2 t.
Proof.
  unfold notified_by. split.
  - intros (e & ex & [He|He]%elem_of_app & Hex & Ht);
      [left|right]; by exists e, ex.
  - intros [(e & ex & He & Hex & Ht)|(e & ex & He & Hex & Ht)];
      exists e, ex; (split; [apply elem_of_app; auto|done]).
Qed.

(** One [tick] of step [i], seen from each trader: those on the notification
    list of the exchange reach [i + 1] entries, the others are untouched. *)
Lemma Exchange_tick_step p h0 (i : nat) w e g :
  Forall2 same_but_deader h0 (exchange_heap w) →
  (∀ ex, h0 !! e = Some ex →
     (0 < Exchange.z ex ^ Z.of_nat (RUIN_DECAY p) <= 2 ^ 63)%Z) →
  (0 <= RETURN_STD p)%Q →
  ∃ w' g',
    Exchange_tick p w e (Z.of_nat i) g = Some (w', g')
    ∧ Forall2 same_but_deader h0 (exchange_heap w')
    ∧ length (trader_heap w') = length (trader_heap w)
    ∧ ∀ t tr', trader_heap w' !! t = Some tr' →
        ∃ tr, trader_heap w !! t = Some tr
            ∧ (at_step h0 (S i) tr → at_step h0 (S i) tr')
            ∧ (at_step h0 (i `max` 1) tr →
               at_step h0 (i `max` 1) tr' ∨ at_step h0 (S i) tr')
            ∧ (notified_by h0 [e] t →
               at_step h0 (i `max` 1) tr ∨ at_step h0 (S i) tr →
               at_step h0 (S i) tr').
Proof.
  intros Hh0 Hpos Hstd.
  destruct (exchange_heap w !! e) as [ex|] eqn:Hex.
  - destruct (Forall2_lookup_r _ _ _ _ _ Hh0 Hex)
      as (ex0 & Hex0 & Hz & Hreg & _).
    destruct (draw_payoff_total p ex g) as [[[payoff dead] g'] Hdraw].
    { rewrite Hz. by apply Hpos. }
    { done. }
    assert (Exchange_tick p w e (Z.of_nat i) g
            = Some (foldl (notify (Exchange.z ex) payoff (Z.of_nat i))
                      {| exchange_heap :=
                           <[e := Exchange.set_dead dead ex]>
                             (exchange_heap w);
                         trader_heap := trader_heap w |}
                      (Exchange.traders ex), g')) as Htick
      by (unfold Exchange_tick; rewrite Hex, Hdraw; done).
    eexists _, _. split; [exact Htick|].
    pose proof (Exchange_tick_evolves _ _ _ _ _ _ _ Htick) as [Hev Hlen].
    split.
    { eapply Forall2_trans; [|exact Hh0|exact Hev].
      intros a b c. apply same_but_deader_trans. }
    split; [done|].
    intros t tr' Htr'. rewrite notify_all_traders in Htr'. simpl in Htr'.
    set (heap1 := <[e := Exchange.set_dead dead ex]> (exchange_heap w))
      in Htr'.
    assert (Exchange.z <$> heap1 = Exchange.z <$> h0) as Hz1.
    { pose proof (evolves_z _ _ (conj Hev Hlen)) as H1.
      rewrite notify_all_exchanges in H1. simpl in H1. fold heap1 in H1.
      rewrite H1. by apply same_but_deader_z. }
    destruct (lookup_lt_is_Some_2 (trader_heap w) t) as [tr Htr].
    { rewrite <- (alter_all_length
                    (Trader.receive_payoff heap1 (Exchange.z ex) payoff
                                           (Z.of_nat i))
                    (Exchange.traders ex)).
      by eapply lookup_lt_Some. }
    exists tr. split; [done|].
    destruct (notified_in_two_phases
                (Trader.receive_payoff heap1 (Exchange.z ex) payoff
                                       (Z.of_nat i))
                (at_step h0 (i `max` 1)) (at_step h0 (S i)))
      with (l := Exchange.traders ex) (ts := trader_heap w) (t := t) (tr := tr)
      as (tr1 & Htr1 & Hnot & Hin & Hq).
    { intros x Hx. rewrite (receive_payoff_ext heap1 h0) by done.
      by apply receive_payoff_first. }
    { intros x Hx. rewrite (receive_payoff_ext heap1 h0) by done.
      by apply receive_payoff_later. }
    { done. }
    rewrite Htr1 in Htr'. injection Htr' as <-.
    split; [done|]. split.
    + intros HP. destruct (decide (t ∈ Exchange.traders ex)) as [Ht|Ht].
      * right. apply Hin; auto.
      * left. by rewrite (Hnot Ht).
    + intros (e' & ex' & ->%list_elem_of_singleton & Hex' & Ht) HPQ.
      rewrite Hex0 in Hex'. injection Hex' as <-.
      apply Hin; [by rewrite Hreg|done].
  - exists w, g. unfold Exchange_tick. rewrite Hex.
    split; [done|]. split; [done|]. split; [done|].
    intros t tr' Htr'. exists tr'. split; [done|]. split; [done|].
    split; [by left|].
    intros (e' & ex' & ->%list_elem_of_singleton & Hex' & _).
    apply Forall2_length in Hh0.
    apply lookup_lt_Some in Hex'. apply lookup_ge_None in Hex. lia.
Qed.

(** One step of the simulation: every trader that some exchange of the list
    notifies ends the step with [i + 1] entries. *)
Lemma simulation_step p h0 (i : nat) exchanges w g :
  Forall2 same_but_deader h0 (exchange_heap w) →
  (∀ e ex, e ∈ exchanges → h0 !! e = Some ex →
     (0 < Exchange.z ex ^ Z.of_nat (RUIN_DECAY p) <= 2 ^ 63)%Z) →
  (0 <= RETURN_STD p)%Q →
  (∀ t tr, trader_heap w !! t = Some tr → at_step h0 (i `max` 1) tr) →
  ∃ w' g',
    for_each (λ '(w', g') e, Exchange_tick p w' e (Z.of_nat i) g')
             (w, g) exchanges = Some (w', g')
    ∧ Forall2 same_but_deader h0 (exchange_heap w')
    ∧ length (trader_heap w') = length (trader_heap w)
    ∧ ∀ t tr', trader_heap w' !! t = Some tr' →
        notified_by h0 exchanges t → at_step h0 (S i) tr'.
Proof.
  intros Hh0 Hpos Hstd Hstart.
  destruct (for_each_prefix_inv
              (λ '(w', g') e, Exchange_tick p w' e (Z.of_nat i) g')
              (λ pre s,
                 Forall2 same_but_deader h0 (exchange_heap s.1)
                 ∧ length (trader_heap s.1) = length (trader_heap w)
                 ∧ ∀ t tr', trader_heap s.1 !! t = Some tr' →
                     (at_step h0 (i `max` 1) tr' ∨ at_step h0 (S i) tr')
                     ∧ (notified_by h0 pre t → at_step h0 (S i) tr'))
              exchanges) with (s := (w, g)) as ([w' g'] & Hrun & H1 & H2 & H3).
  - intros pre e post [w1 g1] Hl (Hh1 & Hlen1 & Htr1). simpl in *.
    destruct (Exchange_tick_step p h0 i w1 e g1 Hh1)
      as (w2 & g2 & Htick & Hh2 & Hlen2 & Htr2).
    { intros ex. apply Hpos. rewrite Hl. apply elem_of_app. right.
      apply list_elem_of_here. }
    { done. }
    exists (w2, g2). split; [done|]. simpl.
    split; [done|]. split; [congruence|].
    intros t tr2 Ht2.
    destruct (Htr2 t tr2 Ht2) as (tr1 & Ht1 & HQQ & HPQ & Hnew).
    destruct (Htr1 t tr1 Ht1) as [Hor Hold].
    split.
    + destruct Hor as [HP|HQ]; [by apply HPQ|right; by apply HQQ].
    + intros [Hpre|Hnow]%notified_by_app; [by apply HQQ, Hold|].
      by apply Hnew.
  - simpl. split; [done|]. split; [done|].
    intros t tr' Ht. split; [left; by eapply Hstart|].
    intros (e & ex & He%elem_of_nil & _). done.
  - exists w', g'. simpl in *. split; [done|]. split; [done|].
    split; [done|]. intros t tr' Ht. by apply H3.
Qed.

(** The whole simulation: after [steps] steps every trader that is notified
    at each step has [max steps 1] entries in each series. *)
Lemma run_simulation_steps p h0 exchanges steps w g :
  Forall2 same_but_deader h0 (exchange_heap w) →
  (∀ e ex, e ∈ exchanges → h0 !! e = Some ex →
     (0 < Exchange.z ex ^ Z.of_nat (RUIN_DECAY p) <= 2 ^ 63)%Z) →
  (0 <= RETURN_STD p)%Q →
  (∀ t, t < length (trader_heap w) → notified_by h0 exchanges t) →
  (∀ t tr, trader_heap w !! t = Some tr → at_step h0 1 tr) →
  ∃ w' g',
    run_simulation p w exchanges steps g = Some (w', g')
    ∧ Forall2 same_but_deader h0 (exchange_heap w')
    ∧ length (trader_heap w') = length (trader_heap w)
    ∧ ∀ t tr', trader_heap w' !! t = Some tr' →
        at_step h0 (steps `max` 1) tr'.
Proof.
  intros Hh0 Hpos Hstd Hreg Hstart. unfold run_simulation.
  destruct (for_each_prefix_inv
              (λ s i,
                 for_each (λ '(w', g') e,
                             Exchange_tick p w' e (Z.of_nat i) g')
                          s exchanges)
              (λ pre s,
                 Forall2 same_but_deader h0 (exchange_heap s.1)
                 ∧ length (trader_heap s.1) = length (trader_heap w)
                 ∧ ∀ t tr', trader_heap s.1 !! t = Some tr' →
                     at_step h0 (length pre `max` 1) tr')
              (seq 0 steps)) with (s := (w, g))
    as ([w' g'] & Hrun & H1 & H2 & H3).
  - intros pre i post [w1 g1] Hl (Hh1 & Hlen1 & Htr1). simpl in *.
    assert (i = length pre) as ->.
    { assert (seq 0 steps !! length pre = Some i) as Hi
        by (rewrite Hl; by apply list_lookup_middle).
      apply lookup_seq in Hi. lia. }
    destruct (simulation_step p h0 (length pre) exchanges w1 g1 Hh1 Hpos Hstd
                Htr1)
      as (w2 & g2 & Hstep & Hh2 & Hlen2 & Htr2).
    exists (w2, g2). split; [done|]. simpl.
    split; [done|]. split; [congruence|].
    intros t tr2 Ht2. rewrite length_app. simpl.
    replace ((length pre + 1) `max` 1) with (S (length pre)) by lia.
    apply (Htr2 t tr2 Ht2), Hreg.
    apply lookup_lt_Some in Ht2. lia.
  - simpl. done.
  - exists w', g'. simpl in *. rewrite length_seq in H3. done.
Qed.

(** A new trader has a balance exactly for the risk parameters it holds. *)
Lemma initial_balance_dom p heap exchanges zv :
  is_Some (initial_balance p heap exchanges !! zv)
  ↔ zv ∈ omap (λ e, Exchange.z <$> heap !! e) exchanges.
Proof.
  unfold initial_balance.
  enough (∀ m : gmap Z Q,
            is_Some (foldl (λ (m : gmap Z Q) e,
                              match heap !! e with
                              | Some ex =>
                                  <[Exchange.z ex :=
                                      (dd_get 0 m (Exchange.z ex)
                                       + BET_SIZE p)%Q]> m
                              | None => m
                              end) m exchanges !! zv)
            ↔ is_Some (m !! zv)
              ∨ zv ∈ omap (λ e, Exchange.z <$> heap !! e) exchanges) as H.
  { rewrite H, lookup_empty. split; [intros [[? ?]|?]; done|auto]. }
  induction exchanges as [|e es IH]; intros m.
  - simpl. split; [auto|]. intros [?|?%elem_of_nil]; done.
  - simpl foldl. rewrite IH. clear IH.
    change (omap (λ e, Exchange.z <$> heap !! e) (e :: es))
      with (match Exchange.z <$> heap !! e with
            | Some y => y :: omap (λ e, Exchange.z <$> heap !! e) es
            | None => omap (λ e, Exchange.z <$> heap !! e) es
            end).
    destruct (heap !! e) as [ex|]; simpl; [|done].
    rewrite elem_of_cons.
    destruct (decide (Exchange.z ex = zv)) as [->|Hne].
    + rewrite lookup_insert_eq. split; [auto|]. intros _. left. by eexists.
    + rewrite lookup_insert_ne by done. split; [tauto|].
      intros [?|[?|?]]; [tauto|congruence|tauto].
Qed.

Lemma new_trader_at_step p heap heap' tid exchanges :
  Exchange.z <$> heap' = Exchange.z <$> heap →
  at_step heap' 1 (new_trader p heap tid exchanges).
Proof.
  intros Hz. split; [done|]. split.
  - intros zv. rewrite (held_ext heap' heap) by done.
    unfold Trader.held. simpl. rewrite elem_of_remove_dups.
    rewrite lookup_fmap, fmap_is_Some. symmetry. apply initial_balance_dom.
  - intros zv l. simpl. rewrite lookup_fmap.
    destruct (initial_balance p heap exchanges !! zv); simpl; [|done].
    by intros [= <-].
Qed.

(** A window of the flattened list is not empty and holds exchanges of the
    list only. *)
Lemma window_elements p exchanges i e :
  e ∈ take (BETS_PER_TRADER p) (drop i (exchanges_perm p exchanges)) →
  e ∈ exchanges.
Proof.
  intros He. apply elem_of_take in He as (j & He & _).
  rewrite lookup_drop in He. apply list_elem_of_lookup_2 in He.
  rewrite exchanges_perm_blocks in He.
  apply list_elem_of_bind in He as (x & Hx & Hin).
  by apply elem_of_replicate in Hx as [-> _].
Qed.

(** The store that [generate_traders] leaves is ready to run: every trader
    is fresh and is notified by an exchange of the list. *)
Lemma generated_world_ready p w exchanges :
  trader_heap w = [] →
  (∀ e, e ∈ exchanges → e < length (exchange_heap w)) →
  1 ≤ length exchanges → 1 ≤ BETS_PER_TRADER p →
  let w1 := (generate_traders p w exchanges).1 in
  Exchange.z <$> exchange_heap w1 = Exchange.z <$> exchange_heap w
  ∧ length (trader_heap w1)
    = length exchanges * BETS_PER_TRADER p - BETS_PER_TRADER p + 1
  ∧ (∀ t tr, trader_heap w1 !! t = Some tr →
       at_step (exchange_heap w1) 1 tr)
  ∧ (∀ t, t < length (trader_heap w1) →
       notified_by (exchange_heap w1) exchanges t).
Proof.
  intros Hnil Hvalid HN Hb. cbv zeta.
  pose proof (window_count p exchanges HN Hb) as Hcount.
  destruct (generate_traders_spec p w exchanges) as (w1 & Hg & Htr & Hz & Hreg).
  rewrite Hg. simpl. rewrite Hnil in Htr, Hreg. simpl in Htr, Hreg.
  split; [done|].
  split; [by rewrite Htr, length_imap|].
  split.
  - intros t tr. rewrite Htr, list_lookup_imap.
    destruct (_ !! t); simpl; [|done]. intros [= <-].
    by apply new_trader_at_step.
  - intros t Ht. rewrite Htr, length_imap in Ht.
    pose proof Ht as Ht'. rewrite Hcount in Ht'.
    pose proof (contiguous_sublists_lookup (exchanges_perm p exchanges)
                  (BETS_PER_TRADER p) t) as Hs.
    rewrite contiguous_sublists_length in Ht. specialize (Hs Ht).
    pose proof (contiguous_sublists_full (exchanges_perm p exchanges)
                  (BETS_PER_TRADER p) t Ht) as Hfull.
    destruct (take (BETS_PER_TRADER p)
                   (drop t (exchanges_perm p exchanges)))
      as [|e s] eqn:Hwin; [simpl in Hfull; lia|].
    assert (e ∈ exchanges) as He.
    { apply (window_elements p exchanges t). rewrite Hwin.
      apply list_elem_of_here. }
    destruct (lookup_lt_is_Some_2 (exchange_heap w) e (Hvalid e He))
      as [ex Hex].
    destruct (Hreg e ex Hex) as (ex' & Hex' & _ & Hnew).
    exists e, ex'. split; [done|]. split; [done|].
    apply (Hnew t (e :: s) Hs). apply list_elem_of_here.
Qed.

(** * Further properties of the module *)

(** ** [generate_exchanges] *)

Lemma float_pow_defined_nonneg (x y : Q) :
  (0 <= x)%Q → (0 <= y)%Q → is_Some (float_pow x y).
Proof.
  intros Hx Hy. unfold float_pow.
  destruct (Qlt_le_dec 0 x); [by eexists|].
  destruct (Qeq_dec x 0) as [_|Hne]; [|destruct Hne; lraQ].
  destruct (Qlt_le_dec 0 y); [by eexists|].
  destruct (Qeq_dec y 0) as [_|Hne]; [by eexists|destruct Hne; lraQ].
Qed.

Lemma float_pow_zero_base (x y : Q) :
  (x == 0)%Q → is_Some (float_pow x y) → (0 <= y)%Q.
Proof.
  intros Hx. unfold float_pow.
  destruct (Qlt_le_dec 0 x); [lraQ|].
  destruct (Qeq_dec x 0) as [_|Hne]; [|by destruct Hne].
  destruct (Qlt_le_dec 0 y); [lraQ|].
  destruct (Qeq_dec y 0); [lraQ|]. by intros [? ?].
Qed.

(** The rank of the last generated venue is 1. *)
Lemma rank_between_zero_and_one_aux p (k : nat) :
  2 ≤ NUM_EXCHANGES p → k = NUM_EXCHANGES p - 1 →
  ∃ r, Exchange.rank p (Z.of_nat k + MAX_RISK p) = Some r ∧ (r == 1)%Q.
Proof.
  intros HN ->. destruct (rank_generated p (NUM_EXCHANGES p - 1) HN)
    as (r & Hr & Heq).
  exists r. split; [done|]. rewrite Heq.
  replace (Z.of_nat (NUM_EXCHANGES p - 1))
    with (Z.of_nat (NUM_EXCHANGES p) - 1)%Z by lia.
  apply Qmult_inv_r. intros H. unfold Qeq in H. simpl in H. lia.
Qed.

Lemma init_fields p zv ex :
  Exchange.init p zv = Some ex →
  Exchange.z ex = zv ∧ Exchange.traders ex = []
  ∧ Exchange.is_dead ex = false.
Proof.
  unfold Exchange.init. destruct (Exchange.scale p zv); simpl; [|done].
  by intros [= <-].
Qed.

(** With at least two exchanges and a premium decay that is not negative,
    every constructor call of [generate_exchanges] returns. *)
Lemma generate_exchanges_defined p w :
  2 ≤ NUM_EXCHANGES p → (0 <= PREMIUM_DECAY p)%Q →
  is_Some (generate_exchanges p w).
Proof.
  intros HN Hd. unfold generate_exchanges.
  destruct (mapM_is_Some_2
              (λ k, Exchange.init p (Z.of_nat k + MAX_RISK p)%Z)
              (seq 0 (NUM_EXCHANGES p))) as [exs Hexs].
  { apply Forall_seq. intros k Hk. simpl.
    destruct (rank_generated p k HN) as (r & Hr & Heq).
    destruct (ratio_bounds (Z.of_nat k)
                (Z.of_nat (NUM_EXCHANGES p) - 1)) as [H0 H1]; [lia|lia|].
    destruct (float_pow_defined_nonneg (1 - r) (PREMIUM_DECAY p))
      as [s Hs]; [lraQ|done|].
    unfold Exchange.init, Exchange.scale. rewrite Hr. simpl.
    rewrite Hs. by eexists. }
  rewrite Hexs. by eexists.
Qed.

(** For risk parameters that binary64 holds exactly (up to 2^53 in
    magnitude, where [float(self.z)] neither rounds nor overflows),
    [generate_exchanges] raises exactly when there is a single exchange (the
    rank divides by zero) or when there are several and the premium decay
    is negative (the safest exchange raises zero to a negative power); with
    no exchange at all it returns the empty list. *)
Theorem generate_exchanges_raises_iff p w :
  exact_risks p →
  is_Some (generate_exchanges p w)
  ↔ NUM_EXCHANGES p = 0
    ∨ (2 ≤ NUM_EXCHANGES p ∧ (0 <= PREMIUM_DECAY p)%Q).
Proof.
  intros _. unfold generate_exchanges. split.
  - intros [r Hr].
    destruct (mapM _ (seq 0 (NUM_EXCHANGES p))) as [es|] eqn:Hes; [|done].
    clear r Hr. assert (is_Some (mapM (λ k, Exchange.init p
                          (Z.of_nat k + MAX_RISK p)%Z)
                          (seq 0 (NUM_EXCHANGES p)))) as Hall by (by eexists).
    apply mapM_is_Some_1 in Hall. rewrite Forall_seq in Hall.
    destruct (decide (NUM_EXCHANGES p = 0)) as [?|Hne]; [by left|right].
    destruct (decide (NUM_EXCHANGES p = 1)) as [H1|Hne1].
    { destruct (Hall 0) as [ex Hex]; [lia|]. simpl in Hex.
      unfold Exchange.init, Exchange.scale, Exchange.rank in Hex.
      rewrite H1 in Hex. done. }
    split; [lia|].
    destruct (Hall (NUM_EXCHANGES p - 1)) as [ex Hex]; [lia|]. simpl in Hex.
    destruct (rank_between_zero_and_one_aux p (NUM_EXCHANGES p - 1))
      as (r & Hr & Hone); [lia|done|].
    unfold Exchange.init, Exchange.scale in Hex. rewrite Hr in Hex.
    simpl in Hex.
    destruct (float_pow (1 - r) (PREMIUM_DECAY p)) as [s|] eqn:Hs; [|done].
    apply (float_pow_zero_base (1 - r)); [lraQ|]. rewrite Hs. by eexists.
  - intros [H0|[HN Hd]].
    + rewrite H0. simpl. by eexists.
    + by apply (generate_exchanges_defined p w).
Qed.

Lemma generate_exchanges_raises_iff_witness :
  exact_risks source_params
  ∧ is_Some (generate_exchanges source_params empty_world).
Proof.
  assert (exact_risks source_params) as Hexact
    by (unfold exact_risks; simpl; lia).
  split; [exact Hexact|].
  apply (generate_exchanges_raises_iff source_params empty_world Hexact).
  right. split; [simpl; lia|discriminate].
Defined.

Lemma generate_exchanges_new p w w' es :
  generate_exchanges p w = Some (w', es) →
  trader_heap w' = trader_heap w
  ∧ es = seq (length (exchange_heap w)) (NUM_EXCHANGES p)
  ∧ take (length (exchange_heap w)) (exchange_heap w') = exchange_heap w
  ∧ length (exchange_heap w') = length (exchange_heap w) + NUM_EXCHANGES p
  ∧ ∀ k, k < NUM_EXCHANGES p →
      ∃ ex, exchange_heap w' !! (length (exchange_heap w) + k) = Some ex
          ∧ Exchange.z ex = (Z.of_nat k + MAX_RISK p)%Z
          ∧ Exchange.traders ex = []
          ∧ Exchange.is_dead ex = false.
Proof.
  unfold generate_exchanges.
  destruct (mapM _ (seq 0 (NUM_EXCHANGES p))) as [exs|] eqn:Hexs; [|done].
  simpl. intros [= <- <-]. simpl.
  pose proof (length_mapM _ _ _ Hexs) as Hlen. rewrite length_seq in Hlen.
  split; [done|]. split; [by rewrite Hlen|].
  split; [by rewrite take_app_length|].
  split; [rewrite length_app; lia|].
  intros k Hk. apply mapM_Some_1 in Hexs.
  destruct (Forall2_lookup_l _ _ _ k k Hexs) as (ex & Hex & Hinit).
  { by apply lookup_seq_lt. }
  exists ex. split.
  - rewrite lookup_app_r by lia.
    by replace (length (exchange_heap w) + k - length (exchange_heap w))
      with k by lia.
  - by apply (init_fields p).
Qed.

(** The exchanges [generate_exchanges] returns are new objects, no two of
    them the same, placed after the ones the store already had: the k-th
    has risk parameter MAX_RISK + k, no trader and is alive; the objects
    already in the store are left as they were. *)
Theorem generate_exchanges_fresh p w w' es :
  generate_exchanges p w = Some (w', es) →
  trader_heap w' = trader_heap w
  ∧ es = seq (length (exchange_heap w)) (NUM_EXCHANGES p)
  ∧ take (length (exchange_heap w)) (exchange_heap w') = exchange_heap w
  ∧ length (exchange_heap w') = length (exchange_heap w) + NUM_EXCHANGES p
  ∧ (∀ k, k < NUM_EXCHANGES p →
       ∃ ex, exchange_heap w' !! (length (exchange_heap w) + k) = Some ex
           ∧ Exchange.z ex = (Z.of_nat k + MAX_RISK p)%Z
           ∧ Exchange.traders ex = []
           ∧ Exchange.is_dead ex = false)
  ∧ NoDup es.
Proof.
  intros Hgen.
  destruct (generate_exchanges_new p w w' es Hgen)
    as (Htr & Hes & Hold & Hlen & Hnew).
  repeat (split; [assumption|]). rewrite Hes. apply NoDup_seq.
Qed.

Lemma generate_exchanges_fresh_witness :
  ∃ w' es,
    generate_exchanges source_params empty_world = Some (w', es)
    ∧ es = [0; 1; 2; 3; 4; 5; 6; 7]
    ∧ length (exchange_heap w') = 8.
Proof.
  destruct (generate_exchanges source_params empty_world)
    as [[w' es]|] eqn:Hgen; [|vm_compute in Hgen; discriminate].
  destruct (generate_exchanges_fresh source_params empty_world w' es Hgen)
    as (_ & Hes & _ & Hlen & _).
  by exists w', es.
Defined.

Lemma Rpower_one (y : R) : Rpower 1 y = 1%R.
Proof. unfold Rpower. by rewrite ln_1, Rmult_0_r, exp_0. Qed.

(** A power of a base between 0 and 1 is between 0 and 1. *)
Lemma float_pow_unit_interval (x y : Q) (s : R) :
  (0 <= x)%Q → (x <= 1)%Q → (0 < y)%Q → float_pow x y = Some s →
  (0 <= s <= 1)%R ∧ ((x == 1)%Q → s = 1%R) ∧ ((x == 0)%Q → s = 0%R).
Proof.
  intros H0 H1 Hy. unfold float_pow.
  destruct (Qlt_le_dec 0 x) as [Hpos|Hnpos].
  - intros [= <-].
    pose proof (Qlt_Rlt _ _ Hpos) as Hx. rewrite RMicromega.Q2R_0 in Hx.
    pose proof (Qle_Rle _ _ H1) as Hx1. rewrite RMicromega.Q2R_1 in Hx1.
    pose proof (Qlt_Rlt _ _ Hy) as Hy'. rewrite RMicromega.Q2R_0 in Hy'.
    split; [|split].
    + split; [unfold Rpower; apply Rlt_le, exp_pos|].
      rewrite <- (Rpower_one (Q2R y)).
      apply Rle_Rpower_l; [lraR|]. split; lraR.
    + intros Hone. apply Qeq_eqR in Hone. rewrite Hone, RMicromega.Q2R_1.
      apply Rpower_one.
    + intros Hz. lraQ.
  - destruct (Qeq_dec x 0) as [_|Hne]; [|destruct Hne; lraQ].
    destruct (Qlt_le_dec 0 y); [|lraQ]. intros [= <-].
    split; [lraR|]. split; [intros; lraQ|done].
Qed.

(** Every generated exchange has a premium between 0 and MAX_PREMIUM: the
    riskiest one (risk parameter MAX_RISK) has exactly MAX_PREMIUM and the
    safest one (risk parameter MAX_RISK + NUM_EXCHANGES − 1) has exactly 0. *)
Theorem generated_premium_bounds p w w' es r ex :
  2 ≤ NUM_EXCHANGES p → (0 < PREMIUM_DECAY p)%Q → (0 <= MAX_PREMIUM p)%Q →
  generate_exchanges p w = Some (w', es) →
  r ∈ es → exchange_heap w' !! r = Some ex →
  (0 <= Exchange.premium ex <= Q2R (MAX_PREMIUM p))%R
  ∧ (Exchange.z ex = MAX_RISK p →
     Exchange.premium ex = Q2R (MAX_PREMIUM p))
  ∧ (Exchange.z ex = (MAX_RISK p + Z.of_nat (NUM_EXCHANGES p) - 1)%Z →
     Exchange.premium ex = 0%R).
Proof.
  intros HN Hd Hm Hgen Hr Hex.
  destruct (generated_exchange_shape p w w' es r ex HN Hd Hgen Hr Hex)
    as (k & q & s & Hk & _ & Hq & Hs & ->). simpl.
  destruct (ratio_bounds (Z.of_nat k) (Z.of_nat (NUM_EXCHANGES p) - 1))
    as [H0 H1]; [lia|lia|]. rewrite <- Hq in H0, H1.
  destruct (float_pow_unit_interval (1 - q) (PREMIUM_DECAY p) s)
    as ([Hs0 Hs1] & Hone & Hzero); [lraQ|lraQ|done|done|].
  pose proof (Qle_Rle _ _ Hm) as Hm'. rewrite RMicromega.Q2R_0 in Hm'.
  split; [|split].
  - split; [by apply Rmult_le_pos|].
    rewrite <- (Rmult_1_l (Q2R (MAX_PREMIUM p))) at 2.
    by apply Rmult_le_compat_r.
  - intros Hz. assert (k = 0) as -> by lia.
    assert (q == 0)%Q as Hq0.
    { rewrite Hq. unfold Qdiv. change (inject_Z (Z.of_nat 0)) with 0%Q.
      apply Qmult_0_l. }
    rewrite Hone; [lraR|lraQ].
  - intros Hz. assert (k = NUM_EXCHANGES p - 1) as -> by lia.
    destruct (rank_between_zero_and_one_aux p (NUM_EXCHANGES p - 1) HN)
      as (q1 & Hq1 & Hone1); [done|].
    destruct (rank_generated p (NUM_EXCHANGES p - 1) HN) as (q2 & Hq2 & Heq2).
    rewrite Hq1 in Hq2. injection Hq2 as <-.
    rewrite <- Hq in Heq2.
    rewrite Hzero; [lraR|lraQ].
Qed.

Lemma generated_premium_bounds_witness :
  ∃ w' ex,
    exchange_heap w' !! 7 = Some ex
    ∧ generate_exchanges source_params empty_world
      = Some (w', [0; 1; 2; 3; 4; 5; 6; 7])
    ∧ (0 <= Exchange.premium ex <= Q2R (MAX_PREMIUM source_params))%R.
Proof.
  destruct (generate_exchanges source_params empty_world)
    as [[w' es]|] eqn:Hgen; [|vm_compute in Hgen; discriminate].
  destruct (generate_exchanges_new source_params empty_world w' es Hgen)
    as (_ & Hes & _ & _ & Hnew).
  destruct (Hnew 7) as (ex & Hex & _); [simpl; lia|]. simpl in Hex, Hes.
  exists w', ex. split; [exact Hex|]. split; [by rewrite Hes|].
  apply (generated_premium_bounds source_params empty_world w' es 7 ex);
    [simpl; lia|reflexivity|discriminate|exact Hgen| |exact Hex].
  rewrite Hes. rewrite !elem_of_cons. tauto.
Defined.

(** ** [contiguous_sublists_size_n] *)

Lemma contiguous_sublists_lookup_inv {A} (l : list A) n i a :
  contiguous_sublists_size_n l n !! i = Some a →
  i + n ≤ length l ∧ a = take n (drop i l).
Proof.
  intros Ha. assert (i < length l + 1 - n) as Hi.
  { apply lookup_lt_Some in Ha.
    by rewrite contiguous_sublists_length in Ha. }
  rewrite contiguous_sublists_lookup in Ha by done.
  injection Ha as <-. split; [lia|done].
Qed.

(** Every window has [n] entries, and each window is the one before it moved
    by one place: without its first entry it is the start of the next. *)
Theorem sliding_windows_overlap {A} (l : list A) n i a b :
  contiguous_sublists_size_n l n !! i = Some a →
  contiguous_sublists_size_n l n !! S i = Some b →
  length a = n ∧ length b = n ∧ drop 1 a = take (n - 1) b.
Proof.
  intros [Hi ->]%contiguous_sublists_lookup_inv
         [HSi ->]%contiguous_sublists_lookup_inv.
  split; [rewrite length_take, length_drop; lia|].
  split; [rewrite length_take, length_drop; lia|].
  rewrite skipn_firstn_comm, drop_drop, take_take.
  replace (i + 1) with (S i) by lia. f_equal. lia.
Qed.

Lemma sliding_windows_overlap_witness :
  length [1; 2] = 2 ∧ length [2; 3] = 2
  ∧ drop 1 [1; 2] = take (2 - 1) [2; 3].
Proof.
  apply (sliding_windows_overlap [1; 2; 3] 2 0 [1; 2] [2; 3]); reflexivity.
Defined.

Lemma window_heads {A} (l : list A) n m :
  1 ≤ n → ∀ j, j + m + n ≤ length l + 1 →
  omap head ((λ i, take n (drop i l)) <$> seq j m) = take m (drop j l).
Proof.
  intros Hn. induction m as [|m IH]; intros j Hj; [by rewrite take_0|].
  simpl seq. rewrite fmap_cons.
  destruct (lookup_lt_is_Some_2 l j) as [x Hx]; [lia|].
  assert (head (take n (drop j l)) = Some x) as Hhead.
  { rewrite head_lookup, lookup_take_lt by lia.
    by rewrite lookup_drop, Nat.add_0_r. }
  change (omap head (take n (drop j l) :: ?t))
    with (match head (take n (drop j l)) with
          | Some y => y :: omap head t
          | None => omap head t
          end).
  rewrite Hhead, IH by lia.
  by rewrite (drop_S l x j Hx).
Qed.

(** A list shorter than the window has no window.  Otherwise the list is
    recovered from its windows: the first entries of all windows, followed
    by the rest of the last window. *)
Theorem sliding_windows_rebuild {A} (l : list A) n :
  (length l < n → contiguous_sublists_size_n l n = [])
  ∧ (1 ≤ n → n ≤ length l →
     omap head (contiguous_sublists_size_n l n)
     ++ drop 1 (default [] (last (contiguous_sublists_size_n l n))) = l).
Proof.
  split.
  - intros Hshort. unfold contiguous_sublists_size_n.
    by replace (length l + 1 - n) with 0 by lia.
  - intros Hn Hlen. unfold contiguous_sublists_size_n.
    rewrite window_heads, drop_0 by lia.
    replace (length l + 1 - n) with (S (length l - n)) by lia.
    rewrite fmap_last, seq_S, last_snoc. simpl.
    rewrite skipn_firstn_comm, drop_drop.
    rewrite (take_ge (drop _ _)) by (rewrite length_drop; lia).
    replace (length l - n + 1) with (S (length l - n)) by lia.
    apply take_drop.
Qed.

Lemma sliding_windows_rebuild_witness :
  omap head (contiguous_sublists_size_n [1; 2; 3; 4] 2)
  ++ drop 1 (default [] (last (contiguous_sublists_size_n [1; 2; 3; 4] 2)))
  = [1; 2; 3; 4].
Proof.
  apply (sliding_windows_rebuild [1; 2; 3; 4] 2); simpl; lia.
Defined.

(** ** Registration *)

Lemma count_occ_replicate (n x t : nat) :
  count_occ Nat.eq_dec (replicate n x) t = if decide (x = t) then n else 0.
Proof.
  induction n as [|n IH]; simpl; [by destruct (decide (x = t))|].
  rewrite IH. destruct (Nat.eq_dec x t), (decide (x = t)); try done.
Qed.

(** [register_all] appends the trader to the list of an exchange once for
    every time the exchange is named, and changes nothing else. *)
Lemma register_all_lookup self heap exchanges e :
  register_all self heap exchanges !! e
  = (λ ex, Exchange.mk (Exchange.z ex)
             (Exchange.traders ex
              ++ replicate (count_occ Nat.eq_dec exchanges e) self)
             (Exchange.is_dead ex) (Exchange.premium ex)) <$> heap !! e.
Proof.
  unfold register_all. revert heap.
  induction exchanges as [|x xs IH]; intros heap.
  - simpl. destruct (heap !! e) as [[]|]; simpl; [|done].
    by rewrite app_nil_r.
  - simpl foldl. rewrite IH, list_lookup_alter. simpl count_occ.
    destruct (decide (x = e)) as [->|Hne], (Nat.eq_dec _ e) as [?|?];
      try done.
    destruct (heap !! e) as [[]|]; simpl; [|done].
    by rewrite <- app_assoc.
Qed.

Lemma make_traders_registrations p sets rest :
  ∀ pre w ts, sets = pre ++ rest →
  ∀ e ex, exchange_heap w !! e = Some ex →
  ∃ ex',
    exchange_heap
      (make_traders p sets (w, ts) (seq (length pre) (length rest))).1 !! e
    = Some ex'
    ∧ Exchange.z ex' = Exchange.z ex
    ∧ Exchange.is_dead ex' = Exchange.is_dead ex
    ∧ Exchange.premium ex' = Exchange.premium ex
    ∧ ∀ t, count_occ Nat.eq_dec (Exchange.traders ex') t
           = count_occ Nat.eq_dec (Exchange.traders ex) t
             + bets_at rest (length (trader_heap w)) t e.
Proof.
  induction rest as [|s rest IH]; intros pre w ts Hsets e ex Hex.
  - exists ex. simpl. split; [done|]. repeat split.
    intros t. unfold bets_at. destruct (decide _); simpl; lia.
  - simpl length. rewrite <- cons_seq, make_traders_cons.
    assert (sets !! length pre = Some s) as ->
      by (rewrite Hsets; apply list_lookup_middle; done).
    simpl default.
    set (w1 := {| exchange_heap :=
                    register_all (length (trader_heap w)) (exchange_heap w) s;
                  trader_heap :=
                    trader_heap w
                    ++ [new_trader p (exchange_heap w) (length pre) s] |}).
    pose proof (register_all_lookup (length (trader_heap w))
                  (exchange_heap w) s e) as Hreg.
    rewrite Hex in Hreg. simpl in Hreg.
    assert (sets = (pre ++ [s]) ++ rest) as Hsets'
      by (by rewrite <- app_assoc).
    destruct (IH (pre ++ [s]) w1 (ts ++ [length (trader_heap w)]) Hsets'
                e _ Hreg) as (ex' & Hex' & Hz & Hd & Hp & Hcount).
    rewrite length_app in Hex'. simpl in Hex'.
    replace (length pre + 1) with (S (length pre)) in Hex' by lia.
    exists ex'. split; [exact Hex'|]. simpl in Hz, Hd, Hp.
    split; [done|]. split; [done|]. split; [done|].
    intros t. rewrite Hcount. simpl. rewrite count_occ_app, count_occ_replicate.
    rewrite length_app. simpl. unfold bets_at.
    destruct (decide (length (trader_heap w) = t)) as [<-|Hne].
    + rewrite decide_False by lia. rewrite decide_True by lia.
      by rewrite Nat.sub_diag, Nat.add_0_r.
    + destruct (decide (length (trader_heap w) + 1 ≤ t)) as [Hle|Hgt].
      * rewrite decide_True by lia.
        replace (t - length (trader_heap w))
          with (S (t - (length (trader_heap w) + 1))) by lia.
        simpl. lia.
      * by rewrite decide_False by lia.
Qed.

(** In the store that [generate_traders] leaves, a new trader is on the
    notification list of a fresh exchange exactly as many times as its
    window names that exchange: once per bet.  Nothing else of the exchange
    is changed. *)
Theorem registered_once_per_bet p w exchanges e ex t tr :
  exchange_heap w !! e = Some ex → Exchange.traders ex = [] →
  trader_heap (generate_traders p w exchanges).1 !! t = Some tr →
  length (trader_heap w) ≤ t →
  ∃ ex',
    exchange_heap (generate_traders p w exchanges).1 !! e = Some ex'
    ∧ Exchange.z ex' = Exchange.z ex
    ∧ Exchange.is_dead ex' = Exchange.is_dead ex
    ∧ Exchange.premium ex' = Exchange.premium ex
    ∧ count_occ Nat.eq_dec (Exchange.traders ex') t
      = count_occ Nat.eq_dec (Trader.exchanges tr) e.
Proof.
  intros Hex Hfresh Htr Hnew.
  set (sets := contiguous_sublists_size_n (exchanges_perm p exchanges)
                                          (BETS_PER_TRADER p)).
  destruct (make_traders_registrations p sets sets [] w [] eq_refl e ex Hex)
    as (ex' & Hex' & Hz & Hd & Hp & Hcount).
  exists ex'. split; [exact Hex'|]. split; [done|]. split; [done|].
  split; [done|].
  rewrite Hcount, Hfresh. simpl. unfold bets_at.
  rewrite decide_True by done.
  destruct (generate_traders_spec p w exchanges) as (w1 & Hg & Hheap & _).
  rewrite Hg in Htr. simpl in Htr. rewrite Hheap in Htr.
  rewrite lookup_app_r in Htr by done.
  rewrite list_lookup_imap in Htr. fold sets in Htr.
  destruct (sets !! (t - length (trader_heap w))) as [s|]; [|done].
  simpl in Htr. by injection Htr as <-.
Qed.

Lemma registered_once_per_bet_witness :
  ∃ ex tr ex',
    exchange_heap source_exchanges !! 1 = Some ex
    ∧ Exchange.traders ex = []
    ∧ trader_heap
        (generate_traders source_params source_exchanges (seq 0 8)).1 !! 2
      = Some tr
    ∧ exchange_heap
        (generate_traders source_params source_exchanges (seq 0 8)).1 !! 1
      = Some ex'
    ∧ count_occ Nat.eq_dec (Exchange.traders ex') 2
      = count_occ Nat.eq_dec (Trader.exchanges tr) 1.
Proof.
  destruct (exchange_heap source_exchanges !! 1) as [ex|] eqn:Hex;
    [|vm_compute in Hex; discriminate Hex].
  destruct (trader_heap
              (generate_traders source_params source_exchanges (seq 0 8)).1
              !! 2) as [tr|] eqn:Htr;
    [|vm_compute in Htr; discriminate Htr].
  assert (Exchange.traders ex = []) as Hfresh.
  { assert (Exchange.traders <$> exchange_heap source_exchanges !! 1
            = Some []) as H by (vm_compute; reflexivity).
    rewrite Hex in H. injection H as H. exact H. }
  assert (length (trader_heap source_exchanges) ≤ 2) as Hnew
    by (vm_compute; repeat constructor).
  destruct (registered_once_per_bet source_params source_exchanges (seq 0 8)
              1 ex 2 tr Hex Hfresh Htr Hnew)
    as (ex' & Hex' & _ & _ & _ & Hc).
  exists ex, tr, ex'.
  split; [reflexivity|]. split; [exact Hfresh|]. split; [reflexivity|].
  split; [exact Hex'|exact Hc].
Defined.

(** ** Payoffs *)

(** The notification loop applies [receive_payoff] to a trader once for each
    time it is on the list. *)
Lemma alter_all_lookup {X} (f : X → X) (l : list nat) (ts : list X) t :
  foldl (λ ts t', alter f t' ts) ts l !! t
  = Nat.iter (count_occ Nat.eq_dec l t) f <$> ts !! t.
Proof.
  revert ts. induction l as [|x l IH]; intros ts.
  - simpl. by destruct (ts !! t).
  - simpl foldl. rewrite IH, list_lookup_alter. simpl count_occ.
    destruct (decide (x = t)) as [->|Hne], (Nat.eq_dec _ t) as [?|?];
      try done.
    destruct (ts !! t) as [y|]; simpl; [|done].
    f_equal. symmetry. apply Nat.iter_succ_r.
Qed.

(** ** [record_balances] and [receive_payoff] as a whole *)

(** [record_balances] clamps the balance of every risk parameter the trader
    holds and appends it to that series, once each, and touches no other
    balance, no other series and no other field. *)
Theorem record_balances_clamps_what_is_held heap tr zv :
  let tr' := Trader.record_balances heap tr in
  let b := dd_get 0%Q (Trader.account_balance tr) zv in
  (zv ∈ Trader.held heap tr →
     dd_get 0%Q (Trader.account_balance tr') zv = clamp b
     ∧ (0 <= dd_get 0%Q (Trader.account_balance tr') zv)%Q
     ∧ Trader.account_series tr' !! zv
       = Some (dd_get [] (Trader.account_series tr) zv ++ [clamp b]))
  ∧ (zv ∉ Trader.held heap tr →
     dd_get 0%Q (Trader.account_balance tr') zv = b
     ∧ Trader.account_series tr' !! zv = Trader.account_series tr !! zv)
  ∧ Trader.tick tr' = Trader.tick tr
  ∧ Trader.exchanges tr' = Trader.exchanges tr
  ∧ Trader.trader_id tr' = Trader.trader_id tr.
Proof.
  cbv zeta. destruct (record_balances_effect heap tr zv) as [Hb Hs].
  destruct (record_fold_fields (Trader.held heap tr) tr) as (Hx & Ht & Hi).
  split; [|split].
  - intros Hin.
    destruct (decide (zv ∈ Trader.held heap tr)) as [_|Hn]; [|done].
    rewrite Hb. split; [done|]. split; [apply clamp_nonneg|done].
  - intros Hnin.
    by destruct (decide (zv ∈ Trader.held heap tr)) as [?|_].
  - done.
Qed.

Lemma receive_payoff_grows heap zv payoff tk tr :
  grows tr (Trader.receive_payoff heap zv payoff tk tr).
Proof.
  split; [|split; [|split]].
  - unfold Trader.receive_payoff, Trader.record_balances.
    destruct (Trader.tick tr <? tk)%Z; simpl; [|done].
    apply record_fold_fields.
  - apply receive_payoff_exchanges.
  - rewrite receive_payoff_tick.
    destruct (Z.ltb_spec (Trader.tick tr) tk); lia.
  - intros k. unfold Trader.receive_payoff.
    destruct (Trader.tick tr <? tk)%Z; simpl; [|done].
    destruct (record_balances_effect heap tr k) as [_ Hs].
    unfold dd_get at 2. rewrite Hs.
    destruct (decide (k ∈ Trader.held heap tr)); simpl.
    + by apply prefix_app_r.
    + done.
Qed.

Lemma grows_refl tr : grows tr tr.
Proof. split; [done|]. split; [done|]. split; [lia|done]. Qed.

Lemma grows_trans a b c : grows a b → grows b c → grows a c.
Proof.
  intros (Hi & Hx & Ht & Hs) (Hi' & Hx' & Ht' & Hs').
  split; [congruence|]. split; [congruence|]. split; [lia|].
  intros k. destruct (Hs k) as [k1 H1], (Hs' k) as [k2 H2].
  exists (k1 ++ k2). by rewrite H2, H1, <- app_assoc.
Qed.

(** The notification loop relates every trader to what it was, for every
    relation that one notification respects. *)
Lemma alter_all_related {X} (rel : X → X → Prop) (f : X → X) :
  (∀ x, rel x x) → (∀ x y z, rel x y → rel y z → rel x z) →
  (∀ x, rel x (f x)) →
  ∀ (l : list nat) ts, Forall2 rel ts (foldl (λ ts t, alter f t ts) ts l).
Proof.
  intros Hrefl Htrans Hf l.
  induction l as [|t l IH]; intros ts; simpl.
  - apply Forall2_same_length_lookup_2; [done|].
    intros i x y Hx Hy. rewrite Hx in Hy. by injection Hy as <-.
  - eapply Forall2_trans; [exact Htrans| |apply IH].
    apply Forall2_same_length_lookup_2; [by rewrite length_alter|].
    intros i x y Hx Hy. rewrite list_lookup_alter in Hy.
    destruct (decide (t = i)) as [->|Hne].
    + rewrite Hx in Hy. simpl in Hy. by injection Hy as <-.
    + rewrite Hx in Hy. by injection Hy as <-.
Qed.

Lemma Exchange_tick_grows p w e tk g w' g' :
  Exchange_tick p w e tk g = Some (w', g') →
  Forall2 grows (trader_heap w) (trader_heap w').
Proof.
  intros [(_ & -> & _)|(ex & payoff & dead & Hex & Hd & ->)]%Exchange_tick_spec.
  - apply Forall2_same_length_lookup_2; [done|].
    intros i x y Hx Hy. rewrite Hx in Hy. injection Hy as <-.
    apply grows_refl.
  - rewrite notify_all_traders. simpl.
    apply alter_all_related;
      [apply grows_refl|apply grows_trans|intros; apply receive_payoff_grows].
Qed.

(** The draw of an exchange, when [randint] accepts its range. *)
Lemma randint_value (high : Z) g r g1 :
  randint 0 high g = Some (r, g1) →
  (0 < high <= 2 ^ 63)%Z
  ∧ r = (uniform_tape g (uniform_read g) `mod` high)%Z
  ∧ g1 = mkRandom (uniform_tape g) (normal_tape g)
                  (S (uniform_read g)) (normal_read g).
Proof.
  intros Hr. split; [apply (randint_defined high g); by eexists|].
  unfold randint in Hr.
  destruct (_ && _ && _); [|done]. injection Hr as <- <-.
  by rewrite Z.add_0_l, Z.sub_0_r.
Qed.

(** [tick] raises exactly when the exchange is alive and either numpy
    refuses the range [0 .. z ** RUIN_DECAY) of the uniform draw, because it
    is empty or its bound is above 2^63, or the exchange survives the draw
    and RETURN_STD is negative; a dead exchange never raises. *)
Theorem tick_raises_iff p w e tk g :
  Exchange_tick p w e tk g = None
  ↔ ∃ ex, exchange_heap w !! e = Some ex
        ∧ Exchange.is_dead ex = false
        ∧ ((Exchange.z ex ^ Z.of_nat (RUIN_DECAY p) ≤ 0)%Z
           ∨ (2 ^ 63 < Exchange.z ex ^ Z.of_nat (RUIN_DECAY p))%Z
           ∨ ((RETURN_STD p < 0)%Q
              ∧ (uniform_tape g (uniform_read g)
                 `mod` Exchange.z ex ^ Z.of_nat (RUIN_DECAY p))%Z ≠ 0%Z)).
Proof.
  unfold Exchange_tick.
  destruct (exchange_heap w !! e) as [ex|]; [|split; [done|]];
    [|by intros (? & ? & _)].
  unfold Exchange.draw_payoff.
  destruct (Exchange.is_dead ex) eqn:Hdead;
    [split; [done|]; intros (? & [= <-] & ? & _); congruence|].
  set (high := (Exchange.z ex ^ Z.of_nat (RUIN_DECAY p))%Z).
  destruct (randint 0 high g) as [[r g1]|] eqn:Hr.
  - apply randint_value in Hr as (Hhigh & -> & ->). simpl.
    destruct (Z.eqb_spec (uniform_tape g (uniform_read g) `mod` high) 0)
      as [H0|Hne].
    + split; [done|].
      intros (ex' & [= <-] & _ & [?|[?|[_ ?]]]); unfold high in *;
        (lia || done).
    + destruct (normal _ (RETURN_STD p) _) as [[x g2]|] eqn:Hn; simpl.
      * split; [done|].
        intros (ex' & [= <-] & _ & [?|[?|[Hstd _]]]); unfold high in *;
          [lia|lia|].
        assert (0 <= RETURN_STD p)%Q as Hok
          by (eapply normal_defined; by eexists).
        destruct (Qlt_not_le _ _ Hstd Hok).
      * split; [|done]. intros _. exists ex. split; [done|]. split; [done|].
        right. right. split; [|done].
        apply Qnot_le_lt. intros Hok.
        apply (normal_defined
                 (Q2R (RETURN_MEAN p) + Exchange.premium ex)) with (g := 
                 mkRandom (uniform_tape g) (normal_tape g)
                          (S (uniform_read g)) (normal_read g)) in Hok.
        rewrite Hn in Hok. by destruct Hok.
  - simpl. split; [|done]. intros _. exists ex. split; [done|].
    split; [done|].
    destruct (decide (0 < high <= 2 ^ 63)%Z) as [Hok|Hbad].
    + apply (randint_defined high g) in Hok. rewrite Hr in Hok.
      by destruct Hok.
    + unfold high in *. lia.
Qed.

(** A run of the simulation changes nothing of an exchange but [is_dead],
    and that only from false to true; it adds and removes no object; every
    trader keeps its identity and its allocations, its checkpoint never goes
    back, and every balance series is only ever appended to. *)
Theorem run_simulation_is_append_only p w exchanges steps g w' g' :
  run_simulation p w exchanges steps g = Some (w', g') →
  length (exchange_heap w') = length (exchange_heap w)
  ∧ length (trader_heap w') = length (trader_heap w)
  ∧ (∀ e ex, exchange_heap w !! e = Some ex →
       ∃ ex', exchange_heap w' !! e = Some ex' ∧ same_but_deader ex ex')
  ∧ (∀ t tr, trader_heap w !! t = Some tr →
       ∃ tr', trader_heap w' !! t = Some tr' ∧ grows tr tr').
Proof.
  intros Hrun.
  pose proof (run_simulation_evolves _ _ _ _ _ _ _ Hrun) as Hev.
  assert (Forall2 grows (trader_heap w) (trader_heap w')) as Hgrow.
  { unfold run_simulation in Hrun.
    apply (for_each_relates
             (λ s s', Forall2 grows (trader_heap s.1) (trader_heap s'.1)))
      in Hrun; [done|..].
    - intros s. apply Forall2_same_length_lookup_2; [done|].
      intros i x y Hx Hy. rewrite Hx in Hy. injection Hy as <-.
      apply grows_refl.
    - intros s1 s2 s3. apply Forall2_trans. apply grows_trans.
    - intros s i s' Hstep.
      apply (for_each_relates
               (λ s s', Forall2 grows (trader_heap s.1) (trader_heap s'.1)))
        in Hstep; [done|..].
      + intros s0. apply Forall2_same_length_lookup_2; [done|].
        intros j x y Hx Hy. rewrite Hx in Hy. injection Hy as <-.
        apply grows_refl.
      + intros s1 s2 s3. apply Forall2_trans. apply grows_trans.
      + intros [w1 g1] e0 [w2 g2]. apply Exchange_tick_grows. }
  split; [symmetry; apply (Forall2_length _ _ _ (proj1 Hev))|].
  split; [apply Hev|]. split.
  - intros e ex Hex. by apply (evolves_lookup w w').
  - intros t tr Htr. by eapply Forall2_lookup_l.
Qed.

Lemma run_simulation_is_append_only_witness :
  ∃ w' g',
    run_simulation source_params
      (generate_traders source_params source_exchanges (seq 0 8)).1
      (seq 0 8) 3 windfall_then_ruin = Some (w', g')
    ∧ length (trader_heap w')
      = length (trader_heap
                  (generate_traders source_params source_exchanges
                                    (seq 0 8)).1).
Proof.
  destruct (run_simulation source_params
              (generate_traders source_params source_exchanges (seq 0 8)).1
              (seq 0 8) 3 windfall_then_ruin) as [[w' g']|] eqn:Hrun;
    [|vm_compute in Hrun; discriminate Hrun].
  exists w', g'. split; [reflexivity|].
  exact (proj1 (proj2 (run_simulation_is_append_only _ _ _ _ _ _ _ Hrun))).
Defined.

(** ** After the ruin *)

(** The balance [receive_payoff] leaves at any risk parameter. *)
Lemma receive_payoff_balance_at heap zv payoff tk tr k :
  dd_get 0%Q
    (Trader.account_balance (Trader.receive_payoff heap zv payoff tk tr)) k
  = if decide (zv = k)
    then (opening_balance heap tk tr k + payoff)%Q
    else opening_balance heap tk tr k.
Proof.
  destruct (decide (zv = k)) as [<-|Hne].
  - by rewrite receive_payoff_balance.
  - unfold Trader.receive_payoff, opening_balance.
    destruct (Trader.tick tr <? tk)%Z; simpl;
      rewrite dd_get_insert_ne by done; [|done].
    by destruct (record_balances_effect heap tr k) as [-> _].
Qed.

Lemma receive_payoff_series_at heap zv payoff tk tr k :
  dd_get [] (Trader.account_series
               (Trader.receive_payoff heap zv payoff tk tr)) k
  = dd_get [] (Trader.account_series tr) k
    ++ (if (Trader.tick tr <? tk)%Z
        then (if decide (k ∈ Trader.held heap tr)
              then [clamp (dd_get 0%Q (Trader.account_balance tr) k)]
              else [])
        else []).
Proof.
  unfold Trader.receive_payoff.
  destruct (Trader.tick tr <? tk)%Z; simpl; [|by rewrite app_nil_r].
  destruct (record_balances_effect heap tr k) as [_ Hs].
  unfold dd_get at 1. rewrite Hs.
  destruct (decide (k ∈ Trader.held heap tr)); simpl; [done|].
  by rewrite app_nil_r.
Qed.

Lemma stays_ruined_refl zv tr : stays_ruined zv tr tr.
Proof.
  intros Hb. split; [done|]. exists []. by rewrite app_nil_r.
Qed.

Lemma stays_ruined_trans zv a b c :
  stays_ruined zv a b → stays_ruined zv b c → stays_ruined zv a c.
Proof.
  intros Hab Hbc Ha. destruct (Hab Ha) as (Hb & l1 & H1 & F1).
  destruct (Hbc Hb) as (Hc & l2 & H2 & F2).
  split; [done|]. exists (l1 ++ l2).
  split; [by rewrite H2, H1, <- app_assoc|by apply Forall_app].
Qed.

(** A payoff that is 0 whenever it is for [zv] leaves a ruined balance
    ruined. *)
Lemma receive_payoff_stays_ruined heap zv kz payoff tk tr :
  (kz = zv → (payoff == 0)%Q) →
  stays_ruined zv tr (Trader.receive_payoff heap kz payoff tk tr).
Proof.
  intros Hpay Hb.
  assert (opening_balance heap tk tr zv <= 0)%Q as Hopen.
  { unfold opening_balance. destruct (Trader.tick tr <? tk)%Z; [|done].
    destruct (decide _); [|done]. rewrite clamp_nonpos by done.
    apply Qle_refl. }
  split.
  - rewrite receive_payoff_balance_at.
    destruct (decide (kz = zv)) as [Heq|_]; [|done].
    rewrite (Hpay Heq). lraQ.
  - eexists. split; [apply receive_payoff_series_at|].
    destruct (Trader.tick tr <? tk)%Z; [|constructor].
    destruct (decide _); [|constructor].
    repeat constructor. symmetry. by apply clamp_nonpos.
Qed.

Lemma all_dead_at_evolves zv w w' :
  evolves w w' → all_dead_at zv (exchange_heap w) →
  all_dead_at zv (exchange_heap w').
Proof.
  intros [Hev _] Hdead e ex' Hex' Hz.
  destruct (Forall2_lookup_r _ _ _ _ _ Hev Hex')
    as (ex & Hex & Hzz & _ & _ & Hmono).
  apply Hmono, (Hdead e ex Hex). congruence.
Qed.

Lemma Exchange_tick_stays_ruined p zv w e tk g w' g' :
  all_dead_at zv (exchange_heap w) →
  Exchange_tick p w e tk g = Some (w', g') →
  Forall2 (stays_ruined zv) (trader_heap w) (trader_heap w').
Proof.
  intros Hdead
    [(_ & -> & _)|(ex & payoff & dead & Hex & Hd & ->)]%Exchange_tick_spec.
  - apply Forall2_same_length_lookup_2; [done|].
    intros i x y Hx Hy. rewrite Hx in Hy. injection Hy as <-.
    apply stays_ruined_refl.
  - rewrite notify_all_traders. simpl.
    apply alter_all_related;
      [apply stays_ruined_refl|apply stays_ruined_trans|].
    intros tr. apply receive_payoff_stays_ruined. intros Hz.
    specialize (Hdead e ex Hex Hz).
    apply draw_payoff_cases in Hd
      as [(_ & -> & _)|[(H & _)|(H & _)]]; [reflexivity|congruence..].
Qed.

(** Ruin is permanent in the history: once every exchange with a given risk
    parameter is dead, a trader whose balance for it is not positive keeps
    such a balance through any run, and every entry the run appends to that
    series is 0. *)
Theorem ruin_is_recorded_forever p w exchanges steps g w' g' zv t tr :
  all_dead_at zv (exchange_heap w) →
  run_simulation p w exchanges steps g = Some (w', g') →
  trader_heap w !! t = Some tr →
  (dd_get 0 (Trader.account_balance tr) zv <= 0)%Q →
  all_dead_at zv (exchange_heap w')
  ∧ ∃ tr' later,
      trader_heap w' !! t = Some tr'
      ∧ (dd_get 0 (Trader.account_balance tr') zv <= 0)%Q
      ∧ dd_get [] (Trader.account_series tr') zv
        = dd_get [] (Trader.account_series tr) zv ++ later
      ∧ Forall (Qeq 0) later.
Proof.
  intros Hdead Hrun Htr Hb.
  pose proof (run_simulation_evolves _ _ _ _ _ _ _ Hrun) as Hev.
  split; [by eapply all_dead_at_evolves|].
  assert (Forall2 (stays_ruined zv) (trader_heap w) (trader_heap w'))
    as Hall.
  { unfold run_simulation in Hrun. revert Hdead.
    apply (for_each_relates
             (λ s s', evolves s.1 s'.1
                      ∧ (all_dead_at zv (exchange_heap s.1) →
                         Forall2 (stays_ruined zv) (trader_heap s.1)
                                 (trader_heap s'.1))))
      in Hrun; [apply Hrun|..].
    - intros s. split; [apply evolves_refl|]. intros _.
      apply Forall2_same_length_lookup_2; [done|].
      intros i x y Hx Hy. rewrite Hx in Hy. injection Hy as <-.
      apply stays_ruined_refl.
    - intros s1 s2 s3 [E12 H12] [E23 H23].
      split; [by eapply evolves_trans|]. intros Hd1.
      eapply Forall2_trans; [apply stays_ruined_trans|by apply H12|].
      apply H23. by eapply all_dead_at_evolves.
    - intros s i s' Hstep.
      apply (for_each_relates
               (λ s s', evolves s.1 s'.1
                        ∧ (all_dead_at zv (exchange_heap s.1) →
                           Forall2 (stays_ruined zv) (trader_heap s.1)
                                   (trader_heap s'.1))))
        in Hstep; [apply Hstep|..].
      + intros s0. split; [apply evolves_refl|]. intros _.
        apply Forall2_same_length_lookup_2; [done|].
        intros j x y Hx Hy. rewrite Hx in Hy. injection Hy as <-.
        apply stays_ruined_refl.
      + intros s1 s2 s3 [E12 H12] [E23 H23].
        split; [by eapply evolves_trans|]. intros Hd1.
        eapply Forall2_trans; [apply stays_ruined_trans|by apply H12|].
        apply H23. by eapply all_dead_at_evolves.
      + intros [w1 g1] e0 [w2 g2] Htick.
        split; [by eapply Exchange_tick_evolves|]. intros Hd1.
        by eapply Exchange_tick_stays_ruined. }
  destruct (Forall2_lookup_l _ _ _ _ _ Hall Htr) as (tr' & Htr' & Hrel).
  destruct (Hrel Hb) as (Hb' & later & Hs & Hz).
  by exists tr', later.
Qed.

Lemma all_dead_at_check zv heap :
  forallb (λ ex, implb (Exchange.z ex =? zv)%Z (Exchange.is_dead ex)) heap
  = true →
  all_dead_at zv heap.
Proof.
  intros Hall e ex Hex Hz.
  rewrite forallb_forall in Hall.
  specialize (Hall ex). rewrite Hz, Z.eqb_refl in Hall. simpl in Hall.
  apply Hall, list_elem_of_In. by eapply list_elem_of_lookup_2.
Qed.

(** After the step in which every exchange of the source is ruined, two
    more steps append only zeros to the first trader's series. *)
Lemma ruin_is_recorded_forever_witness :
  ∃ tr w' g' tr' later,
    trader_heap all_ruined.1 !! 0 = Some tr
    ∧ (dd_get 0 (Trader.account_balance tr) 30 <= 0)%Q
    ∧ run_simulation source_params all_ruined.1 (seq 0 8) 2
                     windfall_then_ruin = Some (w', g')
    ∧ trader_heap w' !! 0 = Some tr'
    ∧ dd_get [] (Trader.account_series tr') 30
      = dd_get [] (Trader.account_series tr) 30 ++ later
    ∧ Forall (Qeq 0) later.
Proof.
  assert (all_dead_at 30 (exchange_heap all_ruined.1)) as Hdead
    by (apply all_dead_at_check; vm_compute; reflexivity).
  destruct (trader_heap all_ruined.1 !! 0) as [tr|] eqn:Htr;
    [|vm_compute in Htr; discriminate Htr].
  destruct (run_simulation source_params all_ruined.1 (seq 0 8) 2
                           windfall_then_ruin) as [[w' g']|] eqn:Hrun;
    [|vm_compute in Hrun; discriminate Hrun].
  assert (dd_get 0 (Trader.account_balance tr) 30 <= 0)%Q as Hb.
  { assert ((λ x, Qle_bool (dd_get 0%Q (Trader.account_balance x) 30) 0)
              <$> trader_heap all_ruined.1 !! 0 = Some true) as H
      by (vm_compute; reflexivity).
    rewrite Htr in H. injection H as H. by apply Qle_bool_iff. }
  destruct (ruin_is_recorded_forever source_params all_ruined.1 (seq 0 8) 2
              windfall_then_ruin w' g' 30 0 tr Hdead Hrun Htr Hb)
    as (_ & tr' & later & Htr' & _ & Hs & Hz).
  exists tr, w', g', tr', later.
  split; [reflexivity|]. split; [exact Hb|]. split; [reflexivity|].
  split; [exact Htr'|]. split; [exact Hs|exact Hz].
Defined.

(** When every exchange on the list is dead, a run cannot raise, draws
    nothing from the random source and leaves the exchanges as they are. *)
Theorem dead_run_draws_nothing p w exchanges steps g :
  (∀ e ex, e ∈ exchanges → exchange_heap w !! e = Some ex →
     Exchange.is_dead ex = true) →
  ∃ w', run_simulation p w exchanges steps g = Some (w', g)
      ∧ exchange_heap w' = exchange_heap w.
Proof.
  intros Hdead. unfold run_simulation.
  destruct (for_each_prefix_inv
              (λ s i,
                 for_each (λ '(w', g') e,
                             Exchange_tick p w' e (Z.of_nat i) g')
                          s exchanges)
              (λ _ s, exchange_heap s.1 = exchange_heap w ∧ s.2 = g)
              (seq 0 steps)) with (s := (w, g))
    as ([w' g'] & Hrun & Hheap & Hg).
  - intros pre i post s _ Hs.
    apply (for_each_prefix_inv
             (λ '(w', g') e, Exchange_tick p w' e (Z.of_nat i) g')
             (λ _ s, exchange_heap s.1 = exchange_heap w ∧ s.2 = g)
             exchanges); [|done].
    intros pre' e post' [w1 g1] Hl [Hh1 Hg1]. simpl in Hh1, Hg1. subst g1.
    destruct (exchange_heap w1 !! e) as [ex|] eqn:Hex.
    + assert (Exchange.is_dead ex = true) as Hd.
      { apply (Hdead e); [|by rewrite <- Hh1].
        rewrite Hl. apply elem_of_app. right. apply list_elem_of_here. }
      rewrite (dead_tick p w1 e ex _ g Hex Hd). eexists. split; [done|].
      simpl. by rewrite notify_all_exchanges.
    + exists (w1, g). unfold Exchange_tick. rewrite Hex. done.
  - done.
  - simpl in Hheap, Hg. subst g'. by exists w'.
Qed.

Lemma dead_run_draws_nothing_witness :
  ∃ w', run_simulation source_params all_ruined.1 (seq 0 8) 5
                       windfall_then_ruin = Some (w', windfall_then_ruin)
      ∧ exchange_heap w' = exchange_heap all_ruined.1.
Proof.
  apply (dead_run_draws_nothing source_params all_ruined.1 (seq 0 8) 5).
  intros e ex _ Hex.
  assert (Exchange.is_dead <$> exchange_heap all_ruined.1
          = replicate 8 true) as Hall by (vm_compute; reflexivity).
  assert ((Exchange.is_dead <$> exchange_heap all_ruined.1) !! e
          = Some (Exchange.is_dead ex)) as He
    by (rewrite list_lookup_fmap, Hex; reflexivity).
  rewrite Hall in He. apply lookup_replicate in He.
  exact (proj1 He).
Defined.

(** ** What a [tick] tells the traders *)

Lemma Qplus_0_r_eq (b : Q) : (b + 0)%Q = b.
Proof.
  destruct b as [n d]. unfold Qplus. simpl.
  by rewrite Z.mul_1_r, Z.add_0_r, Pos.mul_1_r.
Qed.

Lemma iter_add_zero (n : nat) (b : Q) :
  Nat.iter n (λ x, (x + 0)%Q) b = b.
Proof. induction n as [|n IH]; simpl; [done|]. by rewrite IH, Qplus_0_r_eq. Qed.

(** Once the trader has seen step [tk], a payoff of that step changes one
    balance and nothing else. *)
Lemma receive_payoff_settled_all heap zv payoff tk (n : nat) tr :
  (tk ≤ Trader.tick tr)%Z →
  let tr' := Nat.iter n (Trader.receive_payoff heap zv payoff tk) tr in
  Trader.trader_id tr' = Trader.trader_id tr
  ∧ Trader.exchanges tr' = Trader.exchanges tr
  ∧ Trader.tick tr' = Trader.tick tr
  ∧ Trader.account_series tr' = Trader.account_series tr
  ∧ ∀ k, dd_get 0%Q (Trader.account_balance tr') k
         = if decide (k = zv)
           then Nat.iter n (λ b, (b + payoff)%Q)
                         (dd_get 0%Q (Trader.account_balance tr) k)
           else dd_get 0%Q (Trader.account_balance tr) k.
Proof.
  intros Htk. induction n as [|n (IHi & IHx & IHt & IHs & IHb)]; cbv zeta.
  - simpl. repeat (split; [done|]). intros k. by destruct (decide (k = zv)).
  - cbv zeta in IHi, IHx, IHt, IHs, IHb. rewrite Nat.iter_succ.
    set (tr1 := Nat.iter n _ tr) in *.
    assert ((Trader.tick tr1 <? tk)%Z = false) as Hno
      by (apply Z.ltb_ge; lia).
    destruct (receive_payoff_grows heap zv payoff tk tr1) as (Hi & Hx & _).
    split; [congruence|]. split; [congruence|].
    split; [by rewrite receive_payoff_tick, Hno|].
    split; [unfold Trader.receive_payoff; by rewrite Hno|].
    intros k. rewrite receive_payoff_balance_at. unfold opening_balance.
    rewrite Hno, IHb.
    destruct (decide (zv = k)) as [Heq|Hne],
             (decide (k = zv)) as [Heq'|Hne']; congruence || done.
Qed.

(** [n] calls of [receive_payoff] for one step, as [notified] words them. *)
Lemma notified_iter heap zv payoff tk (n : nat) tr :
  notified heap zv payoff tk n tr
           (Nat.iter n (Trader.receive_payoff heap zv payoff tk) tr).
Proof.
  destruct n as [|m]; [done|]. rewrite Nat.iter_succ_r.
  set (tr1 := Trader.receive_payoff heap zv payoff tk tr).
  assert (Trader.tick tr1 = Z.max (Trader.tick tr) tk) as Htick.
  { unfold tr1. rewrite receive_payoff_tick.
    destruct (Z.ltb_spec (Trader.tick tr) tk); lia. }
  destruct (receive_payoff_settled_all heap zv payoff tk m tr1)
    as (Hi & Hx & Ht & Hs & Hb); [lia|].
  cbv zeta in Hi, Hx, Ht, Hs, Hb.
  destruct (receive_payoff_grows heap zv payoff tk tr) as (Hi1 & Hx1 & _).
  fold tr1 in Hi1, Hx1.
  split; [congruence|]. split; [congruence|]. split; [congruence|]. split.
  - intros k. rewrite Hs. unfold tr1, Trader.receive_payoff.
    destruct (Trader.tick tr <? tk)%Z; simpl; [|done].
    destruct (record_balances_effect heap tr k) as [_ ->].
    destruct (decide (k ∈ Trader.held heap tr)) as [Hin|Hout].
    + by rewrite bool_decide_eq_true_2.
    + by rewrite bool_decide_eq_false_2.
  - intros k. rewrite Hb. unfold tr1. rewrite receive_payoff_balance_at.
    destruct (decide (zv = k)) as [Heq|Hne],
             (decide (k = zv)) as [Heq'|Hne']; try congruence.
    symmetry. apply (Nat.iter_succ_r m (λ b, (b + payoff)%Q)).
Qed.

(** The notification loop of [tick], trader by trader. *)
Lemma notify_all_notified zv payoff tk (l : list nat) w t tr :
  trader_heap w !! t = Some tr →
  ∃ tr', trader_heap (foldl (notify zv payoff tk) w l) !! t = Some tr'
       ∧ notified (exchange_heap w) zv payoff tk
                  (count_occ Nat.eq_dec l t) tr tr'.
Proof.
  intros Htr. rewrite notify_all_traders, alter_all_lookup, Htr.
  eexists. split; [reflexivity|]. apply notified_iter.
Qed.

(** [notified] reads the exchanges only for their risk parameters. *)
Lemma notified_ext heap1 heap2 zv payoff tk n tr tr' :
  Exchange.z <$> heap1 = Exchange.z <$> heap2 →
  notified heap1 zv payoff tk n tr tr' → notified heap2 zv payoff tk n tr tr'.
Proof.
  intros Hz. unfold notified, opening_balance.
  by rewrite (held_ext heap1 heap2 tr Hz).
Qed.

(** One [tick] tells a trader its payoff once for each time the trader is
    on the exchange's list.  A trader that is not on the list is left as it
    was.  A trader that is has its balances recorded first if the step is
    new to it, its checkpoint moved to the step, and the payoff added to
    its balance at the exchange's risk parameter once per registration, one
    addition after the other, starting from the balance it opened the step
    with; no other balance changes.  The additions are stated in the order
    the code makes them, so the statement does not depend on how an
    addition rounds. *)
Theorem tick_pays_once_per_registration p w e tk g w' g' ex t tr :
  Exchange_tick p w e tk g = Some (w', g') →
  exchange_heap w !! e = Some ex → trader_heap w !! t = Some tr →
  ∃ payoff dead tr',
    Exchange.draw_payoff p ex g = Some (payoff, dead, g')
    ∧ trader_heap w' !! t = Some tr'
    ∧ notified (exchange_heap w) (Exchange.z ex) payoff tk
               (count_occ Nat.eq_dec (Exchange.traders ex) t) tr tr'.
Proof.
  intros Htick Hex Htr.
  pose proof (Exchange_tick_evolves _ _ _ _ _ _ _ Htick) as Hev.
  apply Exchange_tick_spec in Htick
    as [(Hnone & _)|(ex' & payoff & dead & Hex' & Hdraw & ->)];
    [congruence|].
  rewrite Hex in Hex'. injection Hex' as <-.
  apply evolves_z in Hev. rewrite notify_all_exchanges in Hev.
  simpl in Hev.
  set (w1 := {| exchange_heap :=
                  <[e := Exchange.set_dead dead ex]> (exchange_heap w);
                trader_heap := trader_heap w |}) in *.
  destruct (notify_all_notified (Exchange.z ex) payoff tk
              (Exchange.traders ex) w1 t tr Htr) as (tr' & Htr' & Hn).
  exists payoff, dead, tr'. split; [exact Hdraw|]. split; [exact Htr'|].
  by apply (notified_ext (exchange_heap w1)).
Qed.

(** At step 0 the first trader of the source is on the list of the riskiest
    exchange twice; the exchange is ruined by its first draw. *)
Lemma tick_pays_once_per_registration_witness :
  ∃ w' g' ex tr payoff dead tr',
    Exchange_tick source_params
      (generate_traders source_params source_exchanges (seq 0 8)).1 0 0
      ruin_at_once = Some (w', g')
    ∧ Exchange.draw_payoff source_params ex ruin_at_once
      = Some (payoff, dead, g')
    ∧ trader_heap w' !! 0 = Some tr'
    ∧ notified
        (exchange_heap
           (generate_traders source_params source_exchanges (seq 0 8)).1)
        (Exchange.z ex) payoff 0
        (count_occ Nat.eq_dec (Exchange.traders ex) 0) tr tr'.
Proof.
  set (w := (generate_traders source_params source_exchanges (seq 0 8)).1).
  destruct (Exchange_tick source_params w 0 0 ruin_at_once)
    as [[w' g']|] eqn:Htick; [|vm_compute in Htick; discriminate Htick].
  destruct (exchange_heap w !! 0) as [ex|] eqn:Hex;
    [|vm_compute in Hex; discriminate Hex].
  destruct (trader_heap w !! 0) as [tr|] eqn:Htr;
    [|vm_compute in Htr; discriminate Htr].
  destruct (tick_pays_once_per_registration source_params w 0 0
              ruin_at_once w' g' ex 0 tr Htick Hex Htr)
    as (payoff & dead & tr' & Hd & Htr' & Hpay).
  exists w', g', ex, tr, payoff, dead, tr'.
  split; [reflexivity|]. split; [exact Hd|]. split; [exact Htr'|].
  exact Hpay.
Defined.

Lemma count_occ_elem (l : list nat) t :
  t ∈ l ↔ 1 ≤ count_occ Nat.eq_dec l t.
Proof.
  rewrite list_elem_of_In, (count_occ_In Nat.eq_dec). unfold gt. lia.
Qed.

(** The [tick] of a dead exchange. *)
Lemma dead_ticks_zero p w e ex tk g :
  exchange_heap w !! e = Some ex → Exchange.is_dead ex = true →
  ticks_zero p w e ex tk g.
Proof.
  intros Hex Hdead.
  exists (foldl (notify (Exchange.z ex) 0 tk) w (Exchange.traders ex)).
  split; [by apply dead_tick|].
  split; [apply notify_all_exchanges|].
  split; [rewrite notify_all_traders; apply alter_all_length|].
  intros t tr Htr.
  destruct (notify_all_notified (Exchange.z ex) 0 tk (Exchange.traders ex)
              w t tr Htr) as (tr' & Htr' & Hn).
  exists tr'. split; [exact Htr'|]. split; [exact Hn|].
  intros Hin%count_occ_elem k.
  destruct (count_occ Nat.eq_dec (Exchange.traders ex) t) as [|m]; [lia|].
  destruct Hn as (_ & _ & _ & _ & Hb). rewrite Hb.
  destruct (decide (k = Exchange.z ex)); [|done].
  apply (iter_add_zero (S m)).
Qed.

(** C1: once an exchange is dead it stays dead through every later [tick]
    (its own or another exchange's) and through the whole simulation.  Each
    of its later [tick]s settles a payoff of exactly 0 without touching the
    random source, and still tells that 0 to every registered trader: a
    trader on its list has its checkpoint moved to the step and its
    balances recorded if the step is new to it, exactly as by any other
    payoff, and holds the balances it opened the step with; a trader that
    is not on the list is not touched. *)
Theorem dead_exchange_pays_zero_forever p w e ex :
  exchange_heap w !! e = Some ex → Exchange.is_dead ex = true →
  (∀ g, Exchange.draw_payoff p ex g = Some (0%Q, true, g))
  ∧ (∀ tk g, ticks_zero p w e ex tk g)
  ∧ (∀ e' tk g w' g',
       Exchange_tick p w e' tk g = Some (w', g') →
       ∃ ex', exchange_heap w' !! e = Some ex'
            ∧ Exchange.is_dead ex' = true)
  ∧ (∀ exchanges steps g w' g',
       run_simulation p w exchanges steps g = Some (w', g') →
       ∃ ex', exchange_heap w' !! e = Some ex'
            ∧ Exchange.is_dead ex' = true
            ∧ Exchange.z ex' = Exchange.z ex
            ∧ Exchange.traders ex' = Exchange.traders ex
            ∧ (∀ g2, Exchange.draw_payoff p ex' g2 = Some (0%Q, true, g2))
            ∧ ∀ tk g2, ticks_zero p w' e ex' tk g2).
Proof.
  intros Hex Hdead. split; [|split; [|split]].
  - intros g. unfold Exchange.draw_payoff. by rewrite Hdead.
  - intros tk g. by apply dead_ticks_zero.
  - intros e' tk g w' g' Htick.
    apply Exchange_tick_evolves in Htick.
    destruct (evolves_lookup w w' e ex Htick Hex)
      as (ex' & Hex' & _ & _ & _ & H).
    exists ex'. auto.
  - intros exchanges steps g w' g' Hrun.
    apply run_simulation_evolves in Hrun.
    destruct (evolves_lookup w w' e ex Hrun Hex)
      as (ex' & Hex' & Hz & Ht & _ & H).
    exists ex'. split; [done|]. split; [auto|].
    split; [done|]. split; [done|]. split.
    + intros g2. unfold Exchange.draw_payoff. by rewrite (H Hdead).
    + intros tk g2. apply dead_ticks_zero; auto.
Qed.

(** After one step in which every uniform draw is 0, all exchanges of the
    source are dead; the first trader is on the list of the riskiest one
    twice. *)
Lemma dead_exchange_pays_zero_forever_witness :
  ∃ ex, exchange_heap all_ruined.1 !! 0 = Some ex
      ∧ Exchange.is_dead ex = true
      ∧ ∀ tk g, ticks_zero source_params all_ruined.1 0 ex tk g.
Proof.
  destruct (exchange_heap all_ruined.1 !! 0) as [ex|] eqn:Hex;
    [|vm_compute in Hex; discriminate Hex].
  assert (Exchange.is_dead ex = true) as Hdead.
  { assert (Exchange.is_dead <$> exchange_heap all_ruined.1 !! 0
            = Some true) as H by (vm_compute; reflexivity).
    rewrite Hex in H. injection H as H. exact H. }
  exists ex. split; [reflexivity|]. split; [exact Hdead|].
  exact (proj1 (proj2 (dead_exchange_pays_zero_forever
                         source_params all_ruined.1 0 ex Hex Hdead))).
Defined.

(** ** [Trader.returns] *)

Lemma Qsum_nonneg (l : list Q) : Forall (Qle 0) l → (0 <= Qsum l)%Q.
Proof.
  induction 1 as [|x l Hx _ IH]; simpl; [apply Qle_refl|]. lraQ.
Qed.

(** Adding two arrays of one length, or a scalar and an array. *)
Lemma np_add_same_length (a b : list Q) :
  length a = length b →
  np_add a b = Some (zip_with Qplus a b).
Proof. intros H. unfold np_add. by rewrite decide_True. Qed.

Lemma np_add_scalar (x : Q) (b : list Q) :
  ∃ r, np_add [x] b = Some r ∧ length r = length b
     ∧ ∀ j, j < length b → entry j r = (x + entry j b)%Q.
Proof.
  unfold np_add. destruct (decide (length [x] = length b)) as [Hlen|Hlen].
  - destruct b as [|y [|??]]; try done.
    eexists. split; [done|]. split; [done|].
    intros [|j] Hj; [done|]. simpl in Hj. lia.
  - eexists. split; [done|]. split; [by rewrite length_fmap|].
    intros j Hj. unfold entry. rewrite list_lookup_fmap.
    destruct (lookup_lt_is_Some_2 b j Hj) as [y ->]. done.
Qed.

Lemma zip_with_entry (a b : list Q) j :
  length a = length b → j < length a →
  entry j (zip_with Qplus a b) = (entry j a + entry j b)%Q.
Proof.
  intros Hlen Hj. unfold entry. rewrite lookup_zip_with.
  destruct (lookup_lt_is_Some_2 a j Hj) as [x ->].
  destruct (lookup_lt_is_Some_2 b j) as [y ->]; [lia|]. done.
Qed.

(** The sum of arrays of one length [n], from an accumulator of that
    length: defined, of length [n], and entry by entry the sum. *)
Lemma np_sum_aligned (n : nat) (ls : list (list Q)) :
  Forall (λ l, length l = n) ls →
  ∀ acc, length acc = n →
  ∃ r, foldl (λ acc v, a ← acc; np_add a v) (Some acc) ls = Some r
     ∧ length r = n
     ∧ ∀ j, j < n →
         (entry j r == entry j acc + Qsum (entry j <$> ls))%Q.
Proof.
  induction 1 as [|l ls Hl _ IH]; intros acc Hacc.
  - exists acc. split; [done|]. split; [done|]. intros j _. simpl. ring.
  - simpl foldl. rewrite np_add_same_length by congruence.
    destruct (IH (zip_with Qplus acc l)) as (r & Hr & Hlen & Hent).
    { rewrite length_zip_with. lia. }
    exists r. split; [done|]. split; [done|].
    intros j Hj. rewrite (Hent j Hj), zip_with_entry by lia.
    rewrite fmap_cons. simpl. ring.
Qed.

(** [sum] over arrays of one length: defined, and equal entry by entry to
    the sum of the entries. *)
Lemma np_sum_columns (n : nat) (ls : list (list Q)) :
  Forall (λ l, length l = n) ls → ls ≠ [] →
  ∃ r, np_sum ls = Some r ∧ length r = n
     ∧ ∀ j, j < n → (entry j r == Qsum (entry j <$> ls))%Q.
Proof.
  intros Hall Hne. destruct ls as [|l ls]; [done|].
  apply Forall_cons in Hall as [Hl Hall].
  unfold np_sum. simpl foldl.
  destruct (np_add_scalar 0 l) as (r0 & -> & Hlen0 & Hent0).
  destruct (np_sum_aligned n ls Hall r0) as (r & Hr & Hlen & Hent);
    [congruence|].
  exists r. split; [exact Hr|]. split; [done|].
  intros j Hj. rewrite (Hent j Hj), Hent0 by lia.
  rewrite fmap_cons. simpl. ring.
Qed.

(** The series of a trader, as [Trader.returns] walks them. *)
Lemma series_values_aligned heap n tr :
  recorded heap n tr →
  Forall (λ l, length l = n)
         (snd <$> map_to_list (Trader.account_series tr)).
Proof.
  intros [_ Hlen]. apply Forall_fmap, Forall_forall.
  intros [k l] Hkl%elem_of_map_to_list. simpl. by eapply Hlen.
Qed.

(** Step by step, the entries of series that are not negative. *)
Lemma columns_nonneg tr j :
  series_nonneg tr →
  Forall (Qle 0)
         (entry j <$> (snd <$> map_to_list (Trader.account_series tr))).
Proof.
  intros Hpos. apply Forall_fmap, Forall_fmap, Forall_forall.
  intros [k l] Hkl%elem_of_map_to_list. simpl. unfold entry.
  destruct (l !! j) as [x|] eqn:Hx; simpl; [|apply Qle_refl].
  specialize (Hpos k l Hkl). rewrite Forall_lookup in Hpos.
  by apply (Hpos j).
Qed.

(** [returns] of a trader whose series are aligned does not raise: it has
    one entry per recorded step, which is the total over the series of
    that step's entries, and is not negative when no recorded entry is. *)
Theorem returns_is_total_per_step heap n tr :
  recorded heap n tr → Trader.account_series tr ≠ ∅ →
  ∃ r, Trader_returns tr = Some r
     ∧ length r = n
     ∧ (∀ j, j < n →
          (entry j r
           == Qsum (entry j
                      <$> (snd <$> map_to_list (Trader.account_series tr))))%Q)
     ∧ (series_nonneg tr → ∀ j, j < n → (0 <= entry j r)%Q).
Proof.
  intros Hrec Hne. unfold Trader_returns.
  destruct (np_sum_columns n
              (snd <$> map_to_list (Trader.account_series tr)))
    as (r & Hr & Hlen & Hent).
  - by eapply series_values_aligned.
  - intros Hnil. apply fmap_nil_inv, map_to_list_empty_iff in Hnil. done.
  - exists r. split; [done|]. split; [done|]. split; [done|].
    intros Hpos j Hj. rewrite (Hent j Hj).
    by apply Qsum_nonneg, columns_nonneg.
Qed.

Lemma returns_is_total_per_step_witness :
  ∃ r, Trader_returns
         (new_trader source_params (exchange_heap source_exchanges) 0 [0; 1])
       = Some r
     ∧ length r = 1.
Proof.
  destruct (returns_is_total_per_step
              (exchange_heap source_exchanges) 1
              (new_trader source_params (exchange_heap source_exchanges)
                          0 [0; 1]))
    as (r & Hr & Hlen & _).
  - exact (proj2 (new_trader_at_step source_params
                    (exchange_heap source_exchanges)
                    (exchange_heap source_exchanges) 0 [0; 1] eq_refl)).
  - intros Hempty.
    apply (f_equal (λ m : gmap Z (list Q), m !! 30%Z)) in Hempty.
    vm_compute in Hempty. discriminate Hempty.
  - exists r. split; [exact Hr|exact Hlen].
Defined.

(** ** The wealth a trader starts with *)

Lemma Qsum_perm (l l' : list Q) : l ≡ₚ l' → (Qsum l == Qsum l')%Q.
Proof.
  induction 1 as [|x l l' _ IH|x y l|l l' l'' _ IH1 _ IH2]; simpl.
  - reflexivity.
  - rewrite IH. reflexivity.
  - ring.
  - by rewrite IH1.
Qed.

(** Storing [v] under [k] changes the total of a dictionary's values by
    [v] less what [k] held, which is the default when it held nothing. *)
Lemma Qsum_values_insert (m : gmap Z Q) (k : Z) (v : Q) :
  (Qsum (snd <$> map_to_list (<[k := v]> m))
   == v + Qsum (snd <$> map_to_list m) - dd_get 0%Q m k)%Q.
Proof.
  unfold dd_get. destruct (m !! k) as [x|] eqn:Hk; simpl.
  - rewrite <- (insert_delete_id m k x Hk) at 2.
    rewrite <- (insert_delete_eq m k v).
    rewrite (Qsum_perm _ _ (fmap_Permutation snd _ _
               (map_to_list_insert (delete k m) k v (lookup_delete_eq m k)))).
    rewrite (Qsum_perm _ _ (fmap_Permutation snd _ _
               (map_to_list_insert (delete k m) k x (lookup_delete_eq m k)))).
    rewrite !fmap_cons. simpl. ring.
  - rewrite (Qsum_perm _ _ (fmap_Permutation snd _ _
               (map_to_list_insert m k v Hk))).
    rewrite fmap_cons. simpl. ring.
Qed.

(** The first loop of [Trader.__init__] adds one [BET_SIZE] per entry. *)
Lemma initial_balance_total p heap exchanges :
  Forall (λ e, e < length heap) exchanges →
  (Qsum (snd <$> map_to_list (initial_balance p heap exchanges))
   == inject_Z (Z.of_nat (length exchanges)) * BET_SIZE p)%Q.
Proof.
  intros Hvalid. unfold initial_balance.
  set (step := λ (m : gmap Z Q) e,
         match heap !! e with
         | Some ex =>
             <[Exchange.z ex :=
                 (dd_get 0 m (Exchange.z ex) + BET_SIZE p)%Q]> m
         | None => m
         end).
  enough (∀ m0, (Qsum (snd <$> map_to_list (foldl step m0 exchanges))
                 == Qsum (snd <$> map_to_list m0)
                    + inject_Z (Z.of_nat (length exchanges)) * BET_SIZE p)%Q)
    as H.
  { rewrite H, map_to_list_empty. simpl. ring. }
  induction Hvalid as [|e es He _ IH]; intros m0.
  - simpl. ring.
  - simpl foldl. rewrite IH. unfold step.
    destruct (lookup_lt_is_Some_2 heap e He) as [ex ->].
    rewrite Qsum_values_insert.
    replace (Z.of_nat (length (e :: es)))
      with (1 + Z.of_nat (length es))%Z by (simpl length; lia).
    rewrite inject_Z_plus. ring.
Qed.

(** With at least one bet per trader, the bets of one trader add up to 1. *)
Lemma bets_add_up p :
  1 ≤ BETS_PER_TRADER p →
  (inject_Z (Z.of_nat (BETS_PER_TRADER p)) * BET_SIZE p == 1)%Q.
Proof.
  intros Hb. unfold BET_SIZE. field.
  intros H0. unfold Qeq in H0. simpl in H0. lia.
Qed.

(** The series of a new trader, column 0: its balances. *)
Lemma new_trader_first_column p heap tid exchanges :
  entry 0 <$> (snd <$> map_to_list
                 (Trader.account_series (new_trader p heap tid exchanges)))
  = snd <$> map_to_list (initial_balance p heap exchanges).
Proof.
  simpl. rewrite map_to_list_fmap, <- !list_fmap_compose.
  apply list_fmap_ext. by intros _ [k b] _.
Qed.

(** When the number of bets per trader is a power of two, as the 2 of the
    source is, every trader that [generate_traders] builds starts with a
    total wealth of exactly 1, however its window falls on the venues: the
    balances of the venues it holds add up to 1, and [returns] is defined
    and is that single total (the sum of the 0-d seeds, a one-entry array
    here).  For such a number BET_SIZE and every sum of bets are exact in
    binary64; for other numbers the sums are rounded and the total can
    differ from 1 in the last place. *)
Theorem starting_wealth_is_one p w exchanges i k :
  BETS_PER_TRADER p = 2 ^ k → k ≤ 52 →
  (∀ e, e ∈ exchanges → e < length (exchange_heap w)) →
  i < length (contiguous_sublists_size_n (exchanges_perm p exchanges)
                                         (BETS_PER_TRADER p)) →
  ∃ tr x,
    trader_heap (generate_traders p w exchanges).1
      !! (length (trader_heap w) + i) = Some tr
    ∧ (Qsum (snd <$> map_to_list (Trader.account_balance tr)) == 1)%Q
    ∧ Trader_returns tr = Some [x]
    ∧ (x == 1)%Q.
Proof.
  intros Hpow _ Hvalid Hi.
  assert (1 ≤ BETS_PER_TRADER p) as Hb.
  { rewrite Hpow. clear. induction k as [|k IH]; simpl; lia. }
  set (win := take (BETS_PER_TRADER p) (drop i (exchanges_perm p exchanges))).
  set (tr := new_trader p (exchange_heap w) i win).
  assert (length win = BETS_PER_TRADER p) as Hwin.
  { apply contiguous_sublists_full.
    by rewrite contiguous_sublists_length in Hi. }
  assert (Forall (λ e, e < length (exchange_heap w)) win) as Hin.
  { apply Forall_forall. intros e He. eapply Hvalid, window_elements, He. }
  assert (Qsum (snd <$> map_to_list (Trader.account_balance tr)) == 1)%Q
    as Htotal.
  { simpl. rewrite initial_balance_total, Hwin by done. by apply bets_add_up. }
  destruct (np_sum_columns 1
              (snd <$> map_to_list (Trader.account_series tr)))
    as (r & Hr & Hlen & Hent).
  - eapply series_values_aligned.
    exact (proj2 (new_trader_at_step p (exchange_heap w) (exchange_heap w)
                    i win eq_refl)).
  - intros Hnil. apply (f_equal (fmap (entry 0))) in Hnil.
    unfold tr in Hnil. rewrite new_trader_first_column in Hnil.
    pose proof (initial_balance_total p (exchange_heap w) win Hin) as Ht.
    rewrite Hnil, Hwin, bets_add_up in Ht by done. simpl in Ht.
    discriminate Ht.
  - destruct r as [|x [|??]]; try done.
    exists tr, x. split; [by apply generated_trader_lookup|].
    split; [exact Htotal|]. split; [exact Hr|].
    specialize (Hent 0 (Nat.lt_0_1)). unfold tr in Hent.
    rewrite new_trader_first_column in Hent.
    change (entry 0 [x]) with x in Hent. rewrite Hent. exact Htotal.
Qed.

Lemma starting_wealth_is_one_witness :
  ∃ tr x,
    trader_heap (generate_traders source_params source_exchanges
                                  (seq 0 8)).1 !! (0 + 4) = Some tr
    ∧ (Qsum (snd <$> map_to_list (Trader.account_balance tr)) == 1)%Q
    ∧ Trader_returns tr = Some [x]
    ∧ (x == 1)%Q.
Proof.
  apply (starting_wealth_is_one source_params source_exchanges (seq 0 8) 4
           1).
  - reflexivity.
  - lia.
  - intros e He. apply elem_of_seq in He.
    change (length (exchange_heap source_exchanges)) with 8. lia.
  - vm_compute. lia.
Defined.

(** ** [main] *)

Lemma has_series_nonempty tr :
  has_series tr → Trader.account_series tr ≠ ∅.
Proof.
  intros [zv Hzv] Hempty. apply Hzv. unfold dd_get.
  by rewrite Hempty, lookup_empty.
Qed.

Lemma receive_payoff_has_series heap zv payoff tk tr :
  has_series tr → has_series (Trader.receive_payoff heap zv payoff tk tr).
Proof.
  intros [k Hk]. exists k. intros Hnil.
  destruct (receive_payoff_grows heap zv payoff tk tr) as (_ & _ & _ & Hpre).
  specialize (Hpre k). rewrite Hnil in Hpre.
  by apply prefix_nil_inv in Hpre.
Qed.

(** A trader that is given an exchange of the store starts with a series. *)
Lemma new_trader_has_series p heap tid exchanges e :
  e ∈ exchanges → e < length heap →
  has_series (new_trader p heap tid exchanges).
Proof.
  intros He Hlt. destruct (lookup_lt_is_Some_2 heap e Hlt) as [ex Hex].
  destruct (proj2 (initial_balance_dom p heap exchanges (Exchange.z ex)))
    as [b Hb].
  { apply list_elem_of_omap. exists e. by rewrite Hex. }
  exists (Exchange.z ex). unfold dd_get. simpl.
  by rewrite lookup_fmap, Hb.
Qed.

(** Nothing that [main] computes raises, whatever the random source draws:
    the generation, the run and the [returns] of every trader that the plot
    reads.  That is so for at least two exchanges with risk parameters that
    binary64 holds exactly, a premium decay that is not negative, at least
    one bet per trader, risk parameters whose power [RUIN_DECAY] lies in
    the range [randint] accepts (positive, at most 2^63) and a standard
    deviation that is not negative.  [main] returns the [NUM_EXCHANGES]
    exchanges and one trader per window, which is [BETS_PER_TRADER - 1]
    fewer than [NUM_TRADERS]; no object is added by the run; and [returns]
    of every trader has [NUM_STEPS] entries, none of them negative. *)
Theorem main_returns p g :
  2 ≤ NUM_EXCHANGES p → exact_risks p → (0 <= PREMIUM_DECAY p)%Q →
  1 ≤ BETS_PER_TRADER p →
  (∀ k, k < NUM_EXCHANGES p →
     (0 < (Z.of_nat k + MAX_RISK p) ^ Z.of_nat (RUIN_DECAY p) <= 2 ^ 63)%Z) →
  (0 <= RETURN_STD p)%Q →
  ∃ w g',
    main p g
    = Some (seq 0 (NUM_TRADERS p + 1 - BETS_PER_TRADER p),
            seq 0 (NUM_EXCHANGES p), w, g')
    ∧ length (exchange_heap w) = NUM_EXCHANGES p
    ∧ length (trader_heap w) = NUM_TRADERS p + 1 - BETS_PER_TRADER p
    ∧ ∀ t tr, trader_heap w !! t = Some tr →
        ∃ r, Trader_returns tr = Some r
           ∧ length r = NUM_STEPS
           ∧ Forall (Qle 0) r.
Proof.
  intros HN _ Hd Hb Hpos Hstd.
  assert (1 ≤ NUM_STEPS) as Hsteps by apply le_n_S, Nat.le_0_l.
  unfold main. revert Hsteps. generalize NUM_STEPS as steps.
  intros steps Hsteps.
  destruct (generate_exchanges_defined p empty_world HN Hd)
    as [[w0 es] Hgen].
  destruct (generate_exchanges_new p empty_world w0 es Hgen)
    as (Htr0 & Hes & _ & Hlen0 & Hnew).
  simpl in Htr0, Hes, Hlen0, Hnew. rewrite Hgen. simpl.
  assert (∀ e, e ∈ es → e < length (exchange_heap w0)) as Hvalid.
  { intros e He. rewrite Hes in He. apply elem_of_seq in He. lia. }
  assert (length es = NUM_EXCHANGES p) as Hles by (by rewrite Hes, length_seq).
  destruct (generate_traders_spec p w0 es) as (w1 & Hgt & Htr1 & Hz1 & _).
  destruct (generated_world_ready p w0 es Htr0 Hvalid)
    as (_ & Hlen1 & Hfresh & Hreg); [lia|done|].
  rewrite Hgt in Hlen1, Hfresh, Hreg. simpl in Hlen1, Hfresh, Hreg.
  rewrite Htr0 in Hgt, Htr1. simpl in Hgt, Htr1.
  rewrite contiguous_sublists_length, exchanges_perm_length, Hles in Hgt.
  fold (NUM_TRADERS p) in Hgt.
  assert (length (trader_heap w1) = NUM_TRADERS p + 1 - BETS_PER_TRADER p)
    as Hcount.
  { rewrite Htr1, length_imap, contiguous_sublists_length,
      exchanges_perm_length, Hles. done. }
  destruct (run_simulation_steps p (exchange_heap w1) es steps w1 g)
    as (w2 & g' & Hrun & Hh & Hlen2 & Hend).
  { apply Forall2_same_length_lookup_2; [done|].
    intros i x y Hx Hy. rewrite Hx in Hy. injection Hy as <-.
    apply same_but_deader_refl. }
  { intros e ex He Hex. rewrite Hes in He. apply elem_of_seq in He.
    destruct (Hnew e) as (ex0 & Hex0 & Hz0 & _); [lia|].
    assert (Exchange.z <$> exchange_heap w0 !! e = Some (Exchange.z ex))
      as Hze by (by rewrite <- list_lookup_fmap, <- Hz1, list_lookup_fmap, Hex).
    rewrite Hex0 in Hze. injection Hze as <-. rewrite Hz0. apply Hpos. lia. }
  { done. }
  { done. }
  { done. }
  replace (steps `max` 1) with steps in Hend by lia.
  assert (all_traders (λ tr, series_nonneg tr ∧ has_series tr)
            (Exchange.z <$> exchange_heap w1) w2) as [_ Hinv].
  { eapply run_simulation_keeps; [| |exact Hrun].
    - intros heap zv payoff tk tr _ [Hn Hs].
      split; [by apply receive_payoff_nonneg
             |by apply receive_payoff_has_series].
    - split; [done|]. rewrite Htr1. apply Forall_forall.
      intros tr (i & s & -> & Hs)%elem_of_lookup_imap_1.
      split; [apply new_trader_nonneg|].
      pose proof (lookup_lt_Some _ _ _ Hs) as Hi.
      rewrite contiguous_sublists_lookup in Hs
        by (by rewrite contiguous_sublists_length in Hi).
      injection Hs as <-.
      rewrite contiguous_sublists_length in Hi.
      pose proof (contiguous_sublists_full _ _ _ Hi) as Hfull.
      destruct (take (BETS_PER_TRADER p)
                     (drop i (exchanges_perm p es))) as [|e win] eqn:Hwin;
        [simpl in Hfull; lia|].
      apply (new_trader_has_series p _ _ _ e); [apply list_elem_of_here|].
      apply Hvalid, (window_elements p es i). rewrite Hwin.
      apply list_elem_of_here. }
  assert (∀ t tr, trader_heap w2 !! t = Some tr →
            ∃ r, Trader_returns tr = Some r ∧ length r = steps
               ∧ Forall (Qle 0) r) as Hret.
  { intros t tr Htr.
    destruct (Hend t tr Htr) as [_ Hrec].
    rewrite Forall_lookup in Hinv. destruct (Hinv t tr Htr) as [Hn Hs].
    destruct (np_sum_columns steps
                (snd <$> map_to_list (Trader.account_series tr)))
      as (r & Hr & Hlen & Hent).
    - by eapply series_values_aligned.
    - intros Hnil. apply fmap_nil_inv, map_to_list_empty_iff in Hnil.
      by apply (has_series_nonempty tr).
    - exists r. split; [exact Hr|]. split; [exact Hlen|].
      apply Forall_lookup. intros j x Hx.
      pose proof (lookup_lt_Some _ _ _ Hx) as Hj. rewrite Hlen in Hj.
      assert (entry j r = x) as <- by (unfold entry; by rewrite Hx).
      rewrite (Hent j Hj). by apply Qsum_nonneg, columns_nonneg. }
  rewrite Hgt. rewrite Hrun. simpl.
  destruct (mapM_is_Some_2
              (λ t, tr ← trader_heap w2 !! t; Trader_returns tr)
              (seq 0 (NUM_TRADERS p + 1 - BETS_PER_TRADER p)))
    as [rs Hrs].
  { apply Forall_seq. intros t Ht. simpl.
    destruct (lookup_lt_is_Some_2 (trader_heap w2) t) as [tr Htr]; [lia|].
    rewrite Htr. simpl. destruct (Hret t tr Htr) as (r & -> & _).
    by eexists. }
  rewrite Hrs. simpl. exists w2, g'. split; [by rewrite <- Hes|].
  split.
  { apply Forall2_length in Hh. rewrite <- Hh.
    apply (f_equal length) in Hz1. rewrite !length_fmap in Hz1. lia. }
  split; [congruence|]. exact Hret.
Qed.

Lemma main_returns_witness :
  ∃ w g',
    main source_params ruin_at_once
    = Some (seq 0 (NUM_TRADERS source_params + 1
                   - BETS_PER_TRADER source_params),
            seq 0 (NUM_EXCHANGES source_params), w, g')
    ∧ length (exchange_heap w) = NUM_EXCHANGES source_params
    ∧ length (trader_heap w)
      = NUM_TRADERS source_params + 1 - BETS_PER_TRADER source_params
    ∧ ∀ t tr, trader_heap w !! t = Some tr →
        ∃ r, Trader_returns tr = Some r
           ∧ length r = NUM_STEPS
           ∧ Forall (Qle 0) r.
Proof.
  apply (main_returns source_params ruin_at_once).
  - simpl. lia.
  - unfold exact_risks. simpl. lia.
  - unfold Qle. simpl. lia.
  - simpl. lia.
  - intros k Hk. simpl in Hk.
    change (Z.of_nat (RUIN_DECAY source_params)) with 2%Z.
    change (MAX_RISK source_params) with 30%Z. nia.
  - unfold Qle. simpl. lia.
Defined.

(** ** Running the simulation again *)

(** A loop relates its first state to its last by every preorder that its
    body respects on the elements of the list. *)
Lemma for_each_relates_in {X S} (R : S → S → Prop)
    (body : S → X → option S) (l : list X) :
  (∀ s, R s s) → (∀ s1 s2 s3, R s1 s2 → R s2 s3 → R s1 s3) →
  (∀ s x s', x ∈ l → body s x = Some s' → R s s') →
  ∀ s s', for_each body s l = Some s' → R s s'.
Proof.
  intros Hrefl Htrans.
  induction l as [|x l IH]; intros Hbody s s'; simpl.
  - intros [= <-]. apply Hrefl.
  - destruct (body s x) as [s1|] eqn:Hs1; simpl; [|done].
    intros Hrest. eapply Htrans.
    + eapply Hbody; [apply list_elem_of_here|exact Hs1].
    + apply IH; [|exact Hrest].
      intros s0 y s0' Hy. apply Hbody. by apply list_elem_of_further.
Qed.

Lemma frozen_from_refl bound tr : frozen_from bound tr tr.
Proof. by intros _. Qed.

Lemma frozen_from_trans bound a b c :
  frozen_from bound a b → frozen_from bound b c → frozen_from bound a c.
Proof.
  intros Hab Hbc Ha. destruct (Hab Ha) as [Hs Ht].
  destruct Hbc as [Hs' Ht']; [lia|]. split; congruence.
Qed.

(** A payoff of a step that the checkpoint has reached is only added to the
    balance. *)
Lemma receive_payoff_frozen heap zv payoff tk tr :
  frozen_from tk tr (Trader.receive_payoff heap zv payoff tk tr).
Proof.
  intros Htk. unfold Trader.receive_payoff.
  by rewrite (proj2 (Z.ltb_ge (Trader.tick tr) tk) Htk).
Qed.

Lemma frozen_from_weaken bound bound' a b :
  (bound' <= bound)%Z → frozen_from bound' a b → frozen_from bound a b.
Proof. intros Hle Hab Ha. apply Hab. lia. Qed.

(** [run_simulation] numbers its steps from 0 on every call, and a trader
    records its balances only at a step beyond its checkpoint.  So a run of
    [steps] steps over traders whose checkpoint is already [steps - 1] or
    more (the traders a run of at least as many steps has left) adds no
    entry to any series and leaves every checkpoint where it was. *)
Theorem rerun_records_nothing p w exchanges steps g w' g' :
  (∀ t tr, trader_heap w !! t = Some tr →
     (Z.of_nat steps - 1 <= Trader.tick tr)%Z) →
  run_simulation p w exchanges steps g = Some (w', g') →
  ∀ t tr, trader_heap w !! t = Some tr →
    ∃ tr', trader_heap w' !! t = Some tr'
         ∧ Trader.account_series tr' = Trader.account_series tr
         ∧ Trader.tick tr' = Trader.tick tr.
Proof.
  intros Hseen Hrun.
  set (bound := (Z.of_nat steps - 1)%Z) in *.
  assert (Forall2 (frozen_from bound) (trader_heap w) (trader_heap w'))
    as Hfrozen.
  { unfold run_simulation in Hrun.
    apply (for_each_relates_in
             (λ s s', Forall2 (frozen_from bound)
                              (trader_heap s.1) (trader_heap s'.1)))
      in Hrun; [done|..].
    - intros s. apply Forall2_same_length_lookup_2; [done|].
      intros i x y Hx Hy. rewrite Hx in Hy. injection Hy as <-.
      apply frozen_from_refl.
    - intros s1 s2 s3. apply Forall2_trans. apply frozen_from_trans.
    - intros s i s' Hi%elem_of_seq Hstep.
      apply (for_each_relates
               (λ s s', Forall2 (frozen_from bound)
                                (trader_heap s.1) (trader_heap s'.1)))
        in Hstep; [done|..].
      + intros s0. apply Forall2_same_length_lookup_2; [done|].
        intros j x y Hx Hy. rewrite Hx in Hy. injection Hy as <-.
        apply frozen_from_refl.
      + intros s1 s2 s3. apply Forall2_trans. apply frozen_from_trans.
      + intros [w1 g1] e [w2 g2]
          [(_ & -> & _)|(ex & payoff & dead & Hex & Hd & ->)]%Exchange_tick_spec;
          simpl.
        * apply Forall2_same_length_lookup_2; [done|].
          intros j x y Hx Hy. rewrite Hx in Hy. injection Hy as <-.
          apply frozen_from_refl.
        * rewrite notify_all_traders. simpl.
          apply alter_all_related;
            [apply frozen_from_refl|apply frozen_from_trans|].
          intros x. apply (frozen_from_weaken bound (Z.of_nat i));
            [unfold bound; lia|apply receive_payoff_frozen]. }
  intros t tr Htr.
  destruct (Forall2_lookup_l _ _ _ t tr Hfrozen Htr) as (tr' & Htr' & Hf).
  exists tr'. split; [exact Htr'|]. apply Hf. by apply (Hseen t).
Qed.

Lemma rerun_records_nothing_witness :
  ∃ w' g',
    run_simulation source_params (after_steps 3).1 (seq 0 8) 3
                   windfall_then_ruin = Some (w', g')
    ∧ ∀ t tr, trader_heap (after_steps 3).1 !! t = Some tr →
        ∃ tr', trader_heap w' !! t = Some tr'
             ∧ Trader.account_series tr' = Trader.account_series tr
             ∧ Trader.tick tr' = Trader.tick tr.
Proof.
  destruct (run_simulation source_params (after_steps 3).1 (seq 0 8) 3
                           windfall_then_ruin) as [[w' g']|] eqn:Hrun;
    [|vm_compute in Hrun; discriminate Hrun].
  exists w', g'. split; [reflexivity|].
  apply (rerun_records_nothing source_params (after_steps 3).1 (seq 0 8) 3
           windfall_then_ruin w' g'); [|exact Hrun].
  intros t tr Htr.
  assert (Trader.tick <$> trader_heap (after_steps 3).1
          = replicate 15 2%Z) as Hall by (vm_compute; reflexivity).
  assert ((Trader.tick <$> trader_heap (after_steps 3).1) !! t
          = Some (Trader.tick tr)) as Ht
    by (rewrite list_lookup_fmap, Htr; reflexivity).
  rewrite Hall in Ht. apply lookup_replicate in Ht.
  rewrite (proj1 Ht). simpl. lia.
Defined.

(** ** The entries of the series *)

Lemma for_each_app {X S} (body : S → X → option S) (l1 l2 : list X) s :
  for_each body s (l1 ++ l2)
  = s' ← for_each body s l1; for_each body s' l2.
Proof.
  revert s. induction l1 as [|x l1 IH]; intros s; simpl; [done|].
  destruct (body s x) as [s1|]; simpl; [apply IH|done].
Qed.

(** A run of [k + m] steps is a run of [k] steps followed by the steps
    [k], ..., [k + m - 1]. *)
Lemma run_simulation_split p w exchanges (k m : nat) g :
  run_simulation p w exchanges (k + m) g
  = s ← run_simulation p w exchanges k g;
    for_each (λ s i, for_each (λ '(w', g') e,
                                 Exchange_tick p w' e (Z.of_nat i) g')
                              s exchanges)
             s (seq k m).
Proof. unfold run_simulation. by rewrite seq_app, for_each_app. Qed.

Lemma steps_grow p exchanges (l : list nat) s s' :
  for_each (λ s i, for_each (λ '(w', g') e,
                               Exchange_tick p w' e (Z.of_nat i) g')
                            s exchanges) s l = Some s' →
  Forall2 grows (trader_heap s.1) (trader_heap s'.1).
Proof.
  intros Hrun.
  apply (for_each_relates
           (λ s s', Forall2 grows (trader_heap s.1) (trader_heap s'.1)))
    in Hrun; [done|..].
  - intros s0. apply Forall2_same_length_lookup_2; [done|].
    intros i x y Hx Hy. rewrite Hx in Hy. injection Hy as <-.
    apply grows_refl.
  - intros s1 s2 s3. apply Forall2_trans. apply grows_trans.
  - intros s0 i s0' Hstep.
    apply (for_each_relates
             (λ s s', Forall2 grows (trader_heap s.1) (trader_heap s'.1)))
      in Hstep; [done|..].
    + intros s1. apply Forall2_same_length_lookup_2; [done|].
      intros j x y Hx Hy. rewrite Hx in Hy. injection Hy as <-.
      apply grows_refl.
    + intros s1 s2 s3. apply Forall2_trans. apply grows_trans.
    + intros [w1 g1] e0 [w2 g2]. apply Exchange_tick_grows.
Qed.

Lemma records_step_refl heap k tr : records_step heap k tr tr.
Proof. split; [by left|apply frozen_from_refl]. Qed.

Lemma records_step_trans heap k a b c :
  records_step heap k a b → records_step heap k b c →
  records_step heap k a c.
Proof.
  intros [Hab Fab] [Hbc Fbc]. split; [|by eapply frozen_from_trans].
  intros Ha. destruct (Hab Ha) as [->|[Ht Hs]]; [by apply Hbc|].
  right. destruct Fbc as [Hs' Ht']; [lia|]. split; congruence.
Qed.

Lemma receive_payoff_records_step heap heap' zv payoff k tr :
  Exchange.z <$> heap' = Exchange.z <$> heap →
  records_step heap k tr (Trader.receive_payoff heap' zv payoff k tr).
Proof.
  intros Hz. rewrite (receive_payoff_ext heap' heap) by done.
  split; [|apply receive_payoff_frozen].
  intros Hlt. right. unfold Trader.receive_payoff.
  by rewrite (proj2 (Z.ltb_lt _ _) Hlt).
Qed.

Lemma Exchange_tick_records p h0 w e (k : Z) g w' g' :
  Exchange.z <$> exchange_heap w = Exchange.z <$> h0 →
  Exchange_tick p w e k g = Some (w', g') →
  Exchange.z <$> exchange_heap w' = Exchange.z <$> h0
  ∧ Forall2 (records_step h0 k) (trader_heap w) (trader_heap w').
Proof.
  intros Hz Htick.
  pose proof (evolves_z _ _ (Exchange_tick_evolves _ _ _ _ _ _ _ Htick))
    as Hz'.
  split; [congruence|].
  apply Exchange_tick_spec in Htick
    as [(_ & -> & _)|(ex & payoff & dead & Hex & Hd & ->)].
  - apply Forall2_same_length_lookup_2; [done|].
    intros i x y Hx Hy. rewrite Hx in Hy. injection Hy as <-.
    apply records_step_refl.
  - rewrite notify_all_exchanges in Hz'. simpl in Hz'.
    rewrite notify_all_traders. simpl.
    apply alter_all_related;
      [apply records_step_refl|apply records_step_trans|].
    intros x. apply receive_payoff_records_step. congruence.
Qed.

(** One step of the simulation, seen from each trader. *)
Lemma step_records p h0 exchanges (k : nat) s s' :
  Exchange.z <$> exchange_heap s.1 = Exchange.z <$> h0 →
  for_each (λ '(w', g') e, Exchange_tick p w' e (Z.of_nat k) g')
           s exchanges = Some s' →
  Forall2 (records_step h0 (Z.of_nat k)) (trader_heap s.1) (trader_heap s'.1).
Proof.
  intros Hz Hstep.
  apply (for_each_relates
           (λ s s', Exchange.z <$> exchange_heap s.1 = Exchange.z <$> h0 →
                    Exchange.z <$> exchange_heap s'.1 = Exchange.z <$> h0
                    ∧ Forall2 (records_step h0 (Z.of_nat k))
                              (trader_heap s.1) (trader_heap s'.1)))
    in Hstep; [exact (proj2 Hstep)| | | |exact Hz].
  - intros s0 H0. split; [done|].
    apply Forall2_same_length_lookup_2; [done|].
    intros i x y Hx Hy. rewrite Hx in Hy. injection Hy as <-.
    apply records_step_refl.
  - intros s1 s2 s3 H12 H23 H1.
    destruct (H12 H1) as [H2 F12]. destruct (H23 H2) as [H3 F23].
    split; [done|].
    eapply Forall2_trans; [apply records_step_trans|exact F12|exact F23].
  - intros [w1 g1] e [w2 g2] Ht H1. by eapply Exchange_tick_records.
Qed.

(** The entry that step [k] records is the clamped balance the trader had
    when the step began. *)
Lemma recorded_step_entry h0 (k : nat) tr tr' zv :
  1 ≤ k → at_step h0 k tr → Trader.tick tr' = Z.of_nat k →
  records_step h0 (Z.of_nat k) tr tr' → zv ∈ Trader.held h0 tr →
  dd_get [] (Trader.account_series tr') zv !! k
  = Some (clamp (dd_get 0%Q (Trader.account_balance tr) zv)).
Proof.
  intros Hk [Ht [Hdom Hlen]] Ht' [Hrec _] Hheld.
  destruct Hrec as [->|[_ Hs]]; [lia|lia|].
  destruct (proj1 (Hdom zv) Hheld) as [l Hl].
  unfold dd_get at 1. rewrite Hs.
  destruct (record_balances_effect h0 tr zv) as [_ ->].
  destruct (decide (zv ∈ Trader.held h0 tr)); [|done]. simpl.
  unfold dd_get at 1. rewrite Hl. simpl.
  rewrite <- (Hlen zv l Hl). apply list_lookup_middle. done.
Qed.

(** The seed of a series is the balance the trader is created with. *)
Lemma new_trader_seed p heap tid exchanges zv :
  is_Some (Trader.account_series (new_trader p heap tid exchanges) !! zv) →
  dd_get [] (Trader.account_series (new_trader p heap tid exchanges)) zv
  = [dd_get 0%Q (Trader.account_balance (new_trader p heap tid exchanges))
            zv].
Proof.
  unfold dd_get. simpl. rewrite lookup_fmap.
  destruct (initial_balance p heap exchanges !! zv) as [b|]; simpl; [done|].
  by intros [? ?].
Qed.

Lemma source_exchanges_z :
  Exchange.z <$> exchange_heap source_exchanges
  = [30; 31; 32; 33; 34; 35; 36; 37]%Z.
Proof. vm_compute. reflexivity. Qed.

(** C5: a run of [steps] ≥ 1 steps over the traders of [generate_traders]
    returns (for risk parameters whose draw [randint] accepts and a
    standard deviation that is not negative) and leaves every series of
    every trader with exactly [steps] entries.  Entry 0 is the seed, the
    balance the trader was created with.  Entry [k], for [k] from 1 to
    [steps - 1], is the balance the trader held after the first [k] steps,
    that is at the end of step [k - 1], clamped at 0.  So the entries are
    those of the steps 0 to [steps - 2]: the balances that the last step
    leaves are pending behind the checkpoint [steps - 1] and are no entry
    of any series.  All series of a trader have the same length at the
    start and after every [receive_payoff]. *)
Theorem final_step_is_never_recorded p w exchanges steps g :
  trader_heap w = [] →
  (∀ e, e ∈ exchanges → e < length (exchange_heap w)) →
  1 ≤ length exchanges → 1 ≤ BETS_PER_TRADER p →
  (∀ e ex, e ∈ exchanges → exchange_heap w !! e = Some ex →
     (0 < Exchange.z ex ^ Z.of_nat (RUIN_DECAY p) <= 2 ^ 63)%Z) →
  (0 <= RETURN_STD p)%Q →
  1 ≤ steps →
  let w1 := (generate_traders p w exchanges).1 in
  ∃ w' g',
    run_simulation p w1 exchanges steps g = Some (w', g')
    ∧ length (trader_heap w')
      = length exchanges * BETS_PER_TRADER p - BETS_PER_TRADER p + 1
    ∧ (∀ t tr, trader_heap w' !! t = Some tr →
         Trader.tick tr = (Z.of_nat steps - 1)%Z
         ∧ (∀ zv, zv ∈ Trader.held (exchange_heap w') tr →
              ∃ l, Trader.account_series tr !! zv = Some l
                 ∧ length l = steps)
         ∧ (∀ zv l, Trader.account_series tr !! zv = Some l →
              length l = steps))
    ∧ (∀ t tr0 tr zv,
         trader_heap w1 !! t = Some tr0 → trader_heap w' !! t = Some tr →
         zv ∈ Trader.held (exchange_heap w') tr →
         dd_get [] (Trader.account_series tr) zv !! 0
         = Some (dd_get 0%Q (Trader.account_balance tr0) zv))
    ∧ (∀ k, 1 ≤ k < steps →
         ∃ wk gk,
           run_simulation p w1 exchanges k g = Some (wk, gk)
           ∧ ∀ t trk tr zv,
               trader_heap wk !! t = Some trk →
               trader_heap w' !! t = Some tr →
               zv ∈ Trader.held (exchange_heap w') tr →
               dd_get [] (Trader.account_series tr) zv !! k
               = Some (clamp (dd_get 0%Q (Trader.account_balance trk) zv)))
    ∧ (∀ t tr, trader_heap w1 !! t = Some tr →
         recorded (exchange_heap w1) 1 tr)
    ∧ (∀ heap n tr zv payoff tk,
         recorded heap n tr →
         recorded heap (if (Trader.tick tr <? tk)%Z then S n else n)
                  (Trader.receive_payoff heap zv payoff tk tr)).
Proof.
  intros Hnil Hvalid HN Hb Hpos Hstd Hsteps. cbv zeta.
  destruct (generated_world_ready p w exchanges Hnil Hvalid HN Hb)
    as (Hz & Hlen & Hfresh & Hreg).
  destruct (generate_traders_spec p w exchanges) as (w1' & Hgt & Hnew & _).
  set (w1 := (generate_traders p w exchanges).1) in *.
  assert (trader_heap w1
          = imap (new_trader p (exchange_heap w))
                 (contiguous_sublists_size_n (exchanges_perm p exchanges)
                                             (BETS_PER_TRADER p))) as Htraders.
  { unfold w1. rewrite Hgt. simpl. by rewrite Hnew, Hnil. }
  clear w1' Hgt Hnew.
  set (h0 := exchange_heap w1) in *.
  assert (∀ k, ∃ wk gk,
            run_simulation p w1 exchanges k g = Some (wk, gk)
            ∧ Forall2 same_but_deader h0 (exchange_heap wk)
            ∧ length (trader_heap wk) = length (trader_heap w1)
            ∧ ∀ t tr, trader_heap wk !! t = Some tr →
                at_step h0 (k `max` 1) tr) as Hrunk.
  { intros k. apply run_simulation_steps; [|..|done|done|done].
    - apply Forall2_same_length_lookup_2; [done|].
      intros i x y Hx Hy. unfold h0 in Hx. rewrite Hx in Hy.
      injection Hy as <-. apply same_but_deader_refl.
    - intros e ex1 He Hex1.
      assert (Exchange.z <$> exchange_heap w !! e = Some (Exchange.z ex1))
        as Hze
        by (by rewrite <- list_lookup_fmap, <- Hz, list_lookup_fmap, Hex1).
      destruct (exchange_heap w !! e) as [ex|] eqn:Hex; [|done].
      injection Hze as <-. by apply (Hpos e). }
  assert (∀ k m wk gk wm gm,
            run_simulation p w1 exchanges k g = Some (wk, gk) →
            run_simulation p w1 exchanges (k + m) g = Some (wm, gm) →
            Forall2 grows (trader_heap wk) (trader_heap wm)) as Hgrows.
  { intros k m wk gk wm gm Hk Hm.
    rewrite run_simulation_split, Hk in Hm. simpl in Hm.
    by apply steps_grow in Hm. }
  destruct (Hrunk steps) as (w' & g' & Hrun & Hh & Hlen' & Hend).
  replace (steps `max` 1) with steps in Hend by lia.
  pose proof (same_but_deader_z _ _ Hh) as Hzw'.
  exists w', g'. split; [done|]. split; [congruence|].
  split; [|split; [|split; [|split]]].
  - intros t tr Htr. destruct (Hend t tr Htr) as [Htick Hrec].
    apply (recorded_ext _ (exchange_heap w')) in Hrec as [Hdom Hl];
      [|by symmetry].
    split; [done|]. split; [|done].
    intros zv [l Hzv]%Hdom. exists l. split; [done|]. by eapply Hl.
  - intros t tr0 tr zv Htr0 Htr Hheld.
    assert (Forall2 grows (trader_heap w1) (trader_heap w')) as Hg.
    { apply (Hgrows 0 steps w1 g w' g'); [done|exact Hrun]. }
    destruct (Forall2_lookup_l _ _ _ t tr0 Hg Htr0) as (tr' & Htr' & Hgr).
    rewrite Htr in Htr'. injection Htr' as <-.
    destruct Hgr as (_ & Hxs & _ & Hpre).
    destruct (Hfresh t tr0 Htr0) as [_ [Hdom _]].
    assert (zv ∈ Trader.held h0 tr0) as Hheld0.
    { rewrite <- (held_same_exchanges h0 tr0 tr Hxs).
      by rewrite <- (held_ext (exchange_heap w') h0 tr Hzw'). }
    apply Hdom in Hheld0.
    eapply prefix_lookup_Some; [|apply Hpre].
    rewrite Htraders, list_lookup_imap in Htr0.
    destruct (_ !! t) as [s|]; simpl in Htr0; [|done].
    injection Htr0 as <-. by rewrite new_trader_seed.
  - intros k [Hk1 Hk2].
    destruct (Hrunk k) as (wk & gk & Hrk & Hhk & Hlk & Hendk).
    replace (k `max` 1) with k in Hendk by lia.
    exists wk, gk. split; [done|].
    intros t trk tr zv Htrk Htr Hheld.
    destruct (Hrunk (k + 1)) as (wk1 & gk1 & Hrk1 & _ & _ & Hendk1).
    replace ((k + 1) `max` 1) with (S k) in Hendk1 by lia.
    pose proof Hrk1 as Hstep.
    rewrite run_simulation_split, Hrk in Hstep. simpl in Hstep.
    destruct (for_each _ (wk, gk) exchanges) as [sk1|] eqn:Hsk1;
      simpl in Hstep; [|done].
    injection Hstep as ->.
    apply (step_records p h0) in Hsk1; [|by apply same_but_deader_z].
    simpl in Hsk1.
    destruct (Forall2_lookup_l _ _ _ t trk Hsk1 Htrk) as (tr1 & Htr1 & Hrec).
    assert (Forall2 grows (trader_heap wk1) (trader_heap w')) as Hg1.
    { apply (Hgrows (k + 1) (steps - (k + 1)) wk1 gk1 w' g'); [done|].
      by replace (k + 1 + (steps - (k + 1))) with steps by lia. }
    assert (Forall2 grows (trader_heap wk) (trader_heap w')) as Hg0.
    { apply (Hgrows k (steps - k) wk gk w' g'); [done|].
      by replace (k + (steps - k)) with steps by lia. }
    destruct (Forall2_lookup_l _ _ _ t tr1 Hg1 Htr1) as (tr' & Htr' & Hgr1).
    rewrite Htr in Htr'. injection Htr' as <-.
    destruct (Forall2_lookup_l _ _ _ t trk Hg0 Htrk) as (tr' & Htr' & Hgr0).
    rewrite Htr in Htr'. injection Htr' as <-.
    destruct Hgr1 as (_ & _ & _ & Hpre). destruct Hgr0 as (_ & Hxs & _).
    eapply prefix_lookup_Some; [|apply Hpre].
    apply (recorded_step_entry h0 k trk tr1 zv); [done|by eapply Hendk| |done|].
    + destruct (Hendk1 t tr1 Htr1) as [-> _]. lia.
    + rewrite <- (held_same_exchanges h0 trk tr Hxs).
      by rewrite <- (held_ext (exchange_heap w') h0 tr Hzw').
  - intros t tr Htr. by destruct (Hfresh t tr Htr).
  - intros. by apply receive_payoff_recorded.
Qed.

(** Three steps over the eight exchanges and fifteen traders of the source,
    every exchange ruined by its first draw: every series ends with three
    entries, and the last of them is the clamped balance after two steps. *)
Lemma final_step_is_never_recorded_witness :
  ∃ w' g' w2 g2,
    run_simulation source_params source_world (seq 0 8) 3 ruin_at_once
    = Some (w', g')
    ∧ run_simulation source_params source_world (seq 0 8) 2 ruin_at_once
      = Some (w2, g2)
    ∧ length (trader_heap w') = 15
    ∧ (∀ t tr zv l,
         trader_heap w' !! t = Some tr →
         Trader.account_series tr !! zv = Some l → length l = 3)
    ∧ ∀ t tr2 tr zv,
        trader_heap w2 !! t = Some tr2 → trader_heap w' !! t = Some tr →
        zv ∈ Trader.held (exchange_heap w') tr →
        dd_get [] (Trader.account_series tr) zv !! 2
        = Some (clamp (dd_get 0%Q (Trader.account_balance tr2) zv)).
Proof.
  destruct (final_step_is_never_recorded source_params source_exchanges
              (seq 0 8) 3 ruin_at_once)
    as (w' & g' & Hrun & Hlen & Hall & _ & Hentries & _).
  - vm_compute. reflexivity.
  - intros e He%elem_of_seq.
    replace (length (exchange_heap source_exchanges))
      with (length (Exchange.z <$> exchange_heap source_exchanges))
      by apply length_fmap.
    rewrite source_exchanges_z. simpl. lia.
  - simpl. lia.
  - simpl. lia.
  - intros e ex _ Hex.
    assert (Exchange.z ex ∈ Exchange.z <$> exchange_heap source_exchanges)
      as Hin.
    { apply list_elem_of_fmap. exists ex. split; [reflexivity|].
      eapply list_elem_of_lookup_2. exact Hex. }
    rewrite source_exchanges_z in Hin.
    change (Z.of_nat (RUIN_DECAY source_params)) with 2%Z.
    repeat (apply elem_of_cons in Hin as [->|Hin]; [simpl; lia|]).
    apply elem_of_nil in Hin. destruct Hin.
  - unfold Qle. simpl. lia.
  - lia.
  - destruct (Hentries 2) as (w2 & g2 & Hrun2 & Hlast); [lia|].
    exists w', g', w2, g2. split; [exact Hrun|]. split; [exact Hrun2|].
    split; [exact Hlen|]. split; [|exact Hlast].
    intros t tr zv l Htr Hl. destruct (Hall t tr Htr) as (_ & _ & H).
    eapply H. exact Hl.
Defined.

(** ** The ruin payoff is finite *)




